(** * Tidal library tools: duplicate cleaner, quality upgrader and
      synchroniser

    A shallow embedding of [limpiar_duplicados_tidal.py],
    [mejorar_calidad_tidal.py] and [sincronizar_tidal.py]: text
    normalisation, the version ranking used to order a group of duplicates,
    the paginated collector of My Tracks, the convergence loop of the
    cleaner, the add/remove swap of the upgrader, and the reading of the
    local files, the matching of search results and the adding loop of the
    synchroniser.

    Text is modelled as [string] over 7-bit ASCII code points: [str.lower],
    [str.upper], [str.strip], [\w], [\s] and [\d] are given on that range,
    where they are exact, and a code point above 127 is treated as a
    caseless symbol, which Python does not do (it has letters, digits,
    spaces and case mappings beyond ASCII).  A property that turns on the
    case or the class of such characters is stated for ASCII text
    ([is_ascii]).  Printing and the pacing delays ([time.sleep]) have no
    counterpart here. *)

From Stdlib Require Import ZArith NArith Bool List Ascii String Lia.
From Stdlib Require Import Permutation Sorted.
From stdpp Require Import base gmap.
Import ListNotations.

Local Open Scope Z_scope.

(** ** Characters and the [str] methods used by the scripts *)

Module Text.

Definition code (c : ascii) : N := N_of_ascii c.

Definition in_range (lo hi : N) (c : ascii) : bool :=
((lo <=? code c) && (code c <=? hi))%N.

Definition is_upper (c : ascii) : bool := in_range 65 90 c.
Definition is_lower (c : ascii) : bool := in_range 97 122 c.
Definition is_digit (c : ascii) : bool := in_range 48 57 c.

(** [\w]: letters, digits and the underscore (of ASCII; Python's [\w]
  also takes the letters and digits beyond it). *)
Definition is_word (c : ascii) : bool :=
is_upper c || is_lower c || is_digit c || (code c =? 95)%N.

(** [\s] and the separators of [str.split()] and [str.strip()]: TAB, LF,
  VT, FF, CR, the four separators FS, GS, RS, US and the space (the
  whitespace of ASCII; Python also takes U+0085, U+00A0, U+3000 and other
  spaces beyond it). *)
Definition is_space (c : ascii) : bool :=
in_range 9 13 c || in_range 28 32 c.

(** [str.lower] and [str.upper], character by character, on ASCII text;
  beyond ASCII Python maps more letters, some to more than one
  character. *)
Definition lower_chr (c : ascii) : ascii :=
if is_upper c then ascii_of_N (code c + 32) else c.

Definition upper_chr (c : ascii) : ascii :=
if is_lower c then ascii_of_N (code c - 32) else c.

Definition chars (s : string) : list ascii := list_ascii_of_string s.
Definition text (l : list ascii) : string := string_of_list_ascii l.

Definition lower (s : string) : string := text (map lower_chr (chars s)).
Definition upper (s : string) : string := text (map upper_chr (chars s)).

(** [s.split()]: the maximal runs of non-space characters. *)
Fixpoint split_ws (cur : list ascii) (l : list ascii) : list (list ascii) :=
match l with
| [] => match cur with [] => [] | _ => [rev cur] end
| c :: l' =>
    if is_space c
    then match cur with
         | [] => split_ws [] l'
         | _ => rev cur :: split_ws [] l'
         end
    else split_ws (c :: cur) l'
end.

Definition split (l : list ascii) : list (list ascii) := split_ws [] l.

(** [sep.join(words)] *)
Fixpoint join (sep : list ascii) (ws : list (list ascii)) : list ascii :=
match ws with
| [] => []
| [w] => w
| w :: ws' => w ++ sep ++ join sep ws'
end.

(** Truthiness of an optional string: [x or d]. *)
Definition or_str (x : option string) (d : string) : string :=
match x with
| Some s => if String.eqb s "" then d else s
| None => d
end.

End Text.

(** ** The fragment of [re] the scripts rely on

    A backtracking matcher with Python's priorities: alternatives are tried
    left to right, [?] and [+] are greedy, [*?] is lazy.  Repetition only
    occurs over single characters in the patterns of the scripts, which is
    what [LazyStar] and [Plus] take. *)

Module Re.

Import Text.

Inductive regex : Type :=
| Eps                             (* the empty pattern *)
| Lit (c : ascii)                 (* a literal character *)
| Class (p : ascii -> bool)       (* a character class: [\d], [.], [[^...]] *)
| Bound                           (* [\b] *)
| Cat (r1 r2 : regex)             (* r1 r2 *)
| Or (r1 r2 : regex)              (* r1|r2 *)
| Maybe (r : regex)               (* (?:r)? *)
| LazyStar (p : ascii -> bool)    (* c*? *)
| Plus (p : ascii -> bool).       (* c+ *)

(** [\b]: exactly one of the two neighbours is a word character; the start
  and the end of the text count as non-word. *)
Definition word_before (prev : option ascii) : bool :=
match prev with Some c => is_word c | None => false end.

Definition word_after (s : list ascii) : bool :=
match s with c :: _ => is_word c | [] => false end.

Definition at_boundary (prev : option ascii) (s : list ascii) : bool :=
xorb (word_before prev) (word_after s).

(** A literal under [re.IGNORECASE] ([ic = true]) or not. *)
Definition lit_eq (ic : bool) (c x : ascii) : bool :=
if ic then Ascii.eqb (lower_chr c) (lower_chr x) else Ascii.eqb c x.

(** The continuation receives the character before the current position,
  the rest of the text and the number of characters consumed so far. *)
Definition cont : Type := option ascii -> list ascii -> nat -> option nat.

Fixpoint lazy_star (p : ascii -> bool) (k : cont)
  (prev : option ascii) (s : list ascii) (n : nat) : option nat :=
match k prev s n with
| Some m => Some m
| None =>
    match s with
    | x :: s' => if p x then lazy_star p k (Some x) s' (S n) else None
    | [] => None
    end
end.

Fixpoint greedy_star (p : ascii -> bool) (k : cont)
  (prev : option ascii) (s : list ascii) (n : nat) : option nat :=
match s with
| x :: s' =>
    if p x
    then match greedy_star p k (Some x) s' (S n) with
         | Some m => Some m
         | None => k prev s n
         end
    else k prev s n
| [] => k prev s n
end.

Fixpoint rmatch (ic : bool) (r : regex) (prev : option ascii)
  (s : list ascii) (n : nat) (k : cont) : option nat :=
match r with
| Eps => k prev s n
| Lit c =>
    match s with
    | x :: s' => if lit_eq ic c x then k (Some x) s' (S n) else None
    | [] => None
    end
| Class p =>
    match s with
    | x :: s' => if p x then k (Some x) s' (S n) else None
    | [] => None
    end
| Bound => if at_boundary prev s then k prev s n else None
| Cat r1 r2 =>
    rmatch ic r1 prev s n (fun prev' s' n' => rmatch ic r2 prev' s' n' k)
| Or r1 r2 =>
    match rmatch ic r1 prev s n k with
    | Some m => Some m
    | None => rmatch ic r2 prev s n k
    end
| Maybe r1 =>
    match rmatch ic r1 prev s n k with
    | Some m => Some m
    | None => k prev s n
    end
| LazyStar p => lazy_star p k prev s n
| Plus p =>
    match s with
    | x :: s' => if p x then greedy_star p k (Some x) s' (S n) else None
    | [] => None
    end
end.

(** Length of the match of [r] starting at the current position, if any. *)
Definition match_here (ic : bool) (r : regex) (prev : option ascii)
  (s : list ascii) : option nat :=
rmatch ic r prev s 0%nat (fun _ _ n => Some n).

(** [pattern.search(text)]: the leftmost match, as the matched text
  ([m.group(0)]). *)
Fixpoint search_from (ic : bool) (r : regex) (prev : option ascii)
  (s : list ascii) : option (list ascii) :=
match match_here ic r prev s with
| Some n => Some (firstn n s)
| None =>
    match s with
    | x :: s' => search_from ic r (Some x) s'
    | [] => None
    end
end.

Definition search (ic : bool) (r : regex) (s : string) : option string :=
option_map text (search_from ic r None (chars s)).

Definition found (ic : bool) (r : regex) (s : string) : bool :=
match search ic r s with Some _ => true | None => false end.

(** [pattern.sub(repl, text)]: non-overlapping matches, leftmost first.
  [skip] counts the characters of the current match still to be dropped;
  an empty match inserts the replacement and keeps the character, as
  Python 3.7 and later do. *)
Fixpoint sub_from (ic : bool) (r : regex) (repl : list ascii)
  (prev : option ascii) (s : list ascii) (skip : nat) : list ascii :=
match s with
| [] =>
    match skip, match_here ic r prev [] with
    | O, Some _ => repl
    | _, _ => []
    end
| x :: s' =>
    match skip with
    | S j => sub_from ic r repl (Some x) s' j
    | O =>
        match match_here ic r prev s with
        | Some (S j) => repl ++ sub_from ic r repl (Some x) s' j
        | Some O => repl ++ x :: sub_from ic r repl (Some x) s' 0%nat
        | None => x :: sub_from ic r repl (Some x) s' 0%nat
        end
    end
end.

Definition sub (ic : bool) (r : regex) (repl : string) (s : string) : string :=
text (sub_from ic r (chars repl) None (chars s) 0%nat).

(** Pattern builders. *)
Fixpoint lits (l : list ascii) : regex :=
match l with
| [] => Eps
| c :: l' => Cat (Lit c) (lits l')
end.

Definition str (s : string) : regex := lits (chars s).

Fixpoint cat_all (rs : list regex) : regex :=
match rs with
| [] => Eps
| r :: rs' => Cat r (cat_all rs')
end.

Fixpoint alt_all (r : regex) (rs : list regex) : regex :=
match rs with
| [] => r
| r' :: rs' => Or r (alt_all r' rs')
end.

(** [\bword\b] *)
Definition word (s : string) : regex := cat_all [Bound; str s; Bound].

Definition digit : regex := Class is_digit.

(** [.] without [re.DOTALL]: any character but the line feed. *)
Definition dot (c : ascii) : bool := negb (code c =? 10)%N.

End Re.

(** ** Constants and patterns shared by the two scripts *)

Import Text Re.

Definition MAX_TRACKS : Z := 50000.

(** [NOISE_PATTERNS], in the order of the source; [NOISE_RE] joins them
    with [|] and is compiled with [re.IGNORECASE]. *)
Definition NOISE_PATTERNS : list regex :=
  [ cat_all [Bound; str "remaster"; Maybe (str "ed"); Bound];
    word "anniversary";
    word "deluxe";
    word "bonus";
    word "album version";
    word "single version";
    word "radio edit";
    word "original";
    word "explicit";
    word "clean";
    word "live";
    word "acoustic";
    word "mono";
    word "stereo";
    word "digital remaster";
    word "revisited";
    word "expanded";
    word "special edition";
    cat_all [Bound; Or (str "19") (str "20"); digit; digit; Bound];
    cat_all [Bound; Plus is_digit;
             alt_all (str "st") [str "nd"; str "rd"; str "th"]; Bound] ].

Definition NOISE_RE : regex :=
  match NOISE_PATTERNS with
  | r :: rs => alt_all r rs
  | [] => Eps
  end.

(** [QUALITY_RANK.get(q, 0)] *)
Definition QUALITY_RANK (q : string) : Z :=
  if String.eqb q "HI_RES_LOSSLESS" then 5
  else if String.eqb q "HI_RES" then 4
  else if String.eqb q "LOSSLESS" then 3
  else if String.eqb q "HIGH" then 2
  else if String.eqb q "LOW" then 1
  else 0.

(** [QUALITY_LABEL.get(q, q)] *)
Definition QUALITY_LABEL (q : string) : string :=
  if String.eqb q "HI_RES_LOSSLESS" then "Hi-Res Lossless"
  else if String.eqb q "HI_RES" then "Hi-Res (MQA)"
  else if String.eqb q "LOSSLESS" then "Lossless (FLAC)"
  else if String.eqb q "HIGH" then "High (320kbps)"
  else if String.eqb q "LOW" then "Low (96kbps)"
  else q.

(** [TOP_QUALITIES] of the upgrader, as a membership test. *)
Definition TOP_QUALITIES (q : string) : bool :=
  String.eqb q "HI_RES_LOSSLESS" || String.eqb q "HI_RES".

(** The variant detectors, all compiled with [re.I] except [_RE_YEAR]. *)
Definition _RE_REMASTER : regex :=
  cat_all [Bound;
           Or (Cat (str "remaster") (Maybe (str "ed"))) (str "digital remaster");
           Bound].
Definition _RE_EXPLICIT : regex := word "explicit".
Definition _RE_CLEAN : regex := word "clean".
Definition _RE_STEREO : regex := word "stereo".
Definition _RE_MONO : regex := word "mono".
Definition _RE_ALBUM_VER : regex := word "album version".
Definition _RE_SINGLE_VER : regex := word "single version".
Definition _RE_YEAR : regex :=
  cat_all [Bound; Or (str "19") (str "20"); digit; digit; Bound].

(** ** Tracks

    A track object as the scripts read it.  [artist] is the artist's name,
    [None] when the track has no artist object; [album] is the album's name,
    [None] when there is no album or the album has no name; [audio_quality]
    is the text of the quality ([q.value] or [str(q)]), [None] when the
    attribute is missing or [None]. *)
Record Track : Type := mkTrack {
  id : Z;
  name : option string;
  artist : option string;
  album : option string;
  audio_quality : option string
}.

Definition _tag (track : Track) : string :=
  let title := or_str (name track) "" in
  let album := or_str (album track) "" in
  (title ++ " " ++ album)%string.

(** [int(m.group(0))] of a run of decimal digits. *)
Definition int_of_digits (s : string) : Z :=
  fold_left (fun acc c => 10 * acc + (Z.of_N (code c) - 48)) (chars s) 0.

Definition _remaster_year (track : Track) : Z :=
  let tag := _tag track in
  if negb (found true _RE_REMASTER tag) then -1
  else match search false _RE_YEAR tag with
       | Some m => int_of_digits m
       | None => 0
       end.

Definition version_priority (track : Track) : Z * Z * Z * Z * Z :=
  let tag := _tag track in
  let remaster_score := _remaster_year track in
  let explicit_score :=
    if found true _RE_EXPLICIT tag then 1
    else if negb (found true _RE_CLEAN tag) then 0 else -1 in
  let stereo_score :=
    if found true _RE_STEREO tag then 1
    else if found true _RE_MONO tag then -1
    else 0 in
  let album_score :=
    if found true _RE_ALBUM_VER tag then 1
    else if found true _RE_SINGLE_VER tag then -1
    else 0 in
  let id_score := id track in
  (remaster_score, explicit_score, stereo_score, album_score, id_score).

Definition get_quality (track : Track) : string :=
  match audio_quality track with
  | None => "UNKNOWN"
  | Some q => upper q
  end.

Definition quality_rank (track : Track) : Z := QUALITY_RANK (get_quality track).

Definition qlabel (track : Track) : string := QUALITY_LABEL (get_quality track).

(** [re.sub(r"\(.*?\)", " ", text)] and its siblings in [normalize]. *)
Definition RE_PARENS : regex :=
  cat_all [Lit "("%char; LazyStar dot; Lit ")"%char].
Definition RE_BRACKETS : regex :=
  cat_all [Lit "["%char; LazyStar dot; Lit "]"%char].
Definition RE_SYMBOL : regex :=
  Class (fun c => negb (is_lower c || is_digit c || is_space c)).

Definition normalize (text : string) : string :=
  let text := lower text in
  let text := sub false RE_PARENS " " text in
  let text := sub false RE_BRACKETS " " text in
  let text := sub true NOISE_RE " " text in
  let text := sub false RE_SYMBOL " " text in
  Text.text (join (chars " ") (split (chars text))).

(** ** Ordering a group: [list.sort(key=sort_key)] *)

(** Python compares tuples lexicographically: the first position where the
    two differ decides. *)
Fixpoint tuple_lt (a b : list Z) : bool :=
  match a, b with
  | [], [] => false
  | [], _ :: _ => true
  | _ :: _, [] => false
  | x :: a', y :: b' =>
      if x <? y then true
      else if x =? y then tuple_lt a' b'
      else false
  end.

Section Sort.

Context {A : Type}.
Variable key : A -> list Z.

(** [list.sort] is stable: an element goes in front of the first element
    of the sorted rest whose key is not smaller than its own. *)
Fixpoint insert_sorted (x : A) (l : list A) : list A :=
  match l with
  | [] => [x]
  | y :: l' =>
      if tuple_lt (key y) (key x) then y :: insert_sorted x l'
      else x :: l
  end.

Fixpoint sort_by (l : list A) : list A :=
  match l with
  | [] => []
  | x :: l' => insert_sorted x (sort_by l')
  end.

(** [x] may stand before [y]: the key of [y] is not smaller. *)
Definition key_le (x y : A) : Prop := tuple_lt (key y) (key x) = false.

End Sort.

(** ** The duplicate grouper *)

Definition sort_key (t : Track) : list Z :=
  let qr := quality_rank t in
  let '(vp0, vp1, vp2, vp3, vp4) := version_priority t in
  [- qr; - vp0; - vp1; - vp2; - vp3; vp4].

Definition group_key : Type := string * string.

Definition key_eqb (a b : group_key) : bool :=
  String.eqb (fst a) (fst b) && String.eqb (snd a) (snd b).

Definition track_key (track : Track) : group_key :=
  let artist := match artist track with Some a => a | None => "desconocido"%string end in
  let title := or_str (name track) "" in
  (normalize artist, normalize title).

(** [groups[key].append(track)] on a dictionary that keeps insertion order. *)
Fixpoint group_append (k : group_key) (t : Track)
    (groups : list (group_key * list Track)) : list (group_key * list Track) :=
  match groups with
  | [] => [(k, [t])]
  | (k', v) :: rest =>
      if key_eqb k k' then (k', v ++ [t]) :: rest
      else (k', v) :: group_append k t rest
  end.

Definition build_groups (tracks : list Track) : list (group_key * list Track) :=
  fold_left (fun groups t => group_append (track_key t) t groups) tracks [].

Definition find_duplicates (tracks : list Track) : list (group_key * list Track) :=
  map (fun kv => (fst kv, sort_by sort_key (snd kv)))
      (List.filter (fun kv => (1 <? length (snd kv))%nat) (build_groups tracks)).

(** ** The paginated collector: [get_all_tracks]

    The favourites listing as the collector reads it.  A page is the list
    under ["items"] (empty when the key is missing); each entry carries
    under ["item"] the raw track, [None] when the key is missing or the
    value is [null] or an empty object.  A raw track is the JSON object
    restricted to the keys the scripts read. *)

Record track_data : Type := mkData {
  td_id : option Z;                  (* "id" *)
  td_title : option string;          (* "title" *)
  td_name : option string;           (* "name" *)
  td_artist : option (option string);
    (* "artist": the "name" of the object, [None] when it is no object *)
  td_album : option (option string * option string);
    (* "album": the "title" and the "name" of the object *)
  td_audioQuality : option string;   (* "audioQuality" *)
  td_audio_quality : option string   (* "audio_quality" *)
}.

Inductive response : Type :=
| Failed                                       (* the request raised *)
| Page (items : list (option track_data)).     (* [r.json()] *)

(** [x or y] on optional strings. *)
Definition or_opt (x y : option string) : option string :=
  match x with
  | Some s => if String.eqb s "" then y else x
  | None => y
  end.

Definition truthy (x : option string) : bool :=
  match x with
  | Some s => negb (String.eqb s "")
  | None => false
  end.

Record collector : Type := mkCollector {
  all_tracks : list Track;
  seen_ids : gset Z;
  skipped_unavailable : nat;
  offset : Z;
  consecutive_empty : nat
}.

Inductive stop : Type :=
| TransportError      (* [break] in the [except] of the request *)
| PagesExhausted      (* [break] on the second empty page in a row *)
| HardCap.            (* [break] on [len(all_tracks) >= MAX_TRACKS] *)

Inductive outcome : Type :=
| Continue (st : collector)
| Break (why : stop) (st : collector).

Definition limit : Z := 100.

Section Collector.

(** [session.parse_track]: [None] when it raises, [Some None] for a track
    object whose [id] is [None]. *)
Variable parse_track : track_data -> option (option Track).

(** The listing request at a given offset. Offsets only grow during one
    collection, so each is requested once. *)
Variable request : Z -> response.

Definition _parse_track_safe (td : track_data) : option Track :=
  match parse_track td with
  | Some t => t
  | None =>
      match td_id td with
      | None => None
      | Some i =>
          Some {| id := i;
                  name := Some (or_str (or_opt (td_title td) (td_name td)) "?");
                  artist := Some (match td_artist td with
                                  | Some a => or_str a "?"
                                  | None => "?"%string
                                  end);
                  album := Some (match td_album td with
                                 | Some (t, n) => or_str (or_opt t n) "?"
                                 | None => "?"%string
                                 end);
                  audio_quality := or_opt (td_audioQuality td) (td_audio_quality td) |}
      end
  end.

Definition set_quality (raw_q : option string) (t : Track) : Track :=
  {| id := id t; name := name t; artist := artist t; album := album t;
     audio_quality := raw_q |}.

(** The body of [for item in items]. *)
Definition collect_item (st : collector) (item : option track_data) : collector :=
  match item with
  | None =>
      {| all_tracks := all_tracks st; seen_ids := seen_ids st;
         skipped_unavailable := S (skipped_unavailable st);
         offset := offset st; consecutive_empty := consecutive_empty st |}
  | Some track_data =>
      match td_id track_data with
      | None => st
      | Some track_id =>
          if (track_id =? 0) || bool_decide (track_id ∈ seen_ids st) then st
          else
            match _parse_track_safe track_data with
            | None => st
            | Some track =>
                let raw_q := or_opt (td_audioQuality track_data)
                                    (td_audio_quality track_data) in
                let track := if truthy raw_q then set_quality raw_q track
                             else track in
                {| all_tracks := all_tracks st ++ [track];
                   seen_ids := {[ track_id ]} ∪ seen_ids st;
                   skipped_unavailable := skipped_unavailable st;
                   offset := offset st;
                   consecutive_empty := consecutive_empty st |}
            end
      end
  end.

Definition set_empty (n : nat) (st : collector) : collector :=
  {| all_tracks := all_tracks st; seen_ids := seen_ids st;
     skipped_unavailable := skipped_unavailable st;
     offset := offset st; consecutive_empty := n |}.

Definition next_page (st : collector) : collector :=
  {| all_tracks := all_tracks st; seen_ids := seen_ids st;
     skipped_unavailable := skipped_unavailable st;
     offset := offset st + limit; consecutive_empty := consecutive_empty st |}.

(** One iteration of [while True]. *)
Definition collect_page (st : collector) : outcome :=
  match request (offset st) with
  | Failed => Break TransportError st
  | Page [] =>
      let st := set_empty (S (consecutive_empty st)) st in
      if (2 <=? consecutive_empty st)%nat then Break PagesExhausted st
      else Continue (next_page st)
  | Page items =>
      let st := set_empty 0 st in
      let st := fold_left collect_item items st in
      if MAX_TRACKS <=? Z.of_nat (length (all_tracks st)) then Break HardCap st
      else Continue (next_page st)
  end.

(** The loop may run forever (a source that never runs dry and keeps
    repeating identifiers), hence the bound on the number of requests. *)
Fixpoint collect_loop (fuel : nat) (st : collector) : option (stop * collector) :=
  match fuel with
  | O => None
  | S fuel' =>
      match collect_page st with
      | Break why st' => Some (why, st')
      | Continue st' => collect_loop fuel' st'
      end
  end.

Definition collector_init : collector :=
  {| all_tracks := []; seen_ids := ∅; skipped_unavailable := 0;
     offset := 0; consecutive_empty := 0 |}.

Definition get_all_tracks (fuel : nat) : option (list Track) :=
  option_map (fun r => all_tracks (snd r)) (collect_loop fuel collector_init).

End Collector.

(** The label the round of the cleaner prints for a copy:
    [f"{track.artist.name} - {track.name}" if track.artist else track.name].
    It is a text unless the track has neither artist nor name; in the
    formatted text a missing name reads "None". *)
Definition t_label (track : Track) : option string :=
  match artist track with
  | Some a =>
      Some (a ++ " - " ++ match name track with Some n => n | None => "None" end)%string
  | None => name track
  end.

(** ** The remote service

    The favourites list lives on the service.  [W] is its state; a request
    that raises leaves it as it was (each add and remove is atomic on the
    side of the service). *)

Section Service.

Variable W : Type.
Variable parse_track : track_data -> option (option Track).
(** [GET users/<id>/favorites/tracks] at an offset. *)
Variable favorites : W -> Z -> response.
(** [session.user.favorites.remove_track] and [add_track]:
    [None] when the call raises. *)
Variable remove_track : Z -> W -> option W.
Variable add_track : Z -> W -> option W.
(** [session.search(query, models=[tidalapi.Track], limit=20)]: the tracks
    of the result, [None] when the call raises. *)
Variable search : string -> W -> option (list Track).

(** *** The cleaner: [remove_duplicates_round] and the loop of [main] *)

(** A line of [all_removed]: the round, the removed copy and the keeper
    it names; a line of [all_errors] names the copy. *)
Record removal : Type := mkRemoval {
  rem_round : nat;
  rem_track : Track;
  rem_keeper : Track
}.

Record cleaner : Type := mkCleaner {
  world : W;
  all_removed : list removal;
  all_errors : list Track
}.

(** How the loops of the cleaner end: they go through, or an exception
    that nothing catches leaves them, the round and [main], with the state
    reached so far. *)
Inductive attempt (A : Type) : Type :=
| Done (a : A)
| Raised (st : cleaner).

(** The body of [for track in extras].  The progress line prints
    [t_label[:48]] before the [try]: on a copy whose label is [None] the
    slice raises a [TypeError] that nothing catches. *)
Definition remove_extra (round_num : nat) (keeper : Track)
    (acc : attempt (nat * cleaner)) (track : Track) : attempt (nat * cleaner) :=
  match acc with
  | Raised _ st => Raised _ st
  | Done _ (eliminated, st) =>
      match t_label track with
      | None => Raised _ st
      | Some _ =>
          match remove_track (id track) (world st) with
          | Some w' =>
              Done _ (S eliminated,
                      {| world := w';
                         all_removed :=
                           all_removed st ++ [mkRemoval round_num track keeper];
                         all_errors := all_errors st |})
          | None =>
              Done _ (eliminated,
                      {| world := world st;
                         all_removed := all_removed st;
                         all_errors := all_errors st ++ [track] |})
          end
      end
  end.

(** The body of [for (_, _), group in duplicates.items()]. *)
Definition remove_group (round_num : nat) (acc : attempt (nat * cleaner))
    (kv : group_key * list Track) : attempt (nat * cleaner) :=
  match snd kv with
  | keeper :: extras => fold_left (remove_extra round_num keeper) extras acc
  | [] => acc   (* no group is empty *)
  end.

(** [fuel] bounds the requests of the collection of this round.  The
    collector catches the failure of a request itself, so the [except] around
    it in the round is never entered. *)
Definition remove_duplicates_round (fuel : nat) (round_num : nat)
    (st : cleaner) : option (attempt (nat * cleaner)) :=
  match get_all_tracks parse_track (favorites (world st)) fuel with
  | None => None
  | Some tracks =>
      let duplicates := find_duplicates tracks in
      match duplicates with
      | [] => Some (Done _ (0%nat, st))
      | _ => Some (fold_left (remove_group round_num) duplicates
                             (Done _ (0%nat, st)))
      end
  end.

(** The [while True] of [main]; [rounds] bounds the number of rounds, which
    the script does not. The result is the last [round_num]; an exception
    that leaves a round leaves the loop. *)
Fixpoint clean_loop (rounds fuel : nat) (round_num : nat) (st : cleaner)
    : option (attempt (nat * cleaner)) :=
  match rounds with
  | O => None
  | S rounds' =>
      match remove_duplicates_round fuel round_num st with
      | None => None
      | Some (Raised _ st') => Some (Raised _ st')
      | Some (Done _ (eliminated, st')) =>
          if (eliminated =? 0)%nat then Some (Done _ (round_num, st'))
          else clean_loop rounds' fuel (S round_num) st'
      end
  end.

Inductive cleaned : Type :=
| AlreadyClean                              (* the preview found no group *)
| Cancelled                                 (* the user declined *)
| Cleaned (round_num : nat) (st : cleaner)  (* the summary *)
| Died (st : cleaner).                      (* an exception left the loop *)

(** [main] after the login; [confirm] is the answer at the prompt. *)
Definition cleaner_main (confirm : bool) (rounds fuel : nat) (w : W)
    : option cleaned :=
  match get_all_tracks parse_track (favorites w) fuel with
  | None => None
  | Some tracks =>
      match find_duplicates tracks with
      | [] => Some AlreadyClean
      | _ =>
          if negb confirm then Some Cancelled
          else
            match clean_loop rounds fuel 1
                    {| world := w; all_removed := []; all_errors := [] |} with
            | None => None
            | Some (Raised _ st) => Some (Died st)
            | Some (Done _ (round_num, st)) => Some (Cleaned round_num st)
            end
      end
  end.

(** *** The upgrader: [search_better_version] and [process_tracks] *)

(** The body of [for candidate in candidates]. *)
Definition consider (norm_artist norm_title : string)
    (acc : option Track * Z) (candidate : Track) : option Track * Z :=
  let '(best, best_rank) := acc in
  match audio_quality candidate with
  | None => acc
  | Some _ =>
      let cand_artist :=
        match artist candidate with Some a => a | None => ""%string end in
      let cand_title := or_str (name candidate) "" in
      if negb (String.eqb (normalize cand_artist) norm_artist) then acc
      else if negb (String.eqb (normalize cand_title) norm_title) then acc
      else
        let cand_rank := quality_rank candidate in
        if best_rank <? cand_rank then (Some candidate, cand_rank) else acc
  end.

Definition search_query (track : Track) : string :=
  let artist_name :=
    match artist track with Some a => a | None => ""%string end in
  let title := or_str (name track) "" in
  (artist_name ++ " " ++ title)%string.

Definition search_better_version (w : W) (track : Track) : option Track :=
  let artist_name :=
    match artist track with Some a => a | None => ""%string end in
  let title := or_str (name track) "" in
  let current_rank := quality_rank track in
  let norm_artist := normalize artist_name in
  let norm_title := normalize title in
  match search (search_query track) w with
  | None => None
  | Some candidates =>
      fst (fold_left (consider norm_artist norm_title) candidates
                     (None, current_rank))
  end.

(** A line of [errors]. *)
Inductive upgrade_error : Type :=
| ADD_FAIL (track better : Track)
| REMOVE_FAIL (track : Track).

(** A request sent to the service. The script keeps no such record; it is
    carried along to tell which requests a run makes. *)
Inductive call : Type :=
| Search (query : string)
| Add (track_id : Z)
| Remove (track_id : Z).

Record upgrader : Type := mkUpgrader {
  remote : W;
  improved : nat;
  skipped_top : nat;
  log_entries : list (Track * Track);   (* MEJORADA: the track and its upgrade *)
  errors : list upgrade_error;
  calls : list call
}.

(** The body of [for i, track in enumerate(tracks, 1)]. *)
Definition process_track (st : upgrader) (track : Track) : upgrader :=
  let current_q := get_quality track in
  if TOP_QUALITIES current_q then
    {| remote := remote st; improved := improved st;
       skipped_top := S (skipped_top st);
       log_entries := log_entries st; errors := errors st;
       calls := calls st |}
  else
    let calls1 := calls st ++ [Search (search_query track)] in
    match search_better_version (remote st) track with
    | None =>
        {| remote := remote st; improved := improved st;
           skipped_top := skipped_top st;
           log_entries := log_entries st; errors := errors st;
           calls := calls1 |}
    | Some better =>
        let calls2 := calls1 ++ [Add (id better)] in
        match add_track (id better) (remote st) with
        | None =>
            {| remote := remote st; improved := improved st;
               skipped_top := skipped_top st;
               log_entries := log_entries st;
               errors := errors st ++ [ADD_FAIL track better];
               calls := calls2 |}
        | Some w1 =>
            let calls3 := calls2 ++ [Remove (id track)] in
            match remove_track (id track) w1 with
            | Some w2 =>
                {| remote := w2; improved := S (improved st);
                   skipped_top := skipped_top st;
                   log_entries := log_entries st ++ [(track, better)];
                   errors := errors st;
                   calls := calls3 |}
            | None =>
                {| remote := w1; improved := improved st;
                   skipped_top := skipped_top st;
                   log_entries := log_entries st;
                   errors := errors st ++ [REMOVE_FAIL track];
                   calls := calls3 |}
            end
        end
    end.

Definition process_tracks (tracks : list Track) (st : upgrader) : upgrader :=
  fold_left process_track tracks st.

Definition upgrader_init (w : W) : upgrader :=
  {| remote := w; improved := 0; skipped_top := 0;
     log_entries := []; errors := []; calls := [] |}.

End Service.

Arguments world {W} _.
Arguments all_removed {W} _.
Arguments all_errors {W} _.
Arguments mkCleaner {W} _ _ _.
Arguments Cleaned {W} _ _.
Arguments Died {W} _.
Arguments Done {W A} _.
Arguments Raised {W A} _.
Arguments AlreadyClean {W}.
Arguments Cancelled {W}.
Arguments remote {W} _.
Arguments improved {W} _.
Arguments skipped_top {W} _.
Arguments log_entries {W} _.
Arguments errors {W} _.
Arguments calls {W} _.
Arguments mkUpgrader {W} _ _ _ _ _ _.
Arguments upgrader_init {W} _.

(** ** The ranking in the words of the specification

    Quality tier first, then remaster recency, the explicit/clean marker,
    the channel marker and the edition marker; larger is better.  The
    identifier comes last, smaller is better.  The definitions of this
    part are written from the specification and use nothing of the code
    above but the pattern matcher: the text read is the title and the album
    name, the tier is read off the audio quality, and a marker is a whole
    word in any case. *)

(** The combined title and album text; what is missing counts as empty. *)
Definition title_and_album (t : Track) : string :=
  (match name t with Some n => n | None => "" end ++ " " ++
   match album t with Some a => a | None => "" end)%string.

(** The text holds [w] as a whole word, in any case. *)
Definition says (w : string) (t : Track) : bool :=
  found true (word w) (title_and_album t).

(** The five tiers, from the highest fidelity down. *)
Definition known_tiers : list string :=
  ["HI_RES_LOSSLESS"; "HI_RES"; "LOSSLESS"; "HIGH"; "LOW"]%string.

(** The quality of a track is known when its label, read in any case, is
    one of the five. *)
Definition known_quality (t : Track) : Prop :=
  exists q, audio_quality t = Some q /\ In (upper q) known_tiers.

(** The rank of the quality tier: 5 for the highest down to 1 for the
    lowest, and 0 for a quality that is unknown or not given. *)
Definition tier (t : Track) : Z :=
  match audio_quality t with
  | None => 0
  | Some q =>
      if String.eqb (upper q) "HI_RES_LOSSLESS" then 5
      else if String.eqb (upper q) "HI_RES" then 4
      else if String.eqb (upper q) "LOSSLESS" then 3
      else if String.eqb (upper q) "HIGH" then 2
      else if String.eqb (upper q) "LOW" then 1
      else 0
  end.

Definition remaster_marker (t : Track) : bool :=
  says "remaster" t || says "remastered" t || says "digital remaster" t.

(** A four-digit year of the 1900s or 2000s standing on its own. *)
Definition four_digit_year : regex :=
  cat_all [Bound; Or (str "19") (str "20"); digit; digit; Bound].

(** The first such year of the text. *)
Definition first_year (t : Track) : option Z :=
  option_map int_of_digits (search false four_digit_year (title_and_album t)).

Definition remaster_score (t : Track) : Z :=
  if remaster_marker t then
    match first_year t with
    | Some year => year
    | None => 0
    end
  else -1.

Definition explicit_score (t : Track) : Z :=
  if says "explicit" t then 1
  else if says "clean" t then -1 else 0.

Definition stereo_score (t : Track) : Z :=
  if says "stereo" t then 1
  else if says "mono" t then -1 else 0.

Definition album_score (t : Track) : Z :=
  if says "album version" t then 1
  else if says "single version" t then -1 else 0.

Definition ranking (t : Track) : list Z :=
  [tier t; remaster_score t; explicit_score t; stereo_score t;
   album_score t].

(** The first of two results that is one, and whether a result is one:
    used to state how the alternatives of a pattern match. *)
Definition or_else (a b : option nat) : option nat :=
  match a with Some m => Some m | None => b end.

Definition is_some {A : Type} (x : option A) : bool :=
  match x with Some _ => true | None => false end.

(** [a] is kept ahead of [b]. *)
Definition preferred (a b : Track) : Prop :=
  tuple_lt (ranking b) (ranking a) = true \/
  (ranking a = ranking b /\ id a < id b).

Definition preferred_or_tied (a b : Track) : Prop :=
  tuple_lt (ranking b) (ranking a) = true \/
  (ranking a = ranking b /\ id a <= id b).

(** The comparison [list.sort] makes on the keys of two tracks. *)
Definition ranks_before (a b : Track) : Prop :=
  tuple_lt (sort_key a) (sort_key b) = true.

(** The tracks of a list that fall under a key, in their order, and the
    list stored under a key of the dictionary. *)
Definition same_key (k : group_key) (tracks : list Track) : list Track :=
  List.filter (fun t => key_eqb (track_key t) k) tracks.

Fixpoint lookup_group (k : group_key) (groups : list (group_key * list Track))
    : option (list Track) :=
  match groups with
  | [] => None
  | (k', v) :: rest => if key_eqb k k' then Some v else lookup_group k rest
  end.

Definition nonempty (l : list Track) : option (list Track) :=
  match l with [] => None | _ => Some l end.

(** What the collector knows, at the head of its loop, about the page
    before the current one; what holds of the state it ends in; and the
    count of tracks staying below the cap. *)
Definition previous_page_known (request : Z -> response) (st : collector) : Prop :=
  0 <= offset st /\
  (consecutive_empty st = 0%nat \/
   (consecutive_empty st = 1%nat /\ limit <= offset st /\
    request (offset st - limit) = Page [])).

Definition stopped_at (request : Z -> response) (why : stop) (st : collector) : Prop :=
  match why with
  | TransportError => request (offset st) = Failed
  | PagesExhausted =>
      limit <= offset st /\
      request (offset st - limit) = Page [] /\
      request (offset st) = Page []
  | HardCap =>
      (exists item items, request (offset st) = Page (item :: items)) /\
      MAX_TRACKS <= Z.of_nat (length (all_tracks st))
  end.

Definition below_cap (st : collector) : Prop :=
  Z.of_nat (length (all_tracks st)) < MAX_TRACKS.

(** ** Sample data *)

Module Demo.

Definition track (i : Z) (artist title album quality : string) : Track :=
  {| id := i; name := Some title; artist := Some artist;
     album := Some album; audio_quality := Some quality |}.

(** Three entries for one song and one for another. *)
Definition eagles : list Track :=
  [ track 10 "Eagles" "Hotel California (Remastered 2013)" "Hotel California" "HIGH";
    track 11 "Eagles" "Hotel California" "Hotel California" "LOSSLESS";
    track 12 "Eagles" "Desperado" "Desperado" "LOSSLESS";
    track 13 "eagles" "Hotel California - Live" "Hell Freezes Over" "HIGH" ].

Definition hotel_california : group_key :=
  ("eagles", "hotel california")%string.

(** Two unrelated songs whose titles are nothing but noise. *)
Definition live_and_1999 : list Track :=
  [ track 1 "Prince" "Live" "One Nite Alone" "LOSSLESS";
    track 2 "Prince" "1999" "1999" "LOSSLESS" ].

(** A service whose state is the favourites list itself: the listing
    serves it a hundred entries to a page, a removal drops the entries
    with the identifier, an addition appends a bare entry.  Identifiers
    in [locked] cannot be removed, identifiers in [refused] cannot be
    added: the calls raise. *)
Definition raw (t : Track) : track_data :=
  {| td_id := Some (id t); td_title := name t; td_name := None;
     td_artist := Some (artist t); td_album := Some (album t, None);
     td_audioQuality := audio_quality t; td_audio_quality := None |}.

Definition favorites (w : list Track) (off : Z) : response :=
  Page (map (fun t => Some (raw t))
            (firstn (Z.to_nat limit) (skipn (Z.to_nat off) w))).

Definition remove_track (locked : list Z) (i : Z) (w : list Track)
    : option (list Track) :=
  if existsb (Z.eqb i) locked then None
  else Some (List.filter (fun t => negb (id t =? i)) w).

Definition add_track (refused : list Z) (catalog : list Track) (i : Z)
    (w : list Track) : option (list Track) :=
  if existsb (Z.eqb i) refused then None
  else Some (w ++ List.filter (fun t => id t =? i) catalog).

(** The search returns the whole catalogue, whatever the query. *)
Definition search (catalog : list Track) (query : string) (w : list Track)
    : option (list Track) := Some catalog.

(** [session.parse_track] raises on every entry, so the collector builds
    each track from the raw fields. *)
Definition parse_track (td : track_data) : option (option Track) := None.

(** A listing given page by page; a request past the last page raises. *)
Definition pages (l : list (list (option track_data))) (off : Z) : response :=
  match nth_error l (Z.to_nat (off / limit)) with
  | Some p => Page p
  | None => Failed
  end.

Definition entry (i : Z) : option track_data :=
  Some {| td_id := Some i; td_title := Some "Song"%string; td_name := None;
          td_artist := None; td_album := None;
          td_audioQuality := Some "LOW"%string; td_audio_quality := None |}.

(** An empty page, a page with one ghost entry, an empty page, a page with
    two tracks, then two empty pages. *)
Definition gappy : Z -> response :=
  pages [ []; [None]; []; [entry 7; entry 8]; []; []; [entry 9] ].

(** A catalogue for the search: the track already held, two lossless
    entries of the same song, and a better-sounding entry of another song
    whose title merely contains the first. *)
Definition held : Track :=
  track 10 "Eagles" "Hotel California (Remastered 2013)" "Hotel California" "HIGH".

Definition catalog : list Track :=
  [ held;
    track 21 "Eagles" "Hotel California Dreaming" "Covers" "HI_RES_LOSSLESS";
    track 22 "EAGLES" "Hotel California" "Hotel California" "LOSSLESS";
    track 23 "Eagles" "Hotel California [Live]" "Hell Freezes Over" "LOSSLESS";
    track 24 "Eagles" "Hotel California" "Greatest Hits" "LOW" ].

(** A library of more than fifty thousand favourites, served a hundred
    entries to a page with identifiers 1, 2, 3, ... in order; the very
    first entry is a ghost. *)
Fixpoint zrange (b : Z) (n : nat) : list Z :=
  match n with
  | O => []
  | S n' => b :: zrange (b + 1) n'
  end.

Definition ragged (off : Z) : response :=
  if off =? 0 then Page (None :: map entry (zrange 2 99))
  else Page (map entry (zrange (off + 1) 100)).

End Demo.

(** A candidate names the same song as a track when the normalised artists
    are equal and the normalised titles are equal. *)
Definition artist_name (t : Track) : string :=
  match artist t with Some a => a | None => ""%string end.

Definition title_of (t : Track) : string := or_str (name t) "".

Definition same_song (track candidate : Track) : Prop :=
  normalize (artist_name candidate) = normalize (artist_name track) /\
  normalize (title_of candidate) = normalize (title_of track).

(** A track the round of the cleaner can print: its label,
    [f"{track.artist.name} - {track.name}" if track.artist else track.name],
    is a text when the track has an artist or a name, and [t_label[:48]]
    raises when it has neither. *)
Definition labelled (t : Track) : Prop := artist t <> None \/ name t <> None.

(** ** What a round of the cleaner is to remove

    [total = sum(len(v) - 1 for v in duplicates.values())], the copies
    [group[1:]] of every group, and the tracks that are left once each of
    them has been removed by its identifier. *)
Definition total_to_remove (duplicates : list (group_key * list Track)) : nat :=
  list_sum (map (fun kv => (length (snd kv) - 1)%nat) duplicates).

Definition extras_of (tracks : list Track) : list Track :=
  flat_map (fun kv => tl (snd kv)) (find_duplicates tracks).

Definition survivors (tracks : list Track) : list Track :=
  List.filter
    (fun t => negb (existsb (fun e => id e =? id t) (extras_of tracks)))
    tracks.

(** ** Counting the requests of the upgrader, and the order of its preview *)

Definition is_search (c : call) : bool :=
  match c with Search _ => true | _ => false end.
Definition is_add (c : call) : bool :=
  match c with Add _ => true | _ => false end.
Definition is_remove (c : call) : bool :=
  match c with Remove _ => true | _ => false end.

Definition count_calls (p : call -> bool) (cs : list call) : nat :=
  length (List.filter p cs).

Definition is_top (t : Track) : bool := TOP_QUALITIES (get_quality t).

(** [next((k for k, v in QUALITY_LABEL.items() if v == label), "")]: the
    quality a label of the preview stands for. *)
Definition label_tier (label : string) : string :=
  if String.eqb label "Hi-Res Lossless" then "HI_RES_LOSSLESS"
  else if String.eqb label "Hi-Res (MQA)" then "HI_RES"
  else if String.eqb label "Lossless (FLAC)" then "LOSSLESS"
  else if String.eqb label "High (320kbps)" then "HIGH"
  else if String.eqb label "Low (96kbps)" then "LOW"
  else "".

(** The key [main] of the upgrader sorts the lines of the quality
    distribution by. *)
Definition distribution_key (label : string) : Z :=
  - QUALITY_RANK (label_tier label).

(** ** What the collector has read

    The entries of the page at an offset (none when the request raises),
    the entries of the pages at offsets 0, [limit], ..., [limit * n], the
    ghosts among entries, and the agreement between the identifiers seen
    and the tracks collected. *)
Definition items_at (request : Z -> response) (off : Z) : list (option track_data) :=
  match request off with
  | Page items => items
  | Failed => []
  end.

Definition pages_upto (request : Z -> response) (n : nat) : list (option track_data) :=
  flat_map (fun j => items_at request (limit * Z.of_nat j)) (seq 0 (S n)).

Definition is_ghost (item : option track_data) : bool :=
  match item with None => true | Some _ => false end.

Definition ids_consistent (st : collector) : Prop :=
  List.NoDup (map id (all_tracks st)) /\
  (forall i, i ∈ seen_ids st <-> In i (map id (all_tracks st))) /\
  ~ In 0 (map id (all_tracks st)).

(** What the loop has read when it asks for the page number [n]. *)
Definition has_read (request : Z -> response) (n : nat) (st : collector) : Prop :=
  offset st = limit * Z.of_nat n /\
  (skipped_unavailable st + length (List.filter is_ghost
                                      (items_at request (limit * Z.of_nat n))))%nat
    = length (List.filter is_ghost (pages_upto request n)) /\
  (length (all_tracks st) + length (List.filter is_ghost (pages_upto request n))
   + length (items_at request (limit * Z.of_nat n))
   <= length (pages_upto request n)
      + length (List.filter is_ghost (items_at request (limit * Z.of_nat n))))%nat.

(** ** The synchroniser: [sincronizar_tidal.py] *)

Module Sync.

(** [normalize] of the synchroniser: it knows no noise words, and a span in
    parentheses or brackets is dropped without leaving a space. *)
Definition normalize (text : string) : string :=
  let text := lower text in
  let text := sub false RE_PARENS "" text in
  let text := sub false RE_BRACKETS "" text in
  let text := sub false RE_SYMBOL " " text in
  Text.text (join (chars " ") (split (chars text))).

(** [needle in hay] on strings. *)
Fixpoint starts_with (p s : list ascii) : bool :=
  match p, s with
  | [], _ => true
  | _ :: _, [] => false
  | a :: p', b :: s' => Ascii.eqb a b && starts_with p' s'
  end.

Fixpoint occurs (p s : list ascii) : bool :=
  starts_with p s ||
  match s with
  | [] => false
  | _ :: s' => occurs p s'
  end.

Definition contains (needle hay : string) : bool :=
  occurs (chars needle) (chars hay).

(** The test in the loop of [find_best_match]. *)
Definition is_match (artist_norm title_norm : string) (track : Track) : bool :=
  let tidal_artist := match artist track with Some a => a | None => ""%string end in
  let tidal_title := or_str (name track) "" in
  let ta := normalize tidal_artist in
  let tt := normalize tidal_title in
  let artist_match := contains artist_norm ta || contains ta artist_norm in
  let title_match := contains title_norm tt || contains tt title_norm in
  artist_match && title_match.

Definition find_best_match (results_tracks : list Track) (artist title : string)
    : option Track :=
  let artist_norm := normalize artist in
  let title_norm := normalize title in
  find (is_match artist_norm title_norm) (firstn 10 results_tracks).

(** [search_track]: the best match among the tracks of the search, [None]
    when the search raises or returns no track. *)
Definition search_track {W : Type} (search : string -> W -> option (list Track))
    (w : W) (artist title : string) : option Track :=
  let query := (artist ++ " " ++ title)%string in
  match search query w with
  | Some (t :: ts) => find_best_match (t :: ts) artist title
  | _ => None
  end.

(** *** The local files: [get_songs_from_folder] *)

Definition AUDIO_EXTENSIONS : list string :=
  [".flac"; ".mp3"; ".wav"; ".m4a"; ".ogg"; ".aac"; ".opus"]%string.

Definition is_dot (c : ascii) : bool := Ascii.eqb c "."%char.

(** [name.rfind('.')] *)
Fixpoint rfind_dot (l : list ascii) : option nat :=
  match l with
  | [] => None
  | c :: l' =>
      match rfind_dot l' with
      | Some i => Some (S i)
      | None => if is_dot c then Some 0%nat else None
      end
  end.

(** [Path.stem] and [Path.suffix] of a file name: the name is cut at its
    last dot unless that dot opens or closes the name. *)
Definition stem_suffix (name : list ascii) : list ascii * list ascii :=
  match rfind_dot name with
  | Some i =>
      if (0 <? i)%nat && (i <? length name - 1)%nat
      then (firstn i name, skipn i name)
      else (name, [])
  | None => (name, [])
  end.

(** [s.strip()] *)
Fixpoint lstrip (l : list ascii) : list ascii :=
  match l with
  | c :: l' => if is_space c then lstrip l' else l
  | [] => []
  end.

Definition strip (l : list ascii) : list ascii := rev (lstrip (rev (lstrip l))).

(** [s.split(sep, 1)] when [sep in s]: the text before and the text after
    the first occurrence of [sep]. *)
Fixpoint split_once (sep s : list ascii) : option (list ascii * list ascii) :=
  if starts_with sep s then Some ([], skipn (length sep) s)
  else match s with
       | [] => None
       | c :: s' =>
           match split_once sep s' with
           | Some (a, b) => Some (c :: a, b)
           | None => None
           end
       end.

(** What the loop over the files of a folder makes of a file name. *)
Inductive file_kind : Type :=
| NotAudio                                  (* [continue] *)
| BadFormat (filename : string)             (* [skipped_format.append] *)
| Song (artist title filename : string).    (* [songs.append] *)

Definition classify (filename : string) : file_kind :=
  let '(stem, suffix) := stem_suffix (chars filename) in
  if negb (existsb (String.eqb (lower (text suffix))) AUDIO_EXTENSIONS)
  then NotAudio
  else match split_once (chars " - ") stem with
       | Some (a, t) => Song (text (strip a)) (text (strip t)) filename
       | None => BadFormat filename
       end.

(** An entry of the music folder: its name, whether it is a folder, and
    the names of what it holds. *)
Record entry : Type := mkEntry {
  entry_name : string;
  is_dir : bool;
  entry_files : list string
}.

(** [sorted] orders the paths of one folder by their names, and names by
    their code points. *)
Definition name_key (s : string) : list Z :=
  map (fun c => Z.of_N (code c)) (chars s).

Definition songs_of (e : entry) : list (string * string * string) :=
  if negb (is_dir e) then []
  else if String.eqb (entry_name e) "Sin clasificar"
          || String.eqb (entry_name e) "__pycache__" then []
  else flat_map (fun f => match classify f with
                          | Song a t n => [(a, t, n)]
                          | _ => []
                          end)
                (sort_by name_key (entry_files e)).

(** [music_dir] is [None] when the path does not exist. *)
Definition get_songs_from_folder (music_dir : option (list entry))
    : list (string * string * string) :=
  match music_dir with
  | None => []
  | Some entries =>
      flat_map songs_of (sort_by (fun e => name_key (entry_name e)) entries)
  end.

(** *** The loop of [main] over the songs *)

(** [f"{track.artist.name} - {track.name}" if track.artist else track.name]:
    a text, or [None] when the track has neither artist nor name; in the
    formatted text a missing name reads "None". *)
Definition tidal_label (track : Track) : option string :=
  match artist track with
  | Some a =>
      Some (a ++ " - " ++ match name track with Some n => n | None => "None" end)%string
  | None => name track
  end.

(** The state of the loop.  [existing_ids] holds the integer identifiers of
    the set of the script; a [None] that set may hold as well equals the
    identifier of no track. *)
Record sync (W : Type) : Type := mkSync {
  favourites : W;
  existing_ids : gset Z;
  added : list (string * Track);      (* the label and the track added *)
  not_found : list string;
  already_exists : list string;
  sync_errors : list string
}.

Arguments favourites {W} _.
Arguments existing_ids {W} _.
Arguments added {W} _.
Arguments not_found {W} _.
Arguments already_exists {W} _.
Arguments sync_errors {W} _.
Arguments mkSync {W} _ _ _ _ _ _.

Section Songs.

Variable W : Type.
Variable search : string -> W -> option (list Track).
Variable add_track : Z -> W -> option W.

(** The body of [for i, (artist, title, filename) in enumerate(songs, 1)]. *)
Definition sync_song (st : sync W) (song : string * string * string) : sync W :=
  let '(artist, title, filename) := song in
  let label := (artist ++ " - " ++ title)%string in
  match search_track search (favourites st) artist title with
  | None =>
      {| favourites := favourites st; existing_ids := existing_ids st;
         added := added st; not_found := not_found st ++ [label];
         already_exists := already_exists st; sync_errors := sync_errors st |}
  | Some track =>
      if bool_decide (id track ∈ existing_ids st) then
        {| favourites := favourites st; existing_ids := existing_ids st;
           added := added st; not_found := not_found st;
           already_exists := already_exists st ++ [label];
           sync_errors := sync_errors st |}
      else
        match add_track (id track) (favourites st) with
        | Some w' =>
            match tidal_label track with
            | None =>
                (* [tidal_label[:45]] raises, after [add_track] and
                   [existing_ids.add] *)
                {| favourites := w';
                   existing_ids := {[ id track ]} ∪ existing_ids st;
                   added := added st; not_found := not_found st;
                   already_exists := already_exists st;
                   sync_errors := sync_errors st ++ [label] |}
            | Some _ =>
                {| favourites := w';
                   existing_ids := {[ id track ]} ∪ existing_ids st;
                   added := added st ++ [(label, track)];
                   not_found := not_found st;
                   already_exists := already_exists st;
                   sync_errors := sync_errors st |}
            end
        | None =>
            {| favourites := favourites st; existing_ids := existing_ids st;
               added := added st; not_found := not_found st;
               already_exists := already_exists st;
               sync_errors := sync_errors st ++ [label] |}
        end
  end.

Definition sync_songs (songs : list (string * string * string)) (st : sync W)
    : sync W :=
  fold_left sync_song songs st.

End Songs.

End Sync.

(** A text of ASCII characters: on it the character classes and the case
    mappings above are those of Python. *)
Definition is_ascii (s : string) : bool :=
  forallb (fun c => (code c <? 128)%N) (chars s).

(** The shape [normalize] leaves a text in: words of lower-case letters
    and digits, one space between two words. *)
Definition is_key_char (c : ascii) : bool := is_lower c || is_digit c.

Definition is_key_word (w : list ascii) : Prop :=
  w <> [] /\ Forall (fun c => is_key_char c = true) w.

Definition in_key_form (s : string) : Prop :=
  exists ws, Forall is_key_word ws /\ chars s = join (chars " ") ws.

(** The last dot of a name, read off the positions of its dots. *)
Fixpoint rfind_flag (l : list bool) : option nat :=
  match l with
  | [] => None
  | b :: l' =>
      match rfind_flag l' with
      | Some i => Some (S i)
      | None => if b then Some 0%nat else None
      end
  end.

(** The tracks a run of the synchroniser has added and the other songs it
    has dealt with. *)
Definition dealt_with {W : Type} (st : Sync.sync W) : nat :=
  (length (Sync.added st) + length (Sync.not_found st)
   + length (Sync.already_exists st) + length (Sync.sync_errors st))%nat.

(** What a pass over some songs adds to [added]. *)
Definition adds_fresh {W : Type} (st st' : Sync.sync W) : Prop :=
  exists new,
    Sync.added st' = Sync.added st ++ new /\
    List.NoDup (map (fun e => id (snd e)) new) /\
    (forall e, In e new ->
       (id (snd e) ∉ Sync.existing_ids st) /\
       (id (snd e) ∈ Sync.existing_ids st')) /\
    (forall i, i ∈ Sync.existing_ids st -> i ∈ Sync.existing_ids st').

Module Sample.

(** A parser that reads the identifier, the title and the quality. *)
Definition parse_fields (td : track_data) : option (option Track) :=
  match td_id td with
  | Some i =>
      Some (Some {| id := i; name := td_title td; artist := None; album := None;
                    audio_quality := td_audioQuality td |})
  | None => Some None
  end.

(** A listing whose second page repeats the first. *)
Definition repeating : Z -> response :=
  Demo.pages [ [Demo.entry 1; Demo.entry 2; None];
               [Demo.entry 2; Demo.entry 1; Demo.entry 3];
               []; [] ].

Definition songs : list (string * string * string) :=
  [ ("Eagles", "Hotel California", "Eagles - Hotel California.flac");
    ("Eagles", "Hotel California", "Eagles - Hotel California.mp3");
    ("Eagles", "Desperado", "Eagles - Desperado.mp3");
    ("Nobody", "Nothing", "Nobody - Nothing.mp3") ]%string.

End Sample.

(** The balance of the books of the upgrader between a state [st] and the
    state [st'] reached after the loop has gone over [tracks]. *)
Definition balanced {W : Type} (tracks : list Track) (st st' : upgrader W) : Prop :=
  skipped_top st' = (skipped_top st + length (List.filter is_top tracks))%nat /\
  (count_calls is_search (calls st') + length (List.filter is_top tracks))%nat
    = (count_calls is_search (calls st) + length tracks)%nat /\
  (improved st' + length (log_entries st))%nat
    = (improved st + length (log_entries st'))%nat /\
  (count_calls is_add (calls st') + improved st + length (errors st))%nat
    = (count_calls is_add (calls st) + improved st' + length (errors st'))%nat /\
  (count_calls is_add (calls st') + count_calls is_search (calls st)
   <= count_calls is_add (calls st) + count_calls is_search (calls st'))%nat /\
  (count_calls is_remove (calls st') + count_calls is_add (calls st)
   <= count_calls is_remove (calls st) + count_calls is_add (calls st'))%nat.

Module SampleRuns.

(** Where the collection of [Sample.repeating] ends. *)
Definition song (i : Z) : Track :=
  {| id := i; name := Some "Song"%string; artist := None; album := None;
     audio_quality := Some "LOW"%string |}.

Definition repeating_end : collector :=
  {| all_tracks := [song 1; song 2; song 3];
     seen_ids := {[ 3 ]} ∪ ({[ 2 ]} ∪ ({[ 1 ]} ∪ ∅));
     skipped_unavailable := 1;
     offset := 300;
     consecutive_empty := 2 |}.

(** A listing of two pages; the request for a third raises.  The state
    of the collector after the first page and the state it ends in. *)
Definition breaking : Z -> response :=
  Demo.pages [ [Demo.entry 1; Demo.entry 2]; [None; Demo.entry 3] ].

Definition after_first_page : collector :=
  {| all_tracks := [song 1; song 2];
     seen_ids := {[ 2 ]} ∪ ({[ 1 ]} ∪ ∅);
     skipped_unavailable := 0;
     offset := 100;
     consecutive_empty := 0 |}.

Definition breaking_end : collector :=
  {| all_tracks := [song 1; song 2; song 3];
     seen_ids := {[ 3 ]} ∪ ({[ 2 ]} ∪ ({[ 1 ]} ∪ ∅));
     skipped_unavailable := 1;
     offset := 200;
     consecutive_empty := 0 |}.

(** A music folder: two artist folders, a folder that is passed over and a
    stray file. *)
Definition music : list Sync.entry :=
  [ Sync.mkEntry "b" true ["x - y.mp3"; "A - B.flac"; "bad.mp3"; "n.txt"];
    Sync.mkEntry "Sin clasificar" true ["q - r.mp3"];
    Sync.mkEntry "a.mp3" false [];
    Sync.mkEntry "B" true ["z - z.ogg"] ]%string.

End SampleRuns.

Module SampleService.

(** A catalogue whose first answer to any query is a track without artist
    and without name, and a list of favourites that takes every track. *)
Definition nameless : Track :=
  {| id := 7; name := None; artist := None; album := None;
     audio_quality := Some "LOSSLESS"%string |}.

Definition search (query : string) (w : list Z) : option (list Track) :=
  Some [nameless; Demo.held].

Definition add_track (i : Z) (w : list Z) : option (list Z) := Some (i :: w).

Definition start : Sync.sync (list Z) :=
  {| Sync.favourites := [20]; Sync.existing_ids := {[ 20 ]};
     Sync.added := []; Sync.not_found := []; Sync.already_exists := [];
     Sync.sync_errors := [] |}.

End SampleService.

Module Versions.

(** Four entries of one song: three of one tier that differ in the
    remaster marker and its year, and one of a higher tier without any
    marker, with the largest identifier and its quality in small letters;
    and an entry of another song. *)
Definition plain : Track :=
  Demo.track 30 "Eagles" "Hotel California" "Hotel California" "HIGH".
Definition remaster_1999 : Track :=
  Demo.track 31 "Eagles" "Hotel California (Remastered 1999)" "Hotel California" "HIGH".
Definition remaster_2013 : Track :=
  Demo.track 32 "Eagles" "Hotel California" "Hotel California (2013 Remaster)" "HIGH".
Definition lossless : Track :=
  Demo.track 34 "EAGLES" "Hotel California" "Greatest Hits" "lossless".

Definition favourites : list Track :=
  [ plain; remaster_1999;
    Demo.track 33 "Eagles" "Desperado" "Desperado" "LOSSLESS";
    remaster_2013; lossless ].

End Versions.

Module Untitled.

(** Favourites of which two carry neither artist nor title, and a parser
    that reads no artist: the two come out of it without a label. *)
Definition bare (i : Z) (title : option string) : Track :=
  {| id := i; name := title; artist := None; album := None;
     audio_quality := Some "LOW"%string |}.

Definition favourites : list Track :=
  [ bare 1 (Some "Song"); bare 2 (Some "Song"); bare 3 None; bare 4 None ]%string.

Definition start : cleaner (list Track) :=
  {| world := favourites; all_removed := []; all_errors := [] |}.

(** The state in which the exception leaves the first round. *)
Definition left_at : cleaner (list Track) :=
  {| world := [ bare 1 (Some "Song"); bare 3 None; bare 4 None ]%string;
     all_removed := [ mkRemoval 1 (bare 2 (Some "Song"%string))
                                  (bare 1 (Some "Song"%string)) ];
     all_errors := [] |}.

End Untitled.

(** * Properties *)

Arguments normalize : simpl never.
Arguments track_key : simpl never.
Arguments sort_key : simpl never.
Arguments version_priority : simpl never.
Arguments quality_rank : simpl never.
Arguments get_quality : simpl never.
Arguments _tag : simpl never.
Arguments found : simpl never.
Arguments search : simpl never.
Arguments sub : simpl never.

(** ** Tuple comparison *)

Lemma tuple_lt_irrefl (a : list Z) : tuple_lt a a = false.
Proof.
  induction a as [|x a IH]; simpl; [reflexivity|].
  rewrite Z.ltb_irrefl, Z.eqb_refl. exact IH.
Qed.

Lemma tuple_lt_trans (a b c : list Z) :
  tuple_lt a b = true -> tuple_lt b c = true -> tuple_lt a c = true.
Proof.
  revert b c. induction a as [|x a IH]; intros [|y b] [|z c]; simpl;
    try congruence.
  destruct (Z.ltb_spec x y), (Z.ltb_spec y z), (Z.ltb_spec x z);
    try reflexivity; try lia;
    destruct (Z.eqb_spec x y), (Z.eqb_spec y z), (Z.eqb_spec x z);
    try congruence; try lia.
  apply IH.
Qed.

Lemma tuple_lt_total (a b : list Z) :
  tuple_lt a b = false -> tuple_lt b a = false -> a = b.
Proof.
  revert b. induction a as [|x a IH]; intros [|y b]; simpl; try congruence.
  destruct (Z.ltb_spec x y), (Z.ltb_spec y x); try congruence; try lia.
  assert (x = y) by lia. subst y. rewrite Z.eqb_refl.
  intros H1 H2. f_equal. now apply IH.
Qed.

Lemma tuple_lt_asym (a b : list Z) :
  tuple_lt a b = true -> tuple_lt b a = false.
Proof.
  intros H. destruct (tuple_lt b a) eqn:E; [|reflexivity].
  pose proof (tuple_lt_trans _ _ _ H E) as F.
  rewrite tuple_lt_irrefl in F. discriminate.
Qed.

Lemma tuple_le_trans (a b c : list Z) :
  tuple_lt b a = false -> tuple_lt c b = false -> tuple_lt c a = false.
Proof.
  intros H1 H2. destruct (tuple_lt c a) eqn:E; [|reflexivity].
  destruct (tuple_lt a b) eqn:F.
  - rewrite (tuple_lt_trans _ _ _ E F) in H2. discriminate.
  - rewrite (tuple_lt_total _ _ F H1) in E. congruence.
Qed.

(** Negating every component but the last turns "smallest key first" into
    "largest ranking first, then smallest last component". *)
Lemma tuple_lt_negated (a b : list Z) (i j : Z) :
  length a = length b ->
  tuple_lt (map Z.opp a ++ [i]) (map Z.opp b ++ [j]) = true <->
  tuple_lt b a = true \/ (a = b /\ i < j).
Proof.
  revert b. induction a as [|x a IH]; intros [|y b]; simpl; try discriminate.
  - intros _. destruct (Z.ltb_spec i j).
    + split; auto.
    + destruct (Z.eqb_spec i j); split; try discriminate;
        intros [?|[_ ?]]; try discriminate; lia.
  - intros Hlen. injection Hlen as Hlen.
    destruct (Z.lt_trichotomy x y) as [Hxy|[Hxy|Hxy]].
    + replace (- x <? - y) with false by (symmetry; apply Z.ltb_ge; lia).
      replace (- x =? - y) with false by (symmetry; apply Z.eqb_neq; lia).
      replace (y <? x) with false by (symmetry; apply Z.ltb_ge; lia).
      replace (y =? x) with false by (symmetry; apply Z.eqb_neq; lia).
      split; [discriminate|]. intros [?|[E _]]; [discriminate|].
      injection E as E _. lia.
    + subst y. rewrite !Z.ltb_irrefl, !Z.eqb_refl, (IH b Hlen). split.
      * intros [?|[-> ?]]; auto.
      * intros [?|[E ?]]; auto. injection E as ->. auto.
    + replace (- x <? - y) with true by (symmetry; apply Z.ltb_lt; lia).
      replace (y <? x) with true by (symmetry; apply Z.ltb_lt; lia).
      split; auto.
Qed.

(** ** The stable sort *)

Section SortFacts.

Context {A : Type}.
Variable key : A -> list Z.

Lemma insert_sorted_perm (x : A) (l : list A) :
  Permutation (insert_sorted key x l) (x :: l).
Proof.
  induction l as [|y l IH]; simpl; [reflexivity|].
  destruct (tuple_lt (key y) (key x)); [|reflexivity].
  rewrite IH. apply perm_swap.
Qed.

Lemma sort_by_perm (l : list A) : Permutation (sort_by key l) l.
Proof.
  induction l as [|x l IH]; simpl; [reflexivity|].
  rewrite insert_sorted_perm. now constructor.
Qed.

Lemma insert_sorted_In (x y : A) (l : list A) :
  In y (insert_sorted key x l) <-> y = x \/ In y l.
Proof.
  split; intros H.
  - apply (Permutation_in _ (insert_sorted_perm x l)) in H.
    destruct H; auto.
  - apply (Permutation_in _ (Permutation_sym (insert_sorted_perm x l))).
    destruct H; [left|right]; auto.
Qed.

Lemma insert_sorted_ok (x : A) (l : list A) :
  StronglySorted (key_le key) l -> StronglySorted (key_le key) (insert_sorted key x l).
Proof.
  induction 1 as [|y l Hs IH Hy]; simpl.
  - repeat constructor.
  - destruct (tuple_lt (key y) (key x)) eqn:E.
    + constructor; [exact IH|].
      apply List.Forall_forall. intros z Hz.
      apply insert_sorted_In in Hz. destruct Hz as [->|Hz].
      * unfold key_le. now apply tuple_lt_asym.
      * rewrite List.Forall_forall in Hy. now apply Hy.
    + constructor; [now constructor|].
      constructor; [exact E|].
      rewrite List.Forall_forall in Hy |- *. intros z Hz.
      unfold key_le. apply tuple_le_trans with (b := key y); auto.
      now apply Hy.
Qed.

Lemma sort_by_sorted (l : list A) : StronglySorted (key_le key) (sort_by key l).
Proof.
  induction l as [|x l IH]; simpl; [constructor|].
  now apply insert_sorted_ok.
Qed.

(** The head of the sorted list has the smallest key. *)
Lemma sort_by_head (l : list A) (w : A) (rest : list A) :
  sort_by key l = w :: rest -> forall t, In t rest -> key_le key w t.
Proof.
  intros E t Ht. pose proof (sort_by_sorted l) as Hs.
  rewrite E in Hs. inversion Hs as [|? ? _ Hall]; subst.
  rewrite List.Forall_forall in Hall. now apply Hall.
Qed.

(** Two sorted arrangements of the same elements agree when no two
    elements share a key. *)
Lemma sorted_unique (l1 l2 : list A) :
  (forall x y, In x l1 -> In y l1 -> key x = key y -> x = y) ->
  StronglySorted (key_le key) l1 -> StronglySorted (key_le key) l2 ->
  Permutation l1 l2 -> l1 = l2.
Proof.
  revert l2. induction l1 as [|a l1 IH]; intros l2 Hinj H1 H2 HP.
  - apply Permutation_nil in HP. now subst.
  - destruct l2 as [|b l2].
    + apply Permutation_sym, Permutation_nil in HP. discriminate.
    + inversion H1 as [|? ? H1' Ha]; subst.
      inversion H2 as [|? ? H2' Hb]; subst.
      rewrite List.Forall_forall in Ha, Hb.
      assert (a = b) as <-.
      { assert (In a (b :: l2)) as Ia
          by (apply (Permutation_in _ HP); now left).
        assert (In b (a :: l1)) as Ib
          by (apply (Permutation_in _ (Permutation_sym HP)); now left).
        destruct Ia as [->|Ia]; [reflexivity|].
        destruct Ib as [->|Ib]; [reflexivity|].
        apply Hinj; [now left|now right|].
        symmetry. apply tuple_lt_total; [apply (Ha _ Ib)|apply (Hb _ Ia)]. }
      f_equal. apply IH; auto.
      * intros x y Hx Hy. apply Hinj; now right.
      * now apply Permutation_cons_inv in HP.
Qed.

Lemma sort_by_permutation_invariant (l1 l2 : list A) :
  (forall x y, In x l1 -> In y l1 -> key x = key y -> x = y) ->
  Permutation l1 l2 -> sort_by key l1 = sort_by key l2.
Proof.
  intros Hinj HP. apply sorted_unique.
  - intros x y Hx Hy. apply Hinj;
      apply (Permutation_in _ (sort_by_perm l1)); assumption.
  - apply sort_by_sorted.
  - apply sort_by_sorted.
  - rewrite (sort_by_perm l1), (sort_by_perm l2). exact HP.
Qed.

End SortFacts.

(** ** The ranking of the code and the ranking of the specification *)

(** *** Alternatives and options in a pattern *)

(** A literal text matches in one way: its continuation runs once. *)
Lemma lits_or_else (ic : bool) (l : list ascii) (k1 k2 : cont)
    (prev : option ascii) (s : list ascii) (n : nat) :
  rmatch ic (lits l) prev s n (fun p s' n' => or_else (k1 p s' n') (k2 p s' n'))
  = or_else (rmatch ic (lits l) prev s n k1) (rmatch ic (lits l) prev s n k2).
Proof.
  revert prev s n. induction l as [|c l IH]; intros prev s n; cbn [lits rmatch].
  - reflexivity.
  - destruct s as [|x s']; [reflexivity|].
    destruct (lit_eq ic c x); [apply IH|reflexivity].
Qed.

Lemma lits_app (ic : bool) (l1 l2 : list ascii) (k : cont)
    (prev : option ascii) (s : list ascii) (n : nat) :
  rmatch ic (lits (l1 ++ l2)) prev s n k
  = rmatch ic (Cat (lits l1) (lits l2)) prev s n k.
Proof.
  revert prev s n. induction l1 as [|c l1 IH]; intros prev s n; cbn [app lits rmatch].
  - reflexivity.
  - destruct s as [|x s']; [reflexivity|].
    destruct (lit_eq ic c x); [|reflexivity].
    rewrite IH. reflexivity.
Qed.

(** [\b(?:a|b)\b] matches at a position when [\ba\b] or [\bb\b] does. *)
Lemma match_here_or (ic : bool) (a b : regex) (prev : option ascii) (s : list ascii) :
  match_here ic (cat_all [Bound; Or a b; Bound]) prev s
  = or_else (match_here ic (cat_all [Bound; a; Bound]) prev s)
            (match_here ic (cat_all [Bound; b; Bound]) prev s).
Proof.
  unfold match_here. cbn [cat_all rmatch].
  destruct (at_boundary prev s); reflexivity.
Qed.

(** [\bl1(?:l2)?\b] matches at a position when [\bl1l2\b] or [\bl1\b]
    does. *)
Lemma match_here_maybe (ic : bool) (l1 l2 : list ascii)
    (prev : option ascii) (s : list ascii) :
  match_here ic (cat_all [Bound; Cat (lits l1) (Maybe (lits l2)); Bound]) prev s
  = or_else (match_here ic (cat_all [Bound; lits (l1 ++ l2); Bound]) prev s)
            (match_here ic (cat_all [Bound; lits l1; Bound]) prev s).
Proof.
  unfold match_here. cbn [cat_all rmatch].
  destruct (at_boundary prev s); [|reflexivity].
  rewrite lits_app. cbn [rmatch].
  rewrite <- lits_or_else. reflexivity.
Qed.

Lemma search_from_or_else (ic : bool) (r r1 r2 : regex) :
  (forall prev s, match_here ic r prev s
                  = or_else (match_here ic r1 prev s) (match_here ic r2 prev s)) ->
  forall prev s,
    is_some (search_from ic r prev s)
    = is_some (search_from ic r1 prev s) || is_some (search_from ic r2 prev s).
Proof.
  intros H prev s. revert prev.
  induction s as [|x s IH]; intros prev; cbn [search_from]; rewrite H.
  - destruct (match_here ic r1 prev []), (match_here ic r2 prev []); reflexivity.
  - destruct (match_here ic r1 prev (x :: s)), (match_here ic r2 prev (x :: s));
      cbn [or_else is_some orb]; try reflexivity.
    + now rewrite orb_true_r.
    + apply IH.
Qed.

Lemma found_search_from (ic : bool) (r : regex) (s : string) :
  found ic r s = is_some (search_from ic r None (chars s)).
Proof.
  unfold found, search. destruct (search_from ic r None (chars s)); reflexivity.
Qed.

(** *** The scores of the code are the scores of the specification *)

Lemma tag_title_and_album (t : Track) : _tag t = title_and_album t.
Proof.
  unfold _tag, title_and_album, or_str.
  destruct (name t) as [n|], (album t) as [a|]; try reflexivity;
    repeat match goal with
           | |- context [String.eqb ?x ""] => destruct (String.eqb_spec x ""); subst
           end; reflexivity.
Qed.

(** The pattern of the code finds a remaster marker exactly when the text
    says "remaster", "remastered" or "digital remaster". *)
Lemma remaster_marker_words (t : Track) :
  found true _RE_REMASTER (_tag t) = remaster_marker t.
Proof.
  unfold remaster_marker, says. rewrite tag_title_and_album, !found_search_from.
  unfold _RE_REMASTER, word.
  rewrite (search_from_or_else true _ _ _ (match_here_or true _ _)).
  unfold str at 1 2.
  rewrite (search_from_or_else true _ _ _
             (match_here_maybe true (chars "remaster") (chars "ed"))).
  rewrite (orb_comm (is_some (search_from true
             (cat_all [Bound; lits (chars "remaster" ++ chars "ed"); Bound]) None _))).
  reflexivity.
Qed.

Lemma quality_rank_tier (t : Track) : quality_rank t = tier t.
Proof.
  unfold quality_rank, get_quality, tier.
  destruct (audio_quality t); reflexivity.
Qed.

Lemma version_priority_scores (t : Track) :
  version_priority t =
  (remaster_score t, explicit_score t, stereo_score t, album_score t, id t).
Proof.
  unfold version_priority, _remaster_year, remaster_score, first_year,
    explicit_score, stereo_score, album_score.
  rewrite remaster_marker_words. unfold says. rewrite tag_title_and_album.
  change _RE_YEAR with four_digit_year.
  change _RE_EXPLICIT with (word "explicit"). change _RE_CLEAN with (word "clean").
  change _RE_STEREO with (word "stereo"). change _RE_MONO with (word "mono").
  change _RE_ALBUM_VER with (word "album version").
  change _RE_SINGLE_VER with (word "single version").
  destruct (remaster_marker t),
    (search false four_digit_year (title_and_album t)),
    (found true (word "explicit") (title_and_album t)),
    (found true (word "clean") (title_and_album t));
    reflexivity.
Qed.

Lemma sort_key_ranking (t : Track) :
  sort_key t = map Z.opp (ranking t) ++ [id t].
Proof.
  unfold sort_key. rewrite version_priority_scores, quality_rank_tier. reflexivity.
Qed.

Lemma ranks_before_preferred (a b : Track) :
  ranks_before a b <-> preferred a b.
Proof.
  unfold ranks_before, preferred. rewrite !sort_key_ranking.
  apply tuple_lt_negated. reflexivity.
Qed.

Lemma key_le_preferred_or_tied (a b : Track) :
  key_le sort_key a b -> preferred_or_tied a b.
Proof.
  unfold key_le. intros H.
  assert (~ preferred b a) as N
    by (rewrite <- ranks_before_preferred; unfold ranks_before; congruence).
  unfold preferred in N. unfold preferred_or_tied.
  destruct (tuple_lt (ranking b) (ranking a)) eqn:E1; [now left|].
  destruct (tuple_lt (ranking a) (ranking b)) eqn:E2; [tauto|].
  right. pose proof (tuple_lt_total _ _ E2 E1) as E. split; [exact E|].
  destruct (Z.le_gt_cases (id a) (id b)); [assumption|].
  exfalso. apply N. right. split; [congruence|lia].
Qed.

Lemma sort_key_injective (a b : Track) :
  sort_key a = sort_key b -> id a = id b.
Proof.
  rewrite !sort_key_ranking. intros E.
  apply (f_equal (@rev Z)) in E. rewrite !rev_app_distr in E.
  simpl in E. now injection E.
Qed.

(** ** Grouping *)

Lemma key_eqb_eq (a b : group_key) : key_eqb a b = true <-> a = b.
Proof.
  destruct a as [a1 a2], b as [b1 b2]. unfold key_eqb. simpl.
  rewrite andb_true_iff, !String.eqb_eq. split.
  - intros [-> ->]. reflexivity.
  - intros E. injection E as -> ->. auto.
Qed.

Lemma key_eqb_refl (a : group_key) : key_eqb a a = true.
Proof. now apply key_eqb_eq. Qed.

Lemma key_eqb_sym (a b : group_key) : key_eqb a b = key_eqb b a.
Proof.
  destruct (key_eqb a b) eqn:E1, (key_eqb b a) eqn:E2; try reflexivity.
  - apply key_eqb_eq in E1. subst. now rewrite key_eqb_refl in E2.
  - apply key_eqb_eq in E2. subst. now rewrite key_eqb_refl in E1.
Qed.

Lemma group_append_lookup (k k' : group_key) (t : Track)
    (g : list (group_key * list Track)) :
  lookup_group k' (group_append k t g) =
  if key_eqb k' k
  then Some (match lookup_group k g with Some v => v ++ [t] | None => [t] end)
  else lookup_group k' g.
Proof.
  induction g as [|[k0 v] g IH]; simpl; [reflexivity|].
  destruct (key_eqb k k0) eqn:E; simpl.
  - apply key_eqb_eq in E. subst k0.
    destruct (key_eqb k' k); reflexivity.
  - rewrite IH. destruct (key_eqb k' k0) eqn:E0; [|reflexivity].
    apply key_eqb_eq in E0. subst k0.
    now rewrite key_eqb_sym, E.
Qed.

Lemma group_append_keys (k k' : group_key) (t : Track)
    (g : list (group_key * list Track)) :
  In k' (map fst (group_append k t g)) <-> k' = k \/ In k' (map fst g).
Proof.
  induction g as [|[k0 v] g IH]; simpl; [intuition|].
  destruct (key_eqb k k0) eqn:E; simpl.
  - apply key_eqb_eq in E. subst k0. intuition.
  - rewrite IH. intuition.
Qed.

Lemma group_append_NoDup (k : group_key) (t : Track)
    (g : list (group_key * list Track)) :
  List.NoDup (map fst g) -> List.NoDup (map fst (group_append k t g)).
Proof.
  induction g as [|[k0 v] g IH]; simpl; intros H.
  - constructor; [intros []|constructor].
  - inversion H as [|? ? Hn Hd]; subst.
    destruct (key_eqb k k0) eqn:E; simpl.
    + now constructor.
    + constructor; [|now apply IH].
      rewrite group_append_keys. intros [->|Hin]; [|contradiction].
      now rewrite key_eqb_refl in E.
Qed.

Lemma lookup_group_In (k : group_key) (v : list Track)
    (g : list (group_key * list Track)) :
  List.NoDup (map fst g) -> (In (k, v) g <-> lookup_group k g = Some v).
Proof.
  induction g as [|[k0 v0] g IH]; simpl; intros H.
  - split; [intros []|discriminate].
  - inversion H as [|? ? Hn Hd]; subst.
    destruct (key_eqb k k0) eqn:E.
    + apply key_eqb_eq in E. subst k0. split.
      * intros [E|Hin]; [now injection E as ->|].
        exfalso. apply Hn. change k with (fst (k, v)). now apply in_map.
      * intros E. injection E as ->. now left.
    + rewrite <- (IH Hd). split; [|now right].
      intros [E'|Hin]; [|exact Hin].
      injection E' as -> ->. now rewrite key_eqb_refl in E.
Qed.

Lemma same_key_app (k : group_key) (l1 l2 : list Track) :
  same_key k (l1 ++ l2) = same_key k l1 ++ same_key k l2.
Proof. apply List.filter_app. Qed.

Lemma same_key_single (k : group_key) (t : Track) :
  same_key k [t] = if key_eqb (track_key t) k then [t] else [].
Proof. reflexivity. Qed.

Lemma build_groups_inv (tracks done : list Track)
    (g : list (group_key * list Track)) :
  List.NoDup (map fst g) ->
  (forall k, lookup_group k g = nonempty (same_key k done)) ->
  let g' := fold_left (fun groups t => group_append (track_key t) t groups)
                      tracks g in
  List.NoDup (map fst g') /\
  (forall k, lookup_group k g' = nonempty (same_key k (done ++ tracks))).
Proof.
  revert done g. induction tracks as [|t tracks IH]; intros done g Hd Hl; simpl.
  - rewrite app_nil_r. auto.
  - replace (done ++ t :: tracks) with ((done ++ [t]) ++ tracks)
      by now rewrite <- app_assoc.
    apply IH; [now apply group_append_NoDup|].
    intros k. rewrite group_append_lookup, same_key_app, Hl.
    rewrite same_key_single, (key_eqb_sym k).
    destruct (key_eqb (track_key t) k) eqn:E.
    + apply key_eqb_eq in E. subst k.
      destruct (same_key (track_key t) done); reflexivity.
    + now rewrite app_nil_r.
Qed.

Lemma build_groups_spec (tracks : list Track) (k : group_key) (v : list Track) :
  In (k, v) (build_groups tracks) <-> v = same_key k tracks /\ v <> [].
Proof.
  destruct (build_groups_inv tracks [] []) as [Hd Hl]; simpl.
  - constructor.
  - reflexivity.
  - fold (build_groups tracks) in Hd, Hl. simpl in Hl.
    rewrite (lookup_group_In _ _ _ Hd), Hl.
    destruct (same_key k tracks) as [|x l]; simpl; split.
    + discriminate.
    + intros [-> N]. now elim N.
    + intros E. injection E as <-. split; [reflexivity|discriminate].
    + intros [-> _]. reflexivity.
Qed.

Lemma find_duplicates_spec (tracks : list Track) (k : group_key) (g : list Track) :
  In (k, g) (find_duplicates tracks) <->
  (2 <= length (same_key k tracks))%nat /\
  g = sort_by sort_key (same_key k tracks).
Proof.
  unfold find_duplicates. rewrite in_map_iff. split.
  - intros [[k0 v] [E Hin]]. simpl in E. injection E as -> <-.
    apply List.filter_In in Hin. destruct Hin as [Hin Hlen]. simpl in Hlen.
    apply build_groups_spec in Hin. destruct Hin as [-> _].
    apply Nat.ltb_lt in Hlen. split; [lia|reflexivity].
  - intros [Hlen ->]. exists (k, same_key k tracks). split; [reflexivity|].
    apply List.filter_In. split.
    + apply build_groups_spec. split; [reflexivity|].
      intros E. rewrite E in Hlen. simpl in Hlen. lia.
    + simpl. apply Nat.ltb_lt. lia.
Qed.

(** ** The keeper of a group *)

Lemma NoDup_map_injective {A B : Type} (f : A -> B) (l : list A) (a b : A) :
  List.NoDup (map f l) -> In a l -> In b l -> f a = f b -> a = b.
Proof.
  induction l as [|x l IH]; simpl; [intros _ []|].
  intros H Ha Hb E. inversion H as [|? ? Hn Hd]; subst.
  destruct Ha as [->|Ha], Hb as [->|Hb]; auto.
  - exfalso. apply Hn. rewrite E. now apply in_map.
  - exfalso. apply Hn. rewrite <- E. now apply in_map.
Qed.

Lemma preferred_or_tied_tier (a b : Track) :
  preferred_or_tied a b -> tier b <= tier a.
Proof.
  unfold preferred_or_tied, ranking. intros [H|[E _]].
  - cbn [tuple_lt] in H.
    destruct (Z.ltb_spec (tier b) (tier a)); [lia|].
    destruct (Z.eqb_spec (tier b) (tier a)); [lia|discriminate].
  - injection E as E _. lia.
Qed.

Lemma tier_of_known (t : Track) :
  (known_quality t -> 1 <= tier t <= 5) /\ (~ known_quality t -> tier t = 0).
Proof.
  unfold known_quality, tier, known_tiers.
  destruct (audio_quality t) as [q|].
  - repeat match goal with
           | |- context [String.eqb (upper q) ?s] =>
               destruct (String.eqb_spec (upper q) s) as [E|];
               [split; [lia|];
                intros N; exfalso; apply N; exists q; split; [reflexivity|];
                rewrite E; cbn [In]; tauto|]
           end.
    split; [|reflexivity].
    intros (q' & E & Hin). injection E as <-. cbn [In] in Hin.
    intuition congruence.
  - split; [|reflexivity]. intros (q & E & _). discriminate.
Qed.

(** C1: in every group of two or more tracks that share a normalised
    (artist, title) key, the sort puts first the track that is greatest
    under (quality tier, remaster score, explicit/clean, stereo/mono,
    album/single version), the smaller identifier deciding between equal
    rankings.  The tier is the rank of the audio quality and the scores are
    read from the title and the album name, as the specification words
    them; the keeper's tier is the highest of the group, and an unknown
    quality ranks below the five known tiers. *)
Theorem keeper_is_greatest (tracks : list Track) (k : group_key) :
  (2 <= length (same_key k tracks))%nat ->
  exists keeper rest,
    (forall g, In (k, g) (find_duplicates tracks) <-> g = keeper :: rest) /\
    Permutation (keeper :: rest) (same_key k tracks) /\
    (forall t, In t rest -> preferred_or_tied keeper t) /\
    (forall t, In t rest -> id t <> id keeper -> preferred keeper t) /\
    (forall t, In t rest -> tier t <= tier keeper) /\
    (forall t, (known_quality t -> 1 <= tier t <= 5) /\
               (~ known_quality t -> tier t = 0)).
Proof.
  intros Hlen.
  destruct (sort_by sort_key (same_key k tracks)) as [|keeper rest] eqn:E.
  - pose proof (Permutation_length (sort_by_perm sort_key (same_key k tracks))) as L.
    rewrite E in L. simpl in L. lia.
  - exists keeper, rest.
    assert (forall t, In t rest -> preferred_or_tied keeper t) as Hpref.
    { intros t Ht. apply key_le_preferred_or_tied.
      now apply (sort_by_head sort_key _ _ _ E). }
    split; [|split; [|split; [|split; [|split]]]].
    + intros g. split.
      * intros H. apply find_duplicates_spec in H. destruct H as [_ ->]. exact E.
      * intros ->. apply find_duplicates_spec. split; [exact Hlen|now rewrite E].
    + rewrite <- E. apply sort_by_perm.
    + exact Hpref.
    + intros t Ht Hid. destruct (Hpref t Ht) as [H|[H1 H2]]; [now left|].
      right. split; [exact H1|lia].
    + intros t Ht. apply preferred_or_tied_tier. now apply Hpref.
    + apply tier_of_known.
Qed.

(** Four entries of "Hotel California": the keeper is the lossless entry,
    which has no marker and the largest identifier; behind it come the
    remaster of 2013, the remaster of 1999 and the entry without marker. *)
Lemma keeper_is_greatest_witness :
  (2 <= length (same_key Demo.hotel_california Versions.favourites))%nat /\
  (forall g, In (Demo.hotel_california, g) (find_duplicates Versions.favourites) <->
     g = [ Versions.lossless; Versions.remaster_2013; Versions.remaster_1999;
           Versions.plain ]) /\
  preferred Versions.lossless Versions.remaster_2013 /\
  preferred Versions.lossless Versions.remaster_1999 /\
  preferred Versions.lossless Versions.plain /\
  ranking Versions.lossless = [3; -1; 0; 0; 0] /\
  ranking Versions.remaster_2013 = [2; 2013; 0; 0; 0] /\
  ranking Versions.remaster_1999 = [2; 1999; 0; 0; 0] /\
  ranking Versions.plain = [2; -1; 0; 0; 0].
Proof.
  assert (2 <= length (same_key Demo.hotel_california Versions.favourites))%nat as H
    by (vm_compute; lia).
  split; [exact H|].
  destruct (keeper_is_greatest Versions.favourites Demo.hotel_california H)
    as (keeper & rest & Hiff & _ & _ & Hpref & _).
  assert (In (Demo.hotel_california,
              [ Versions.lossless; Versions.remaster_2013; Versions.remaster_1999;
                Versions.plain ])
             (find_duplicates Versions.favourites)) as Hin
    by (vm_compute; left; reflexivity).
  apply Hiff in Hin. injection Hin as <- <-.
  split; [exact Hiff|].
  split; [apply Hpref; [now left|discriminate]|].
  split; [apply Hpref; [right; now left|discriminate]|].
  split; [apply Hpref; [right; right; now left|discriminate]|].
  repeat split; vm_compute; reflexivity.
Defined.

(** The example of the specification: a LOSSLESS entry without remaster
    marker is kept ahead of a HIGH entry marked "Remastered 2013". *)
Example lossless_kept_ahead_of_high_remaster :
  find_duplicates Demo.eagles =
  [ (Demo.hotel_california,
     [ Demo.track 11 "Eagles" "Hotel California" "Hotel California" "LOSSLESS";
       Demo.track 10 "Eagles" "Hotel California (Remastered 2013)" "Hotel California" "HIGH";
       Demo.track 13 "eagles" "Hotel California - Live" "Hell Freezes Over" "HIGH" ]) ].
Proof. vm_compute. reflexivity. Qed.

Example ranking_of_a_remaster :
  ranking (Demo.track 10 "Eagles" "Hotel California (Remastered 2013)"
                      "Hotel California [Explicit] mono" "HIGH")
  = [2; 2013; 1; -1; 0] /\
  ranking (Demo.track 11 "Eagles" "Hotel California - Remaster"
                      "Greatest Hits (Clean) Album Version" "hi_res")
  = [4; 0; -1; 0; 1] /\
  ranking (Demo.track 12 "Eagles" "Hotel California 1976"
                      "Stereo Single Version" "mp3")
  = [0; -1; 0; 1; -1].
Proof. vm_compute. repeat split. Qed.

(** ** The ranking is a strict total order *)

(** C2: on tracks with pairwise distinct identifiers the comparison made by
    the sort is a strict total order: irreflexive, asymmetric, transitive
    and total.  The sorted group holds the tracks of the group, each once,
    and does not depend on the order in which they arrive; a group that is
    not empty has a single winner, the first track of the sorted group,
    which strictly precedes every other track of the group. *)
Theorem ranking_strict_total_order (g : list Track) :
  List.NoDup (map id g) ->
  (forall a, ~ ranks_before a a) /\
  (forall a b, ranks_before a b -> ~ ranks_before b a) /\
  (forall a b c, ranks_before a b -> ranks_before b c -> ranks_before a c) /\
  (forall a b, In a g -> In b g -> a <> b -> ranks_before a b \/ ranks_before b a) /\
  Permutation (sort_by sort_key g) g /\
  (forall g', Permutation g g' -> sort_by sort_key g' = sort_by sort_key g) /\
  (forall w rest, sort_by sort_key g = w :: rest ->
                  forall t, In t rest -> ranks_before w t) /\
  (g <> [] ->
   exists w rest,
     sort_by sort_key g = w :: rest /\ In w g /\
     (forall t, In t g -> t <> w -> ranks_before w t) /\
     (forall w', In w' g -> (forall t, In t g -> t <> w' -> ranks_before w' t) ->
                 w' = w)).
Proof.
  intros Hnd. unfold ranks_before.
  assert (forall a b, In a g -> In b g -> sort_key a = sort_key b -> a = b) as Hinj.
  { intros a b Ha Hb E. apply (NoDup_map_injective id g); auto.
    now apply sort_key_injective. }
  assert (forall w rest, sort_by sort_key g = w :: rest ->
            forall t, In t rest -> tuple_lt (sort_key w) (sort_key t) = true) as Hhead.
  { intros w rest E t Ht.
    pose proof (sort_by_head sort_key _ _ _ E t Ht) as Hle. unfold key_le in Hle.
    destruct (tuple_lt (sort_key w) (sort_key t)) eqn:E1; [reflexivity|].
    exfalso.
    pose proof (sort_by_perm sort_key g) as HP. rewrite E in HP.
    assert (List.NoDup (map id (w :: rest))) as Hnd'.
    { apply (Permutation_NoDup (l := map id g)); [|exact Hnd].
      apply Permutation_map. now symmetry. }
    inversion Hnd' as [|? ? Hn _]; subst. apply Hn.
    rewrite (sort_key_injective w t (tuple_lt_total _ _ E1 Hle)).
    now apply in_map. }
  split; [|split; [|split; [|split; [|split; [|split; [|split]]]]]].
  - intros a. rewrite tuple_lt_irrefl. discriminate.
  - intros a b H. rewrite (tuple_lt_asym _ _ H). discriminate.
  - intros a b c. apply tuple_lt_trans.
  - intros a b Ha Hb Hne.
    destruct (tuple_lt (sort_key a) (sort_key b)) eqn:E1; [now left|].
    destruct (tuple_lt (sort_key b) (sort_key a)) eqn:E2; [now right|].
    exfalso. apply Hne. apply Hinj; auto. now apply tuple_lt_total.
  - apply sort_by_perm.
  - intros g' HP. symmetry. now apply sort_by_permutation_invariant.
  - exact Hhead.
  - intros Hne.
    pose proof (sort_by_perm sort_key g) as HP.
    destruct (sort_by sort_key g) as [|w rest] eqn:E.
    { apply Permutation_nil in HP. contradiction. }
    assert (forall t, In t g -> t <> w ->
              tuple_lt (sort_key w) (sort_key t) = true) as Hwin.
    { intros t Ht Htw. apply (Hhead w rest eq_refl).
      apply (Permutation_in _ (Permutation_sym HP)) in Ht.
      destruct Ht as [->|Ht]; [contradiction|exact Ht]. }
    assert (In w g) as Hw by (apply (Permutation_in _ HP); now left).
    exists w, rest. split; [reflexivity|]. split; [exact Hw|].
    split; [exact Hwin|].
    intros w' Hw' Hwin'.
    destruct (tuple_lt (sort_key w) (sort_key w')) eqn:E1.
    + destruct (tuple_lt (sort_key w') (sort_key w)) eqn:E2.
      * rewrite (tuple_lt_asym _ _ E1) in E2. discriminate.
      * apply Hinj; auto.
        destruct (tuple_lt_total _ _ E2) as []; [|reflexivity].
        exfalso.
        assert (w <> w') as Hd by (intros ->; rewrite tuple_lt_irrefl in E1; discriminate).
        rewrite (Hwin' w Hw Hd) in E2. discriminate.
    + assert (w' = w \/ w' <> w) as [->|Hd]; [|reflexivity|].
      { destruct (Z.eq_dec (id w') (id w)) as [Eid|Nid].
        - left. apply (NoDup_map_injective id g); auto.
        - right. intros ->. apply Nid. reflexivity. }
      rewrite (Hwin w' Hw' Hd) in E1. discriminate.
Qed.

(** The four entries of the sample: sorted, the LOSSLESS entry with the
    smaller identifier comes first, and it strictly precedes the three
    others, whatever the order the four arrive in. *)
Lemma ranking_strict_total_order_witness :
  List.NoDup (map id Demo.eagles) /\
  Permutation (sort_by sort_key Demo.eagles) Demo.eagles /\
  (forall g', Permutation Demo.eagles g' ->
              sort_by sort_key g' = sort_by sort_key Demo.eagles) /\
  exists rest,
    sort_by sort_key Demo.eagles =
      Demo.track 11 "Eagles" "Hotel California" "Hotel California" "LOSSLESS"
      :: rest /\
    (forall t, In t Demo.eagles ->
       t <> Demo.track 11 "Eagles" "Hotel California" "Hotel California" "LOSSLESS" ->
       ranks_before
         (Demo.track 11 "Eagles" "Hotel California" "Hotel California" "LOSSLESS") t).
Proof.
  assert (List.NoDup (map id Demo.eagles)) as H.
  { simpl. repeat constructor; simpl; intuition lia. }
  split; [exact H|].
  destruct (ranking_strict_total_order Demo.eagles H)
    as (_ & _ & _ & _ & HP & Hinv & _ & Hwin).
  split; [exact HP|]. split; [exact Hinv|].
  destruct (Hwin ltac:(discriminate)) as (w & rest & E & _ & Hw & _).
  assert (hd_error (sort_by sort_key Demo.eagles)
          = Some (Demo.track 11 "Eagles" "Hotel California" "Hotel California"
                             "LOSSLESS")) as Hhd
    by (vm_compute; reflexivity).
  rewrite E in Hhd. cbn [hd_error] in Hhd. injection Hhd as ->.
  exists rest. split; [exact E|exact Hw].
Defined.

(** ** Normalisation *)

Example normalize_hotel_california :
  normalize "Hotel California (Remastered 2013)" = "hotel california"%string /\
  normalize "hotel california" = "hotel california"%string /\
  normalize "  HOTEL   California [Live] - 25th Anniversary Deluxe!" =
    "hotel california"%string.
Proof. vm_compute. repeat split. Qed.

(** C3: [normalize] is not idempotent.  The underscore is a word character
    for [\b] and a symbol for the last substitution, so the noise word of
    "live_" survives the first pass and falls to the second; likewise a
    noise phrase written with two spaces only becomes one once the
    whitespace is collapsed. *)
Theorem normalize_not_idempotent :
  normalize "live_" = "live"%string /\
  normalize (normalize "live_") = ""%string /\
  normalize (normalize "live_") <> normalize "live_" /\
  normalize "Song (Radio  Edit)" = "song"%string /\
  normalize "Song - Radio  Edit" = "song radio edit"%string /\
  normalize (normalize "Song - Radio  Edit") = "song"%string.
Proof. vm_compute. repeat split. discriminate. Qed.

(** C10: the distinct, non-empty titles "Live" and "1999" both normalise
    to the empty text; the two songs, by one artist, fall under one key and
    form one group, and a round of the cleaner removes the second. *)
Theorem noise_only_titles_collide :
  "Live"%string <> "1999"%string /\
  normalize "Live" = ""%string /\
  normalize "1999" = ""%string /\
  find_duplicates Demo.live_and_1999 =
    [ (("prince", "")%string,
       [ Demo.track 1 "Prince" "Live" "One Nite Alone" "LOSSLESS";
         Demo.track 2 "Prince" "1999" "1999" "LOSSLESS" ]) ] /\
  exists st,
    remove_duplicates_round (list Track) Demo.parse_track Demo.favorites
      (Demo.remove_track []) 5 1
      {| world := Demo.live_and_1999; all_removed := []; all_errors := [] |}
    = Some (Done (1%nat, st)) /\
    world st = [ Demo.track 1 "Prince" "Live" "One Nite Alone" "LOSSLESS" ] /\
    map rem_track (all_removed st) =
      [ Demo.track 2 "Prince" "1999" "1999" "LOSSLESS" ].
Proof.
  split; [discriminate|].
  split; [vm_compute; reflexivity|].
  split; [vm_compute; reflexivity|].
  split; [vm_compute; reflexivity|].
  eexists. split; [vm_compute; reflexivity|].
  split; reflexivity.
Qed.

(** ** The collector *)

Section CollectorFacts.

Variable parse_track : track_data -> option (option Track).
Variable request : Z -> response.

Lemma collect_item_frame (st : collector) (item : option track_data) :
  offset (collect_item parse_track st item) = offset st /\
  consecutive_empty (collect_item parse_track st item) = consecutive_empty st /\
  (length (all_tracks st) <= length (all_tracks (collect_item parse_track st item))
   <= S (length (all_tracks st)))%nat.
Proof.
  unfold collect_item.
  destruct item as [td|]; simpl; [|lia].
  destruct (td_id td) as [i|]; [|lia].
  destruct ((i =? 0) || bool_decide (i ∈ seen_ids st)); [lia|].
  destruct (_parse_track_safe parse_track td); simpl; [|lia].
  rewrite length_app. simpl. lia.
Qed.

Lemma collect_items_frame (items : list (option track_data)) (st : collector) :
  let st' := fold_left (collect_item parse_track) items st in
  offset st' = offset st /\
  consecutive_empty st' = consecutive_empty st /\
  (length (all_tracks st) <= length (all_tracks st')
   <= length (all_tracks st) + length items)%nat.
Proof.
  revert st. induction items as [|item items IH]; intros st; simpl.
  - lia.
  - destruct (IH (collect_item parse_track st item)) as (H1 & H2 & H3).
    destruct (collect_item_frame st item) as (H4 & H5 & H6).
    rewrite H1, H2, H4, H5. lia.
Qed.

Lemma collect_page_step (st : collector) :
  previous_page_known request st ->
  match collect_page parse_track request st with
  | Continue st' => previous_page_known request st'
  | Break why st' => stopped_at request why st'
  end.
Proof.
  intros (Hoff & Hprev). unfold collect_page, limit in *.
  destruct (request (offset st)) as [|items] eqn:Hreq; [exact Hreq|].
  destruct items as [|item items].
  - simpl. destruct Hprev as [H0|(H1 & Hlim & Hp)].
    + rewrite H0. simpl. unfold previous_page_known. simpl. unfold limit.
      split; [lia|]. right.
      replace (offset st + 100 - 100) with (offset st) by lia. auto with zarith.
    + rewrite H1. simpl. auto.
  - pose proof (collect_items_frame (item :: items) (set_empty 0 st))
      as (H1 & H2 & _).
    set (st1 := fold_left (collect_item parse_track) (item :: items) (set_empty 0 st)) in *.
    simpl in H1, H2.
    destruct (MAX_TRACKS <=? Z.of_nat (length (all_tracks st1))) eqn:Hcap.
    + simpl. split.
      * exists item, items. now rewrite H1.
      * now apply Z.leb_le.
    + unfold previous_page_known. simpl. unfold limit. rewrite H1, H2.
      split; [lia|now left].
Qed.

Lemma collect_loop_stop (fuel : nat) (st st' : collector) (why : stop) :
  previous_page_known request st ->
  collect_loop parse_track request fuel st = Some (why, st') ->
  stopped_at request why st'.
Proof.
  revert st. induction fuel as [|fuel IH]; intros st Hinv; simpl; [discriminate|].
  pose proof (collect_page_step st Hinv) as Hstep.
  destruct (collect_page parse_track request st) as [st1|why1 st1].
  - now apply IH.
  - intros E. injection E as -> ->. exact Hstep.
Qed.

Lemma collector_init_known : previous_page_known request collector_init.
Proof. unfold previous_page_known. simpl. split; [lia|now left]. Qed.

(** C4: when the collection ends for want of pages, the page it stopped at
    and the page before are both empty, and it ends at an empty page for
    no other reason; one empty page after a non-empty one (or at the
    start) only moves on to the next page; a page with at least one entry
    puts the count of empty pages back to zero, whatever the entry. *)
Theorem two_empty_pages_end_collection
    (fuel : nat) (why : stop) (st : collector) :
  collect_loop parse_track request fuel collector_init = Some (why, st) ->
  (why = PagesExhausted <-> request (offset st) = Page []) /\
  (why = PagesExhausted ->
     limit <= offset st /\
     request (offset st - limit) = Page [] /\
     request (offset st) = Page []) /\
  (forall st0, consecutive_empty st0 = 0%nat ->
     request (offset st0) = Page [] ->
     exists st1, collect_page parse_track request st0 = Continue st1 /\
                 offset st1 = offset st0 + limit /\
                 consecutive_empty st1 = 1%nat /\
                 all_tracks st1 = all_tracks st0) /\
  (forall st0 item items, request (offset st0) = Page (item :: items) ->
     exists st1, (collect_page parse_track request st0 = Continue st1 \/
                  collect_page parse_track request st0 = Break HardCap st1) /\
                 consecutive_empty st1 = 0%nat).
Proof.
  intros Hrun.
  pose proof (collect_loop_stop _ _ _ _ collector_init_known Hrun) as Hstop.
  split; [|split; [|split]].
  - split.
    + intros ->. apply Hstop.
    + intros Hp. destruct why; simpl in Hstop.
      * congruence.
      * reflexivity.
      * destruct Hstop as ((item & items & E) & _). congruence.
  - intros ->. exact Hstop.
  - intros st0 H0 Hp. unfold collect_page. rewrite Hp, H0. simpl.
    eexists. split; [reflexivity|]. simpl. auto.
  - intros st0 item items Hp. unfold collect_page. rewrite Hp.
    pose proof (collect_items_frame (item :: items) (set_empty 0 st0))
      as (_ & H2 & _).
    set (st1 := fold_left (collect_item parse_track) (item :: items) (set_empty 0 st0)) in *.
    simpl in H2.
    destruct (MAX_TRACKS <=? Z.of_nat (length (all_tracks st1))).
    + exists st1. auto.
    + exists (next_page st1). auto.
Qed.

Lemma collect_page_cap (st : collector) (page_size : nat) :
  (forall off items, request off = Page items ->
                     (length items <= page_size)%nat) ->
  below_cap st ->
  match collect_page parse_track request st with
  | Continue st' => below_cap st'
  | Break _ st' =>
      Z.of_nat (length (all_tracks st')) < MAX_TRACKS + Z.of_nat page_size
  end.
Proof.
  intros Hsize Hlt. unfold collect_page, below_cap, MAX_TRACKS in *.
  destruct (request (offset st)) as [|items] eqn:Hreq; [simpl; lia|].
  destruct items as [|item items].
  - simpl. destruct (consecutive_empty st); simpl; lia.
  - pose proof (collect_items_frame (item :: items) (set_empty 0 st))
      as (_ & _ & H3).
    pose proof (Hsize _ _ Hreq) as Hlen.
    set (st1 := fold_left (collect_item parse_track) (item :: items) (set_empty 0 st)) in *.
    change (all_tracks (set_empty 0 st)) with (all_tracks st) in H3.
    destruct (50000 <=? Z.of_nat (length (all_tracks st1))) eqn:Hcap.
    + lia.
    + apply Z.leb_gt in Hcap. simpl. exact Hcap.
Qed.

Lemma collector_overshoot_bound (page_size fuel : nat) (why : stop)
    (st : collector) :
  (forall off items, request off = Page items ->
                     (length items <= page_size)%nat) ->
  collect_loop parse_track request fuel collector_init = Some (why, st) ->
  Z.of_nat (length (all_tracks st)) < MAX_TRACKS + Z.of_nat page_size.
Proof.
  intros Hsize.
  assert (below_cap collector_init) as Hinit by (unfold below_cap; simpl; reflexivity).
  revert Hinit. generalize collector_init as st0.
  induction fuel as [|fuel IH]; intros st0 Hlt; simpl; [discriminate|].
  pose proof (collect_page_cap st0 page_size Hsize Hlt) as Hstep.
  destruct (collect_page parse_track request st0) as [st1|why1 st1].
  - now apply IH.
  - intros E. injection E as -> ->. exact Hstep.
Qed.

End CollectorFacts.

Lemma two_empty_pages_end_collection_witness :
  collect_loop Demo.parse_track Demo.gappy 10 collector_init
  = Some (PagesExhausted,
          {| all_tracks :=
               [ mkTrack 7 (Some "Song"%string) (Some "?"%string) (Some "?"%string)
                         (Some "LOW"%string);
                 mkTrack 8 (Some "Song"%string) (Some "?"%string) (Some "?"%string)
                         (Some "LOW"%string) ];
             seen_ids := {[ 8 ]} ∪ ({[ 7 ]} ∪ ∅);
             skipped_unavailable := 1;
             offset := 500;
             consecutive_empty := 2 |}) /\
  Demo.gappy 400 = Page [] /\ Demo.gappy 500 = Page [].
Proof.
  assert (collect_loop Demo.parse_track Demo.gappy 10 collector_init
          = Some (PagesExhausted,
                  {| all_tracks :=
                       [ mkTrack 7 (Some "Song"%string) (Some "?"%string)
                                 (Some "?"%string) (Some "LOW"%string);
                         mkTrack 8 (Some "Song"%string) (Some "?"%string)
                                 (Some "?"%string) (Some "LOW"%string) ];
                     seen_ids := {[ 8 ]} ∪ ({[ 7 ]} ∪ ∅);
                     skipped_unavailable := 1;
                     offset := 500;
                     consecutive_empty := 2 |})) as Hrun
    by (vm_compute; reflexivity).
  split; [exact Hrun|].
  pose proof (two_empty_pages_end_collection Demo.parse_track Demo.gappy
                _ _ _ Hrun) as (_ & H & _).
  destruct (H eq_refl) as (_ & H1 & H2). split; [exact H1|exact H2].
Defined.

(** ** The hard cap *)

Section Ragged.

Local Abbreviation item_step := (collect_item Demo.parse_track).
Local Abbreviation page_step := (collect_page Demo.parse_track Demo.ragged).
Local Abbreviation run := (collect_loop Demo.parse_track Demo.ragged).

Lemma collect_entry (b : Z) (st : collector) :
  0 < b -> (forall x, x ∈ seen_ids st -> x < b) ->
  item_step st (Demo.entry b) =
  {| all_tracks :=
       all_tracks st ++ [mkTrack b (Some "Song"%string) (Some "?"%string)
                                 (Some "?"%string) (Some "LOW"%string)];
     seen_ids := {[ b ]} ∪ seen_ids st;
     skipped_unavailable := skipped_unavailable st;
     offset := offset st;
     consecutive_empty := consecutive_empty st |}.
Proof.
  intros Hb Hseen. unfold collect_item, Demo.entry. cbn [td_id].
  replace (b =? 0) with false by (symmetry; apply Z.eqb_neq; lia).
  rewrite bool_decide_eq_false_2
    by (intros Hin; apply Hseen in Hin; lia).
  reflexivity.
Qed.

Lemma collect_entries (n : nat) (b : Z) (st : collector) :
  0 < b -> (forall x, x ∈ seen_ids st -> x < b) ->
  let st' := fold_left item_step (map Demo.entry (Demo.zrange b n)) st in
  length (all_tracks st') = (length (all_tracks st) + n)%nat /\
  (forall x, x ∈ seen_ids st' -> x < b + Z.of_nat n) /\
  offset st' = offset st /\
  consecutive_empty st' = consecutive_empty st.
Proof.
  revert b st. induction n as [|n IH]; intros b st Hb Hseen.
  - simpl. repeat split; auto. intros x Hx. apply Hseen in Hx. lia.
  - cbn [Demo.zrange map fold_left]. rewrite (collect_entry b st Hb Hseen).
    match goal with |- context [fold_left _ _ ?s] => set (st1 := s) end.
    destruct (IH (b + 1) st1) as (H1 & H2 & H3 & H4); [lia| |].
    + intros x Hx. subst st1. cbn [seen_ids] in Hx.
      apply elem_of_union in Hx. destruct Hx as [Hx|Hx].
      * apply elem_of_singleton in Hx. lia.
      * apply Hseen in Hx. lia.
    + cbv zeta. rewrite H1, H3, H4. subst st1. cbn [all_tracks offset consecutive_empty].
      rewrite length_app. cbn [length]. repeat split; try lia.
      intros x Hx. apply H2 in Hx. lia.
Qed.

Lemma collect_page_items (request : Z -> response) (st : collector)
    (item : option track_data) (items : list (option track_data)) :
  request (offset st) = Page (item :: items) ->
  collect_page Demo.parse_track request st =
  let st1 := fold_left item_step (item :: items) (set_empty 0 st) in
  if MAX_TRACKS <=? Z.of_nat (length (all_tracks st1)) then Break HardCap st1
  else Continue (next_page st1).
Proof. intros E. unfold collect_page. rewrite E. reflexivity. Qed.

(** A full page taken from a state that has seen no identifier beyond
    its offset. *)
Lemma ragged_full_page (st : collector) :
  0 < offset st -> (forall x, x ∈ seen_ids st -> x <= offset st) ->
  exists st1,
    page_step st =
      (if MAX_TRACKS <=? Z.of_nat (length (all_tracks st1))
       then Break HardCap st1 else Continue (next_page st1)) /\
    length (all_tracks st1) = (length (all_tracks st) + 100)%nat /\
    (forall x, x ∈ seen_ids st1 -> x <= offset st + limit) /\
    offset st1 = offset st /\
    consecutive_empty st1 = 0%nat.
Proof.
  intros Hoff Hseen.
  assert (Demo.ragged (offset st) =
          Page (Demo.entry (offset st + 1)
                :: map Demo.entry (Demo.zrange (offset st + 1 + 1) 99))) as E.
  { unfold Demo.ragged.
    replace (offset st =? 0) with false by (symmetry; apply Z.eqb_neq; lia).
    reflexivity. }
  rewrite (collect_page_items _ _ _ _ E). cbv zeta.
  change (Demo.entry (offset st + 1)
          :: map Demo.entry (Demo.zrange (offset st + 1 + 1) 99))
    with (map Demo.entry (Demo.zrange (offset st + 1) 100)).
  destruct (collect_entries 100 (offset st + 1) (set_empty 0 st))
    as (H1 & H2 & H3 & H4); [lia| |].
  - intros x Hx. apply Hseen in Hx. lia.
  - eexists. split; [reflexivity|]. rewrite H1, H3, H4.
    repeat split; try reflexivity.
    intros x Hx. apply H2 in Hx. unfold limit.
    change (Z.of_nat 100) with 100 in Hx. lia.
Qed.

Lemma ragged_full_pages (n fuel : nat) (st : collector) :
  0 < offset st -> (forall x, x ∈ seen_ids st -> x <= offset st) ->
  Z.of_nat (length (all_tracks st)) + 100 * Z.of_nat n < MAX_TRACKS ->
  exists st',
    run (n + fuel)%nat st = run fuel st' /\
    0 < offset st' /\
    (forall x, x ∈ seen_ids st' -> x <= offset st') /\
    Z.of_nat (length (all_tracks st')) =
      Z.of_nat (length (all_tracks st)) + 100 * Z.of_nat n.
Proof.
  revert st. induction n as [|n IH]; intros st Hoff Hseen Hlen.
  - exists st. repeat split; auto. lia.
  - destruct (ragged_full_page st Hoff Hseen) as (st1 & E & H1 & H2 & H3 & H4).
    assert ((MAX_TRACKS <=? Z.of_nat (length (all_tracks st1))) = false) as Hcap
      by (apply Z.leb_gt; lia).
    rewrite Hcap in E.
    destruct (IH (next_page st1)) as (st' & R & Ho & Hs & Hl).
    + cbn [next_page offset]. unfold limit. lia.
    + intros x Hx. cbn [next_page seen_ids offset] in *. rewrite H3. auto.
    + cbn [next_page all_tracks]. lia.
    + exists st'. cbn [Nat.add collect_loop]. rewrite E.
      repeat split; auto. cbn [next_page all_tracks] in Hl. lia.
Qed.

Lemma fold_left_cons {A B : Type} (f : A -> B -> A) (x : B) (l : list B) (a : A) :
  fold_left f (x :: l) a = fold_left f l (f a x).
Proof. reflexivity. Qed.

Lemma run_step (fuel : nat) (st : collector) :
  run (S fuel) st =
  match page_step st with
  | Break why st' => Some (why, st')
  | Continue st' => run fuel st'
  end.
Proof. reflexivity. Qed.

Lemma collect_ghost (st : collector) :
  item_step st None =
  {| all_tracks := all_tracks st; seen_ids := seen_ids st;
     skipped_unavailable := S (skipped_unavailable st);
     offset := offset st; consecutive_empty := consecutive_empty st |}.
Proof. reflexivity. Qed.

(** A page that opens with a ghost entry, from a state that has seen no
    identifier from [b] on. *)
Lemma ghost_then_entries (request : Z -> response) (st : collector)
    (b : Z) (n : nat) :
  request (offset st) = Page (None :: map Demo.entry (Demo.zrange b n)) ->
  0 < b -> (forall x, x ∈ seen_ids st -> x < b) ->
  exists st1,
    collect_page Demo.parse_track request st =
      (if MAX_TRACKS <=? Z.of_nat (length (all_tracks st1))
       then Break HardCap st1 else Continue (next_page st1)) /\
    length (all_tracks st1) = (length (all_tracks st) + n)%nat /\
    (forall x, x ∈ seen_ids st1 -> x < b + Z.of_nat n) /\
    offset st1 = offset st.
Proof.
  intros E Hb Hseen.
  rewrite (collect_page_items _ _ _ _ E). cbv zeta.
  rewrite fold_left_cons, collect_ghost.
  match goal with |- context [fold_left _ _ ?s] => set (st0 := s) end.
  destruct (collect_entries n b st0 Hb) as (H1 & H2 & H3 & H4).
  - intros x Hx. apply Hseen. exact Hx.
  - eexists. split; [reflexivity|]. rewrite H1, H3.
    split; [reflexivity|]. split; [exact H2|reflexivity].
Qed.

Lemma ragged_first_page (st : collector) :
  offset st = 0 -> all_tracks st = [] -> seen_ids st = ∅ ->
  exists st1,
    page_step st = Continue st1 /\
    offset st1 = 100 /\
    (forall x, x ∈ seen_ids st1 -> x <= 100) /\
    length (all_tracks st1) = 99%nat.
Proof.
  intros Hoff Hall Hseen.
  assert (Demo.ragged (offset st) =
          Page (None :: map Demo.entry (Demo.zrange 2 99))) as E
    by (rewrite Hoff; reflexivity).
  destruct (ghost_then_entries Demo.ragged st 2 99 E) as (st1 & R & H1 & H2 & H3).
  - lia.
  - intros x Hx. rewrite Hseen in Hx. now apply not_elem_of_empty in Hx.
  - rewrite Hall in H1. cbn [length Nat.add] in H1.
    assert ((MAX_TRACKS <=? Z.of_nat (length (all_tracks st1))) = false) as Hcap
      by (apply Z.leb_gt; rewrite H1; unfold MAX_TRACKS; lia).
    rewrite Hcap in R. exists (next_page st1).
    split; [exact R|]. cbn [next_page offset seen_ids all_tracks].
    rewrite H3, Hoff. split; [reflexivity|]. split; [|exact H1].
    intros x Hx. apply H2 in Hx. lia.
Qed.

End Ragged.

(** C5: the collector can return more than [MAX_TRACKS] tracks.  The cap
    is tested once a page has been taken in whole; with 49 999 tracks
    collected after 500 pages, the next page brings the count to 50 099. *)
Theorem hard_cap_overshoot :
  exists tracks,
    get_all_tracks Demo.parse_track Demo.ragged 501 = Some tracks /\
    Z.of_nat (length tracks) = 50099 /\
    MAX_TRACKS < Z.of_nat (length tracks).
Proof.
  destruct (ragged_first_page collector_init)
    as (st1 & E1 & Ho1 & Hs1 & Hl1); try reflexivity.
  destruct (ragged_full_pages 499 1 st1) as (st2 & E2 & Ho2 & Hs2 & Hl2).
  - lia.
  - intros x Hx. rewrite Ho1. auto.
  - rewrite Hl1. unfold MAX_TRACKS. lia.
  - destruct (ragged_full_page st2 Ho2 Hs2) as (st3 & E3 & Hl3 & _).
    assert (Z.of_nat (length (all_tracks st3)) = 50099) as L
      by (rewrite Hl3, Nat2Z.inj_add, Hl2, Hl1; lia).
    assert ((MAX_TRACKS <=? Z.of_nat (length (all_tracks st3))) = true) as Hcap
      by (apply Z.leb_le; unfold MAX_TRACKS; lia).
    rewrite Hcap in E3.
    exists (all_tracks st3). unfold get_all_tracks.
    replace 501%nat with (S (499 + 1)) by reflexivity.
    rewrite run_step, E1, E2, run_step, E3.
    unfold MAX_TRACKS. repeat split; lia.
Qed.

(** ** The convergence loop *)

Section CleanerFacts.

Variable W : Type.
Variable parse_track : track_data -> option (option Track).
Variable favorites : W -> Z -> response.
Variable remove_track : Z -> W -> option W.

Local Abbreviation round := (remove_duplicates_round W parse_track favorites remove_track).
Local Abbreviation loop := (clean_loop W parse_track favorites remove_track).

(** Once an exception has left the loops nothing more is done. *)
Lemma remove_extras_raised (round_num : nat) (keeper : Track)
    (extras : list Track) (st : cleaner W) :
  fold_left (remove_extra W remove_track round_num keeper) extras (Raised st)
  = Raised st.
Proof. induction extras as [|t extras IH]; [reflexivity|exact IH]. Qed.

Lemma remove_groups_raised (round_num : nat)
    (groups : list (group_key * list Track)) (st : cleaner W) :
  fold_left (remove_group W remove_track round_num) groups (Raised st) = Raised st.
Proof.
  induction groups as [|[k g] groups IH]; [reflexivity|].
  cbn [fold_left]. unfold remove_group at 2. cbn [snd].
  destruct g as [|keeper extras]; [exact IH|].
  rewrite remove_extras_raised. exact IH.
Qed.

Lemma remove_extra_done (round_num : nat) (keeper t : Track) (n : nat)
    (st : cleaner W) :
  remove_extra W remove_track round_num keeper (Done (n, st)) t =
  match t_label t with
  | None => Raised st
  | Some _ =>
      match remove_track (id t) (world st) with
      | Some w' =>
          Done (S n, {| world := w';
                        all_removed := all_removed st ++ [mkRemoval round_num t keeper];
                        all_errors := all_errors st |})
      | None =>
          Done (n, {| world := world st; all_removed := all_removed st;
                      all_errors := all_errors st ++ [t] |})
      end
  end.
Proof. reflexivity. Qed.

Lemma remove_group_done (round_num : nat) (k : group_key) (g : list Track)
    (acc : attempt W (nat * cleaner W)) :
  remove_group W remove_track round_num acc (k, g) =
  match g with
  | keeper :: extras =>
      fold_left (remove_extra W remove_track round_num keeper) extras acc
  | [] => acc
  end.
Proof. reflexivity. Qed.

(** The count a round returns is the number of lines it adds to
    [all_removed]. *)
Lemma remove_extras_count (round_num : nat) (keeper : Track)
    (extras : list Track) (n n' : nat) (st st' : cleaner W) :
  fold_left (remove_extra W remove_track round_num keeper) extras (Done (n, st))
    = Done (n', st') ->
  (length (all_removed st') + n = length (all_removed st) + n')%nat.
Proof.
  revert n st. induction extras as [|t extras IH]; intros n st; cbn [fold_left].
  - intros E. injection E as <- <-. lia.
  - rewrite remove_extra_done. destruct (t_label t).
    + destruct (remove_track (id t) (world st)) as [w'|]; intros E;
        apply IH in E; cbn [all_removed] in E;
        rewrite ?length_app in E; cbn [length] in E; lia.
    + rewrite remove_extras_raised. discriminate.
Qed.

Lemma remove_groups_count (round_num : nat)
    (groups : list (group_key * list Track)) (n n' : nat) (st st' : cleaner W) :
  fold_left (remove_group W remove_track round_num) groups (Done (n, st))
    = Done (n', st') ->
  (length (all_removed st') + n = length (all_removed st) + n')%nat.
Proof.
  revert n st. induction groups as [|[k g] groups IH]; intros n st; cbn [fold_left].
  - intros E. injection E as <- <-. lia.
  - rewrite remove_group_done. destruct g as [|keeper extras]; [apply IH|].
    destruct (fold_left (remove_extra W remove_track round_num keeper) extras
                        (Done (n, st))) as [[n1 st1]|st1] eqn:E1.
    + apply remove_extras_count in E1. intros E. apply IH in E. lia.
    + rewrite remove_groups_raised. discriminate.
Qed.

(** C6, as the code has it: the loop ends with a round exactly when the
    round removed nothing, and goes on to the next round otherwise; the
    count of the round is the number of copies it removed; a round whose
    grouping finds no duplicate group removes nothing, leaves the state as
    it was and so ends the loop. *)
Theorem loop_ends_when_round_removes_nothing
    (rounds fuel round_num eliminated : nat) (st st' : cleaner W) :
  round fuel round_num st = Some (Done (eliminated, st')) ->
  length (all_removed st') = (length (all_removed st) + eliminated)%nat /\
  (eliminated = 0%nat ->
     loop (S rounds) fuel round_num st = Some (Done (round_num, st'))) /\
  (eliminated <> 0%nat ->
     loop (S rounds) fuel round_num st = loop rounds fuel (S round_num) st') /\
  (forall tracks,
     get_all_tracks parse_track (favorites (world st)) fuel = Some tracks ->
     find_duplicates tracks = [] ->
     eliminated = 0%nat /\ st' = st /\
     loop (S rounds) fuel round_num st = Some (Done (round_num, st))).
Proof.
  intros Hround. split; [|split; [|split]].
  - unfold remove_duplicates_round in Hround.
    destruct (get_all_tracks parse_track (favorites (world st)) fuel) as [tracks|];
      [|discriminate].
    destruct (find_duplicates tracks) as [|g groups].
    + injection Hround as <- <-. lia.
    + injection Hround as Hr.
      apply (remove_groups_count round_num (g :: groups)) in Hr. lia.
  - intros ->. cbn [clean_loop]. rewrite Hround. reflexivity.
  - intros Hne. cbn [clean_loop]. rewrite Hround.
    destruct eliminated; [congruence|reflexivity].
  - intros tracks Htracks Hnone.
    unfold remove_duplicates_round in Hround.
    rewrite Htracks, Hnone in Hround. injection Hround as <- <-.
    split; [reflexivity|]. split; [reflexivity|].
    cbn [clean_loop]. unfold remove_duplicates_round.
    rewrite Htracks, Hnone. reflexivity.
Qed.

(** A track has a label exactly when it has an artist or a name. *)
Lemma labelled_t_label (t : Track) : labelled t <-> t_label t <> None.
Proof.
  unfold labelled, t_label. destruct (artist t), (name t); split;
    try discriminate; try tauto; intros _; try (now left); now right.
Qed.

(** Over copies that all have a label the loops go through. *)
Lemma labelled_extras_go_through (round_num : nat) (keeper : Track)
    (extras : list Track) (n : nat) (st : cleaner W) :
  (forall t, In t extras -> labelled t) ->
  exists n' st',
    fold_left (remove_extra W remove_track round_num keeper) extras (Done (n, st))
    = Done (n', st').
Proof.
  revert n st. induction extras as [|t extras IH]; intros n st Hl; cbn [fold_left].
  - exists n, st. reflexivity.
  - rewrite remove_extra_done.
    assert (t_label t <> None) as Ht by (apply labelled_t_label, Hl; now left).
    destruct (t_label t); [|congruence].
    destruct (remove_track (id t) (world st)); apply IH;
      intros t' Ht'; apply Hl; now right.
Qed.

Lemma labelled_groups_go_through (round_num : nat)
    (groups : list (group_key * list Track)) (n : nat) (st : cleaner W) :
  (forall kv t, In kv groups -> In t (snd kv) -> labelled t) ->
  exists n' st',
    fold_left (remove_group W remove_track round_num) groups (Done (n, st))
    = Done (n', st').
Proof.
  revert n st. induction groups as [|[k g] groups IH]; intros n st Hl; cbn [fold_left].
  - exists n, st. reflexivity.
  - rewrite remove_group_done.
    assert (forall kv t, In kv groups -> In t (snd kv) -> labelled t) as Hl'
      by (intros kv t Hkv; apply Hl; now right).
    destruct g as [|keeper extras]; [now apply IH|].
    destruct (labelled_extras_go_through round_num keeper extras n st)
      as (n1 & st1 & E1).
    { intros t Ht. apply (Hl (k, keeper :: extras)); [now left|now right]. }
    rewrite E1. now apply IH.
Qed.

(** A round over tracks that all have an artist or a name returns. *)
Lemma labelled_round_returns (fuel round_num : nat) (st : cleaner W)
    (tracks : list Track) :
  get_all_tracks parse_track (favorites (world st)) fuel = Some tracks ->
  (forall t, In t tracks -> labelled t) ->
  exists eliminated st', round fuel round_num st = Some (Done (eliminated, st')).
Proof.
  intros Htracks Hl. unfold remove_duplicates_round. rewrite Htracks.
  destruct (find_duplicates tracks) as [|g groups] eqn:E.
  - exists 0%nat, st. reflexivity.
  - destruct (labelled_groups_go_through round_num (g :: groups) 0 st)
      as (n' & st' & E').
    + intros [k v] t Hkv Ht. rewrite <- E in Hkv.
      apply find_duplicates_spec in Hkv. destruct Hkv as [_ ->].
      cbn [snd] in Ht. apply (Permutation_in _ (sort_by_perm sort_key _)) in Ht.
      apply List.filter_In in Ht. apply Hl. tauto.
    + exists n', st'. now rewrite E'.
Qed.

(** A round that an exception leaves ends the loop, and the script, with
    the state it had reached: the copies removed before stay removed. *)
Lemma raising_round_ends_the_loop
    (rounds fuel round_num : nat) (st st' : cleaner W) :
  round fuel round_num st = Some (Raised st') ->
  loop (S rounds) fuel round_num st = Some (Raised st').
Proof. intros Hround. cbn [clean_loop]. rewrite Hround. reflexivity. Qed.

End CleanerFacts.

Lemma loop_ends_when_round_removes_nothing_witness :
  remove_duplicates_round (list Track) Demo.parse_track Demo.favorites
    (Demo.remove_track []) 5 1
    {| world := Demo.live_and_1999; all_removed := []; all_errors := [] |}
  = Some (Done (1%nat,
          {| world := [Demo.track 1 "Prince" "Live" "One Nite Alone" "LOSSLESS"];
             all_removed :=
               [mkRemoval 1 (Demo.track 2 "Prince" "1999" "1999" "LOSSLESS")
                            (Demo.track 1 "Prince" "Live" "One Nite Alone" "LOSSLESS")];
             all_errors := [] |})) /\
  clean_loop (list Track) Demo.parse_track Demo.favorites (Demo.remove_track [])
    3 5 1 {| world := Demo.live_and_1999; all_removed := []; all_errors := [] |}
  = clean_loop (list Track) Demo.parse_track Demo.favorites (Demo.remove_track [])
    2 5 2
    {| world := [Demo.track 1 "Prince" "Live" "One Nite Alone" "LOSSLESS"];
       all_removed :=
         [mkRemoval 1 (Demo.track 2 "Prince" "1999" "1999" "LOSSLESS")
                      (Demo.track 1 "Prince" "Live" "One Nite Alone" "LOSSLESS")];
       all_errors := [] |}.
Proof.
  assert (remove_duplicates_round (list Track) Demo.parse_track Demo.favorites
            (Demo.remove_track []) 5 1
            {| world := Demo.live_and_1999; all_removed := []; all_errors := [] |}
          = Some (Done (1%nat,
                  {| world := [Demo.track 1 "Prince" "Live" "One Nite Alone" "LOSSLESS"];
                     all_removed :=
                       [mkRemoval 1 (Demo.track 2 "Prince" "1999" "1999" "LOSSLESS")
                                    (Demo.track 1 "Prince" "Live" "One Nite Alone" "LOSSLESS")];
                     all_errors := [] |}))) as H
    by (vm_compute; reflexivity).
  split; [exact H|].
  pose proof (loop_ends_when_round_removes_nothing (list Track) Demo.parse_track
                Demo.favorites (Demo.remove_track []) 2 5 1 1 _ _ H)
    as (_ & _ & Hgo & _).
  apply Hgo. discriminate.
Defined.

(** The exception at work: the round removes the copy of "Song", then
    comes to a copy without artist and title, and the slice of its label
    leaves the round and the loop; the copy removed stays removed. *)
Example unlabelled_copy_ends_the_script :
  remove_duplicates_round (list Track) Sample.parse_fields Demo.favorites
    (Demo.remove_track []) 5 1 Untitled.start
  = Some (Raised Untitled.left_at) /\
  clean_loop (list Track) Sample.parse_fields Demo.favorites (Demo.remove_track [])
    9 5 1 Untitled.start
  = Some (Raised Untitled.left_at).
Proof. vm_compute. split; reflexivity. Qed.

(** A round that finds no group does end the loop: once the duplicate is
    gone the second round finds no group, and the loop ends with that round
    however many rounds it is allowed. *)
Lemma zero_group_round_ends_loop :
  let st1 :=
    {| world := [Demo.track 1 "Prince" "Live" "One Nite Alone" "LOSSLESS"];
       all_removed :=
         [mkRemoval 1 (Demo.track 2 "Prince" "1999" "1999" "LOSSLESS")
                      (Demo.track 1 "Prince" "Live" "One Nite Alone" "LOSSLESS")];
       all_errors := [] |} in
  get_all_tracks Demo.parse_track (Demo.favorites (world st1)) 5
    = Some [Demo.track 1 "Prince" "Live" "One Nite Alone" "LOSSLESS"] /\
  find_duplicates [Demo.track 1 "Prince" "Live" "One Nite Alone" "LOSSLESS"] = [] /\
  (forall rounds,
     clean_loop (list Track) Demo.parse_track Demo.favorites (Demo.remove_track [])
       (S rounds) 5 2 st1 = Some (Done (2%nat, st1))) /\
  clean_loop (list Track) Demo.parse_track Demo.favorites (Demo.remove_track [])
    9 5 1 {| world := Demo.live_and_1999; all_removed := []; all_errors := [] |}
  = Some (Done (2%nat, st1)).
Proof.
  cbv zeta. split; [vm_compute; reflexivity|].
  split; [vm_compute; reflexivity|].
  split; [|vm_compute; reflexivity].
  intros rounds. cbn [clean_loop].
  replace (remove_duplicates_round _ _ _ _ 5 2 _)
    with (Some (@Done (list Track) _ (0%nat,
      {| world := [Demo.track 1 "Prince" "Live" "One Nite Alone" "LOSSLESS"];
         all_removed :=
           [mkRemoval 1 (Demo.track 2 "Prince" "1999" "1999" "LOSSLESS")
                        (Demo.track 1 "Prince" "Live" "One Nite Alone" "LOSSLESS")];
         all_errors := [] |})))
    by (vm_compute; reflexivity).
  reflexivity.
Qed.

(** ** The upgrader *)

Lemma QUALITY_RANK_nonneg (q : string) : 0 <= QUALITY_RANK q.
Proof.
  unfold QUALITY_RANK.
  repeat match goal with
         | |- context [String.eqb q ?s] => destruct (String.eqb q s); [lia|]
         end.
  lia.
Qed.

Lemma quality_rank_unknown (t : Track) :
  audio_quality t = None -> quality_rank t = 0.
Proof. unfold quality_rank, get_quality. intros ->. reflexivity. Qed.

(** What the loop over the candidates holds in [best] and [best_rank]. *)
Lemma consider_all (track : Track) (cands : list Track)
    (best0 : option Track) (r0 : Z) :
  0 <= r0 ->
  let res := fold_left (consider (normalize (artist_name track))
                                 (normalize (title_of track)))
                       cands (best0, r0) in
  (res = (best0, r0) /\
   forall c, In c cands -> same_song track c -> quality_rank c <= r0) \/
  (exists pre c post,
     cands = pre ++ c :: post /\
     res = (Some c, quality_rank c) /\
     same_song track c /\
     r0 < quality_rank c /\
     (forall c', In c' cands -> same_song track c' ->
                 quality_rank c' <= quality_rank c) /\
     (forall c', In c' pre -> same_song track c' ->
                 quality_rank c' < quality_rank c)).
Proof.
  revert best0 r0. induction cands as [|c cands IH]; intros best0 r0 Hr0.
  - left. split; [reflexivity|]. intros c [].
  - cbn [fold_left].
    assert (consider (normalize (artist_name track)) (normalize (title_of track))
                     (best0, r0) c = (best0, r0) /\
            (same_song track c -> quality_rank c <= r0) \/
            consider (normalize (artist_name track)) (normalize (title_of track))
                     (best0, r0) c = (Some c, quality_rank c) /\
            same_song track c /\ r0 < quality_rank c) as Hstep.
    { unfold consider, same_song. fold (artist_name c). fold (title_of c).
      destruct (audio_quality c) eqn:Hq.
      - destruct (String.eqb_spec (normalize (artist_name c))
                                  (normalize (artist_name track))) as [Ea|Na];
          cbn [negb]; [|left; split; [reflexivity|tauto]].
        destruct (String.eqb_spec (normalize (title_of c))
                                  (normalize (title_of track))) as [Et|Nt];
          cbn [negb]; [|left; split; [reflexivity|tauto]].
        destruct (Z.ltb_spec r0 (quality_rank c)).
        + right. auto.
        + left. split; [reflexivity|]. intros _. lia.
      - left. split; [reflexivity|]. intros _.
        rewrite (quality_rank_unknown c Hq). exact Hr0. }
    destruct Hstep as [[-> Hc]|(-> & Hsame & Hlt)].
    + destruct (IH best0 r0 Hr0) as [[E Hall]|(pre & c1 & post & E & R & S1 & L1 & A1 & P1)].
      * left. split; [exact E|]. intros c' [<-|Hin]; auto.
      * right. exists (c :: pre), c1, post. subst cands.
        split; [reflexivity|]. split; [exact R|]. split; [exact S1|].
        split; [exact L1|]. split.
        -- intros c' [<-|Hin] Hs; auto. specialize (Hc Hs). lia.
        -- intros c' [<-|Hin] Hs; auto. specialize (Hc Hs). lia.
    + destruct (IH (Some c) (quality_rank c)) as
        [[E Hall]|(pre & c1 & post & E & R & S1 & L1 & A1 & P1)]; [lia| |].
      * right. exists [], c, cands.
        split; [reflexivity|]. split; [exact E|]. split; [exact Hsame|].
        split; [exact Hlt|]. split.
        -- intros c' [<-|Hin] Hs; [lia|auto].
        -- intros c' [].
      * right. exists (c :: pre), c1, post. subst cands.
        split; [reflexivity|]. split; [exact R|]. split; [exact S1|].
        split; [lia|]. split.
        -- intros c' [<-|Hin] Hs; [lia|auto].
        -- intros c' [<-|Hin] Hs; [lia|auto].
Qed.

Section UpgradeSearch.

Variable W : Type.
Variable search : string -> W -> option (list Track).

Local Abbreviation find_upgrade := (search_better_version W search).

(** C7: when the search returns, the upgrade chosen is a candidate that
    names the same song by exact equality of the normalised artist and
    title, of a tier strictly above the track's, of the highest tier among
    such candidates and the first of them at that tier; there is none
    exactly when no such candidate is strictly above the track's tier. *)
Theorem upgrade_is_first_best_exact_match
    (w : W) (track : Track) (cands : list Track) :
  search (search_query track) w = Some cands ->
  match find_upgrade w track with
  | Some c =>
      exists pre post,
        cands = pre ++ c :: post /\
        same_song track c /\
        quality_rank track < quality_rank c /\
        (forall c', In c' cands -> same_song track c' ->
                    quality_rank c' <= quality_rank c) /\
        (forall c', In c' pre -> same_song track c' ->
                    quality_rank c' < quality_rank c)
  | None =>
      forall c', In c' cands -> same_song track c' ->
                 quality_rank c' <= quality_rank track
  end.
Proof.
  intros Hsearch. unfold search_better_version. rewrite Hsearch.
  fold (artist_name track). fold (title_of track).
  destruct (consider_all track cands None (quality_rank track)
              (QUALITY_RANK_nonneg _))
    as [[-> Hall]|(pre & c & post & E & -> & S1 & L1 & A1 & P1)].
  - exact Hall.
  - cbn [fst]. exists pre, post. auto.
Qed.

End UpgradeSearch.

Section UpgraderFacts.

Variable W : Type.
Variable remove_track : Z -> W -> option W.
Variable add_track : Z -> W -> option W.
Variable search : string -> W -> option (list Track).

Local Abbreviation find_upgrade := (search_better_version W search).
Local Abbreviation step := (process_track W remove_track add_track search).
Local Abbreviation process := (process_tracks W remove_track add_track search).

(** C8: the swap adds the upgrade and then removes the original.  When the
    add raises, nothing is removed, the list is as it was, the failure is
    recorded and the count of improved tracks stays; when the add succeeds
    and the remove raises, the list keeps the added entry beside the
    original, no call undoes the add, the failure is recorded; either way
    the loop goes on with the next track. *)
Theorem swap_failures_leave_no_rollback
    (st : upgrader W) (track better : Track) :
  TOP_QUALITIES (get_quality track) = false ->
  find_upgrade (remote st) track = Some better ->
  (add_track (id better) (remote st) = None ->
     step st track =
     {| remote := remote st; improved := improved st;
        skipped_top := skipped_top st; log_entries := log_entries st;
        errors := errors st ++ [ADD_FAIL track better];
        calls := calls st ++ [Search (search_query track); Add (id better)] |}) /\
  (forall w1, add_track (id better) (remote st) = Some w1 ->
     remove_track (id track) w1 = None ->
     step st track =
     {| remote := w1; improved := improved st;
        skipped_top := skipped_top st; log_entries := log_entries st;
        errors := errors st ++ [REMOVE_FAIL track];
        calls := calls st ++ [Search (search_query track); Add (id better);
                              Remove (id track)] |}) /\
  (forall rest, process (track :: rest) st = process rest (step st track)).
Proof.
  intros Htop Hbetter. split; [|split].
  - intros Hadd. unfold process_track. rewrite Htop, Hbetter, Hadd.
    now rewrite <- app_assoc.
  - intros w1 Hadd Hrem. unfold process_track.
    rewrite Htop, Hbetter, Hadd, Hrem. now rewrite <- !app_assoc.
  - reflexivity.
Qed.

(** C9: a track of quality HI_RES or HI_RES_LOSSLESS is skipped: no call is
    made, the list and the count of improved tracks are as before, only the
    count of skipped tracks grows; so a HI_RES track, of rank 4, is never
    looked up although rank 5 exists. *)
Theorem top_two_tiers_are_skipped (st : upgrader W) (track : Track) :
  get_quality track = "HI_RES"%string \/
  get_quality track = "HI_RES_LOSSLESS"%string ->
  step st track =
  {| remote := remote st; improved := improved st;
     skipped_top := S (skipped_top st); log_entries := log_entries st;
     errors := errors st; calls := calls st |} /\
  (get_quality track = "HI_RES"%string -> quality_rank track = 4) /\
  (get_quality track = "HI_RES_LOSSLESS"%string -> quality_rank track = 5).
Proof.
  intros Hq. split; [|split].
  - unfold process_track. destruct Hq as [-> | ->]; reflexivity.
  - unfold quality_rank. intros ->. reflexivity.
  - unfold quality_rank. intros ->. reflexivity.
Qed.

End UpgraderFacts.

Lemma upgrade_is_first_best_exact_match_witness :
  Demo.search Demo.catalog (search_query Demo.held) [Demo.held] = Some Demo.catalog /\
  search_better_version (list Track) (Demo.search Demo.catalog) [Demo.held] Demo.held
  = Some (Demo.track 22 "EAGLES" "Hotel California" "Hotel California" "LOSSLESS") /\
  match search_better_version (list Track) (Demo.search Demo.catalog)
          [Demo.held] Demo.held with
  | Some c =>
      exists pre post,
        Demo.catalog = pre ++ c :: post /\
        same_song Demo.held c /\
        quality_rank Demo.held < quality_rank c /\
        (forall c', In c' Demo.catalog -> same_song Demo.held c' ->
                    quality_rank c' <= quality_rank c) /\
        (forall c', In c' pre -> same_song Demo.held c' ->
                    quality_rank c' < quality_rank c)
  | None =>
      forall c', In c' Demo.catalog -> same_song Demo.held c' ->
                 quality_rank c' <= quality_rank Demo.held
  end.
Proof.
  split; [reflexivity|]. split; [vm_compute; reflexivity|].
  exact (upgrade_is_first_best_exact_match (list Track) (Demo.search Demo.catalog)
           [Demo.held] Demo.held Demo.catalog eq_refl).
Defined.

Lemma swap_failures_leave_no_rollback_witness :
  process_track (list Track) (Demo.remove_track []) (Demo.add_track [22] Demo.catalog)
    (Demo.search Demo.catalog) (upgrader_init [Demo.held]) Demo.held
  = {| remote := [Demo.held]; improved := 0; skipped_top := 0; log_entries := [];
       errors := [ADD_FAIL Demo.held
                    (Demo.track 22 "EAGLES" "Hotel California" "Hotel California"
                                "LOSSLESS")];
       calls := [Search (search_query Demo.held); Add 22] |} /\
  process_track (list Track) (Demo.remove_track [10]) (Demo.add_track [] Demo.catalog)
    (Demo.search Demo.catalog) (upgrader_init [Demo.held]) Demo.held
  = {| remote := [Demo.held;
                  Demo.track 22 "EAGLES" "Hotel California" "Hotel California"
                             "LOSSLESS"];
       improved := 0; skipped_top := 0; log_entries := [];
       errors := [REMOVE_FAIL Demo.held];
       calls := [Search (search_query Demo.held); Add 22; Remove 10] |}.
Proof.
  split.
  - refine (proj1 (swap_failures_leave_no_rollback (list Track)
              (Demo.remove_track []) (Demo.add_track [22] Demo.catalog)
              (Demo.search Demo.catalog) (upgrader_init [Demo.held]) Demo.held
              (Demo.track 22 "EAGLES" "Hotel California" "Hotel California" "LOSSLESS")
              _ _) _).
    + vm_compute; reflexivity.
    + vm_compute; reflexivity.
    + vm_compute; reflexivity.
  - refine (proj1 (proj2 (swap_failures_leave_no_rollback (list Track)
              (Demo.remove_track [10]) (Demo.add_track [] Demo.catalog)
              (Demo.search Demo.catalog) (upgrader_init [Demo.held]) Demo.held
              (Demo.track 22 "EAGLES" "Hotel California" "Hotel California" "LOSSLESS")
              _ _)) _ _ _).
    + vm_compute; reflexivity.
    + vm_compute; reflexivity.
    + vm_compute; reflexivity.
    + vm_compute; reflexivity.
Defined.

Lemma top_two_tiers_are_skipped_witness :
  get_quality (Demo.track 30 "Eagles" "Desperado" "Desperado" "hi_res")
    = "HI_RES"%string /\
  process_track (list Track) (Demo.remove_track []) (Demo.add_track [] Demo.catalog)
    (Demo.search Demo.catalog)
    (upgrader_init [Demo.track 30 "Eagles" "Desperado" "Desperado" "hi_res"])
    (Demo.track 30 "Eagles" "Desperado" "Desperado" "hi_res")
  = {| remote := [Demo.track 30 "Eagles" "Desperado" "Desperado" "hi_res"];
       improved := 0; skipped_top := 1; log_entries := []; errors := [];
       calls := [] |}.
Proof.
  assert (get_quality (Demo.track 30 "Eagles" "Desperado" "Desperado" "hi_res")
          = "HI_RES"%string) as H by (vm_compute; reflexivity).
  split; [exact H|].
  exact (proj1 (top_two_tiers_are_skipped (list Track) (Demo.remove_track [])
                  (Demo.add_track [] Demo.catalog) (Demo.search Demo.catalog)
                  (upgrader_init [Demo.track 30 "Eagles" "Desperado" "Desperado" "hi_res"])
                  (Demo.track 30 "Eagles" "Desperado" "Desperado" "hi_res")
                  (or_introl H))).
Defined.

(** ** More on the grouper *)

Lemma same_key_cons (k : group_key) (t : Track) (l : list Track) :
  same_key k (t :: l) =
  if key_eqb (track_key t) k then t :: same_key k l else same_key k l.
Proof. reflexivity. Qed.

Lemma same_key_nil_iff (k : group_key) (l : list Track) :
  same_key k l = [] <-> ~ In k (map track_key l).
Proof.
  induction l as [|t l IH]; [simpl; tauto|].
  rewrite same_key_cons. cbn [map In].
  destruct (key_eqb (track_key t) k) eqn:E.
  - apply key_eqb_eq in E. split; [discriminate|]. intros N. elim N. now left.
  - rewrite IH. split; [|tauto]. intros N [H|H]; [|tauto].
    subst k. now rewrite key_eqb_refl in E.
Qed.

Lemma keys_distinct_iff (l : list Track) :
  (forall k, (length (same_key k l) <= 1)%nat) <-> List.NoDup (map track_key l).
Proof.
  induction l as [|t l IH]; cbn [map].
  - split; [constructor|]. intros _ k. simpl. lia.
  - split.
    + intros H. constructor.
      * apply same_key_nil_iff. specialize (H (track_key t)).
        rewrite same_key_cons, key_eqb_refl in H. cbn [length] in H.
        destruct (same_key (track_key t) l); [reflexivity|simpl in H; lia].
      * apply IH. intros k. specialize (H k). rewrite same_key_cons in H.
        destruct (key_eqb (track_key t) k); cbn [length] in H; lia.
    + intros H k. inversion H as [|? ? Hn Hd]; subst.
      rewrite same_key_cons. destruct (key_eqb (track_key t) k) eqn:E.
      * apply key_eqb_eq in E. subst k.
        apply same_key_nil_iff in Hn. rewrite Hn. simpl. lia.
      * now apply IH.
Qed.

Lemma find_duplicates_nil_iff (l : list Track) :
  find_duplicates l = [] <-> forall k, (length (same_key k l) <= 1)%nat.
Proof.
  split.
  - intros E k. destruct (Nat.le_gt_cases (length (same_key k l)) 1) as [H|H];
      [exact H|].
    assert (In (k, sort_by sort_key (same_key k l)) (find_duplicates l)) as Hin
      by (apply find_duplicates_spec; split; [lia|reflexivity]).
    rewrite E in Hin. destruct Hin.
  - intros H. destruct (find_duplicates l) as [|[k g] rest] eqn:E; [reflexivity|].
    assert (In (k, g) (find_duplicates l)) as Hin by (rewrite E; now left).
    apply find_duplicates_spec in Hin. destruct Hin as [Hlen _].
    specialize (H k). lia.
Qed.

(** X1: the grouper reports nothing exactly when no two tracks share a
    normalised (artist, title) key. *)
Theorem no_duplicates_iff_keys_distinct (tracks : list Track) :
  find_duplicates tracks = [] <-> List.NoDup (map track_key tracks).
Proof. rewrite find_duplicates_nil_iff. apply keys_distinct_iff. Qed.

Lemma StronglySorted_weaken {A : Type} (R S : A -> A -> Prop) (l : list A) :
  (forall x y, R x y -> S x y) -> StronglySorted R l -> StronglySorted S l.
Proof.
  intros HRS. induction 1 as [|x l Hs IH Hx]; constructor; [exact IH|].
  rewrite List.Forall_forall in Hx |- *. auto.
Qed.

(** X2: every group the grouper returns is in order from first to last,
    each track preferred to or tied with all that follow; it has at least
    two tracks, all from the input and all under the key of the group. *)
Theorem groups_are_sorted_best_first
    (tracks : list Track) (k : group_key) (g : list Track) :
  In (k, g) (find_duplicates tracks) ->
  StronglySorted preferred_or_tied g /\
  (2 <= length g)%nat /\
  (forall t, In t g -> In t tracks /\ track_key t = k).
Proof.
  intros Hin. apply find_duplicates_spec in Hin. destruct Hin as [Hlen ->].
  split; [|split].
  - apply (StronglySorted_weaken (key_le sort_key)).
    + apply key_le_preferred_or_tied.
    + apply sort_by_sorted.
  - rewrite (Permutation_length (sort_by_perm sort_key _)). exact Hlen.
  - intros t Ht.
    apply (Permutation_in _ (sort_by_perm sort_key _)) in Ht.
    apply List.filter_In in Ht. destruct Ht as [Ht E].
    apply key_eqb_eq in E. auto.
Qed.

Lemma groups_are_sorted_best_first_witness :
  In (Demo.hotel_california,
      [ Demo.track 11 "Eagles" "Hotel California" "Hotel California" "LOSSLESS";
        Demo.track 10 "Eagles" "Hotel California (Remastered 2013)" "Hotel California" "HIGH";
        Demo.track 13 "eagles" "Hotel California - Live" "Hell Freezes Over" "HIGH" ])
     (find_duplicates Demo.eagles) /\
  StronglySorted preferred_or_tied
    [ Demo.track 11 "Eagles" "Hotel California" "Hotel California" "LOSSLESS";
      Demo.track 10 "Eagles" "Hotel California (Remastered 2013)" "Hotel California" "HIGH";
      Demo.track 13 "eagles" "Hotel California - Live" "Hell Freezes Over" "HIGH" ].
Proof.
  assert (In (Demo.hotel_california,
      [ Demo.track 11 "Eagles" "Hotel California" "Hotel California" "LOSSLESS";
        Demo.track 10 "Eagles" "Hotel California (Remastered 2013)" "Hotel California" "HIGH";
        Demo.track 13 "eagles" "Hotel California - Live" "Hell Freezes Over" "HIGH" ])
     (find_duplicates Demo.eagles)) as H
    by (vm_compute; left; reflexivity).
  split; [exact H|].
  exact (proj1 (groups_are_sorted_best_first _ _ _ H)).
Defined.

(** The dictionary of the grouper: one entry for each key that occurs, the
    lengths of the entries adding up to the number of tracks. *)
Lemma list_sum_cons (x : nat) (l : list nat) :
  list_sum (x :: l) = (x + list_sum l)%nat.
Proof. reflexivity. Qed.

Lemma group_append_length (k : group_key) (t : Track)
    (g : list (group_key * list Track)) :
  list_sum (map (fun kv => length (snd kv)) (group_append k t g)) =
  S (list_sum (map (fun kv => length (snd kv)) g)).
Proof.
  induction g as [|[k0 v] g IH]; [reflexivity|].
  cbn [group_append]. destruct (key_eqb k k0); cbn [map snd]; rewrite !list_sum_cons.
  - rewrite length_app. cbn [length]. lia.
  - rewrite IH. lia.
Qed.

Lemma build_groups_length (tracks : list Track) :
  list_sum (map (fun kv => length (snd kv)) (build_groups tracks)) = length tracks.
Proof.
  unfold build_groups.
  assert (forall g,
            list_sum (map (fun kv => length (snd kv))
                          (fold_left (fun groups t => group_append (track_key t) t groups)
                                     tracks g)) =
            (list_sum (map (fun kv => length (snd kv)) g) + length tracks)%nat) as H.
  { induction tracks as [|t tracks IH]; intros g; cbn [fold_left length].
    - lia.
    - rewrite IH, group_append_length. lia. }
  rewrite H. reflexivity.
Qed.

Lemma total_to_remove_filter (G : list (group_key * list Track)) :
  (forall kv, In kv G -> snd kv <> []) ->
  (total_to_remove
     (map (fun kv => (fst kv, sort_by sort_key (snd kv)))
          (List.filter (fun kv => (1 <? length (snd kv))%nat) G))
   + length G)%nat
  = list_sum (map (fun kv => length (snd kv)) G).
Proof.
  unfold total_to_remove.
  induction G as [|[k v] G IH]; intros Hne; [reflexivity|].
  assert (v <> []) as Hv by (apply (Hne (k, v)); now left).
  assert (forall kv, In kv G -> snd kv <> []) as Hne'
    by (intros kv Hkv; apply Hne; now right).
  specialize (IH Hne').
  change (length ((k, v) :: G)) with (S (length G)).
  cbn [List.filter snd]. destruct (Nat.ltb_spec 1 (length v)).
  - cbn [map snd fst]; rewrite !list_sum_cons.
    rewrite (Permutation_length (sort_by_perm sort_key v)). lia.
  - cbn [map snd]; rewrite ?list_sum_cons.
    destruct v as [|x v]; [congruence|]. cbn [length] in *. lia.
Qed.

Lemma build_groups_keys (tracks : list Track) (k : group_key) :
  In k (map fst (build_groups tracks)) <-> In k (map track_key tracks).
Proof.
  split.
  - intros H. apply in_map_iff in H. destruct H as [[k0 v] [E Hin]].
    simpl in E. subst k0. apply build_groups_spec in Hin.
    destruct Hin as [-> Hne].
    destruct (same_key k tracks) as [|t rest] eqn:E; [congruence|].
    assert (In t (same_key k tracks)) as Ht by (rewrite E; now left).
    apply List.filter_In in Ht. destruct Ht as [Ht Hk].
    apply key_eqb_eq in Hk. subst k. now apply in_map.
  - intros H. change k with (fst (k, same_key k tracks)). apply in_map.
    apply build_groups_spec. split; [reflexivity|].
    intros E. apply same_key_nil_iff in E. contradiction.
Qed.

(** X3: the copies a round is to remove and the distinct keys add up to
    the tracks: [total] is the number of tracks less the number of distinct
    normalised keys, the dictionary having one entry for each key. *)
Theorem total_to_remove_counts_surplus (tracks : list Track) :
  (total_to_remove (find_duplicates tracks) + length (build_groups tracks))%nat
    = length tracks /\
  List.NoDup (map fst (build_groups tracks)) /\
  (forall k, In k (map fst (build_groups tracks)) <-> In k (map track_key tracks)).
Proof.
  split; [|split].
  - unfold find_duplicates. rewrite total_to_remove_filter.
    + apply build_groups_length.
    + intros [k v] Hin. apply build_groups_spec in Hin. simpl. tauto.
  - destruct (build_groups_inv tracks [] []) as [Hd _]; simpl.
    + constructor.
    + reflexivity.
    + exact Hd.
  - apply build_groups_keys.
Qed.

Lemma same_key_filter (k : group_key) (p : Track -> bool) (l : list Track) :
  same_key k (List.filter p l) = List.filter p (same_key k l).
Proof.
  induction l as [|t l IH]; [reflexivity|].
  cbn [List.filter]. rewrite same_key_cons.
  destruct (p t) eqn:Ep; [rewrite same_key_cons|];
    destruct (key_eqb (track_key t) k); cbn [List.filter];
    rewrite ?Ep, IH; reflexivity.
Qed.

Lemma filter_length_le {A : Type} (p : A -> bool) (l : list A) :
  (length (List.filter p l) <= length l)%nat.
Proof.
  induction l as [|x l IH]; simpl; [lia|]. destruct (p x); simpl; lia.
Qed.

Lemma filter_none {A : Type} (p : A -> bool) (l : list A) :
  (forall x, In x l -> p x = false) -> List.filter p l = [].
Proof.
  induction l as [|x l IH]; intros H; [reflexivity|].
  cbn [List.filter]. rewrite (H x) by now left. apply IH.
  intros y Hy. apply H. now right.
Qed.

Lemma filter_perm_length {A : Type} (p : A -> bool) (l1 l2 : list A) :
  Permutation l1 l2 -> length (List.filter p l1) = length (List.filter p l2).
Proof.
  induction 1 as [|x l1 l2 _ IH|x y l|l1 l2 l3 _ IH1 _ IH2]; simpl.
  - reflexivity.
  - destruct (p x); simpl; lia.
  - destruct (p x), (p y); reflexivity.
  - lia.
Qed.

(** X4: once every copy a round names has been removed by its identifier,
    the tracks that are left hold no duplicate: the grouper reports nothing
    on them. *)
Theorem survivors_have_no_duplicates (tracks : list Track) :
  find_duplicates (survivors tracks) = [].
Proof.
  apply find_duplicates_nil_iff. intros k. unfold survivors.
  rewrite same_key_filter.
  set (p := fun t => negb (existsb (fun e => id e =? id t) (extras_of tracks))).
  destruct (Nat.le_gt_cases (length (same_key k tracks)) 1) as [Hle|Hgt].
  - pose proof (filter_length_le p (same_key k tracks)). lia.
  - destruct (sort_by sort_key (same_key k tracks)) as [|keeper rest] eqn:E.
    + pose proof (Permutation_length (sort_by_perm sort_key (same_key k tracks))) as L.
      rewrite E in L. simpl in L. lia.
    + rewrite <- (filter_perm_length p _ _ (sort_by_perm sort_key (same_key k tracks))).
      rewrite E. cbn [List.filter].
      rewrite (filter_none p rest).
      * destruct (p keeper); simpl; lia.
      * intros t Ht. unfold p. apply negb_false_iff. apply existsb_exists.
        exists t. split; [|apply Z.eqb_refl].
        unfold extras_of. apply in_flat_map. exists (k, keeper :: rest).
        split; [|exact Ht].
        apply find_duplicates_spec. split; [lia|now rewrite E].
Qed.

(** ** More on the cleaner *)

Section CleanerRounds.

Variable W : Type.
Variable parse_track : track_data -> option (option Track).
Variable favorites : W -> Z -> response.
Variable remove_track : Z -> W -> option W.

Local Abbreviation one_round :=
  (remove_duplicates_round W parse_track favorites remove_track).
Local Abbreviation rounds_loop :=
  (clean_loop W parse_track favorites remove_track).

(** What the loop over the copies of a group adds to the two logs. *)
Lemma remove_extras_log (round_num : nat) (keeper : Track)
    (extras : list Track) (n n' : nat) (st st' : cleaner W) :
  fold_left (remove_extra W remove_track round_num keeper) extras (Done (n, st))
    = Done (n', st') ->
  exists rs es,
    all_removed st' = all_removed st ++ rs /\
    all_errors st' = all_errors st ++ es /\
    n' = (n + length rs)%nat /\
    Permutation (map rem_track rs ++ es) extras.
Proof.
  revert n st. induction extras as [|t extras IH]; intros n st; cbn [fold_left].
  - intros E. injection E as <- <-.
    exists [], []. rewrite !app_nil_r. repeat split; auto.
  - rewrite remove_extra_done. destruct (t_label t);
      [|rewrite remove_extras_raised; discriminate].
    destruct (remove_track (id t) (world st)) as [w'|]; intros E;
      apply IH in E; destruct E as (rs & es & H1 & H2 & H3 & H4);
      cbn [all_removed all_errors] in H1, H2.
    + exists (mkRemoval round_num t keeper :: rs), es.
      rewrite H1, H2, H3. cbn [map app rem_track length].
      rewrite <- app_assoc.
      split; [reflexivity|]. split; [reflexivity|]. split; [lia|].
      now constructor.
    + exists rs, (t :: es).
      rewrite H1, H2, H3. rewrite <- app_assoc.
      split; [reflexivity|]. split; [reflexivity|]. split; [reflexivity|].
      apply Permutation_sym, Permutation_cons_app. now apply Permutation_sym.
Qed.

Lemma remove_groups_log (round_num : nat)
    (groups : list (group_key * list Track)) (n n' : nat) (st st' : cleaner W) :
  fold_left (remove_group W remove_track round_num) groups (Done (n, st))
    = Done (n', st') ->
  exists rs es,
    all_removed st' = all_removed st ++ rs /\
    all_errors st' = all_errors st ++ es /\
    n' = (n + length rs)%nat /\
    Permutation (map rem_track rs ++ es)
                (flat_map (fun kv => tl (snd kv)) groups).
Proof.
  revert n st. induction groups as [|[k g] groups IH]; intros n st; cbn [fold_left].
  - intros E. injection E as <- <-.
    exists [], []. rewrite !app_nil_r. repeat split; auto.
  - rewrite remove_group_done. destruct g as [|keeper extras]; [apply IH|].
    destruct (fold_left (remove_extra W remove_track round_num keeper) extras
                        (Done (n, st))) as [[n1 st1]|st1] eqn:E1;
      [|rewrite remove_groups_raised; discriminate].
    apply remove_extras_log in E1. destruct E1 as (rs1 & es1 & A1 & A2 & A3 & A4).
    intros E. apply IH in E. destruct E as (rs2 & es2 & B1 & B2 & B3 & B4).
    exists (rs1 ++ rs2), (es1 ++ es2).
    rewrite B1, B2, B3, A1, A2, A3, <- !app_assoc, length_app.
    split; [reflexivity|]. split; [reflexivity|]. split; [lia|].
    cbn [flat_map snd tl]. rewrite map_app, <- app_assoc.
    rewrite <- A4, <- B4, <- app_assoc. apply Permutation_app_head.
    rewrite !app_assoc. apply Permutation_app_tail. apply Permutation_app_comm.
Qed.

(** X5: a round over tracks that all have an artist or a name tries every
    copy it names once: the tracks it logs as removed and the tracks it logs
    as failed are, together, the copies of all groups, and the count it
    returns is the number it removed. *)
Theorem round_tries_every_copy_once
    (fuel round_num eliminated : nat) (st st' : cleaner W) (tracks : list Track) :
  (forall t, In t tracks -> labelled t) ->
  get_all_tracks parse_track (favorites (world st)) fuel = Some tracks ->
  one_round fuel round_num st = Some (Done (eliminated, st')) ->
  exists rs es,
    all_removed st' = all_removed st ++ rs /\
    all_errors st' = all_errors st ++ es /\
    eliminated = length rs /\
    Permutation (map rem_track rs ++ es) (extras_of tracks).
Proof.
  intros _ Htracks Hround. unfold remove_duplicates_round in Hround.
  rewrite Htracks in Hround. unfold extras_of.
  destruct (find_duplicates tracks) as [|g groups].
  - injection Hround as <- <-. exists [], []. rewrite !app_nil_r. repeat split; auto.
  - injection Hround as Hr.
    apply (remove_groups_log round_num (g :: groups)) in Hr.
    destruct Hr as (rs & es & H1 & H2 & H3 & H4).
    exists rs, es. repeat split; auto.
Qed.

Lemma round_log_grows (fuel round_num eliminated : nat) (st st' : cleaner W) :
  one_round fuel round_num st = Some (Done (eliminated, st')) ->
  exists rs, all_removed st' = all_removed st ++ rs /\ eliminated = length rs.
Proof.
  intros Hround. unfold remove_duplicates_round in Hround.
  destruct (get_all_tracks parse_track (favorites (world st)) fuel) as [tracks|];
    [|discriminate].
  destruct (find_duplicates tracks) as [|g groups].
  - injection Hround as <- <-. exists []. now rewrite app_nil_r.
  - injection Hround as Hr.
    apply (remove_groups_log round_num (g :: groups)) in Hr.
    destruct Hr as (rs & es & H1 & _ & H3 & _).
    exists rs. auto.
Qed.

(** X6: with a parser whose tracks have an artist or a name, when the
    loop of the cleaner ends the number of the last round is at least the
    number of the first, the log of removals has only grown, and every
    round but the last has added at least one line to it. *)
Theorem every_round_but_the_last_removes
    (rounds fuel first last : nat) (st st' : cleaner W) :
  (forall td t, parse_track td = Some (Some t) -> labelled t) ->
  rounds_loop rounds fuel first st = Some (Done (last, st')) ->
  (first <= last)%nat /\
  exists rs,
    all_removed st' = all_removed st ++ rs /\
    (last - first <= length rs)%nat.
Proof.
  intros _.
  revert first st. induction rounds as [|rounds IH]; intros first st; cbn [clean_loop];
    [discriminate|].
  destruct (one_round fuel first st) as [[[eliminated st1]|st1]|] eqn:Hround;
    [|discriminate|discriminate].
  destruct (round_log_grows _ _ _ _ _ Hround) as (rs1 & E1 & L1).
  destruct (Nat.eqb_spec eliminated 0) as [Hz|Hnz].
  - intros E. injection E as <- <-. split; [lia|].
    exists rs1. split; [exact E1|lia].
  - intros Hloop. destruct (IH _ _ Hloop) as (Hle & rs2 & E2 & L2).
    split; [lia|]. exists (rs1 ++ rs2).
    rewrite E2, E1, <- app_assoc, length_app. split; [reflexivity|lia].
Qed.

(** When and where the exception leaves the loops. *)
Lemma remove_extras_raise_iff (round_num : nat) (keeper : Track)
    (extras : list Track) (n : nat) (st : cleaner W) :
  (exists st', fold_left (remove_extra W remove_track round_num keeper) extras
                         (Done (n, st)) = Raised st')
  <-> (exists t, In t extras /\ t_label t = None).
Proof.
  revert n st. induction extras as [|t extras IH]; intros n st; cbn [fold_left].
  - split; [intros (st' & E); discriminate|intros (t & [] & _)].
  - rewrite remove_extra_done. destruct (t_label t) eqn:Et.
    + assert ((exists t0, In t0 (t :: extras) /\ t_label t0 = None)
              <-> (exists t0, In t0 extras /\ t_label t0 = None)) as Htail.
      { split; intros (t0 & Hin & E0); exists t0; (split; [|exact E0]).
        - destruct Hin as [<-|Hin]; [congruence|exact Hin].
        - now right. }
      rewrite Htail.
      destruct (remove_track (id t) (world st)); apply IH.
    + rewrite remove_extras_raised. split.
      * intros _. exists t. split; [now left|exact Et].
      * intros _. exists st. reflexivity.
Qed.

Lemma remove_groups_raise_iff (round_num : nat)
    (groups : list (group_key * list Track)) (n : nat) (st : cleaner W) :
  (exists st', fold_left (remove_group W remove_track round_num) groups
                         (Done (n, st)) = Raised st')
  <-> (exists t, In t (flat_map (fun kv => tl (snd kv)) groups) /\ t_label t = None).
Proof.
  revert n st. induction groups as [|[k g] groups IH]; intros n st; cbn [fold_left].
  - split; [intros (st' & E); discriminate|intros (t & [] & _)].
  - rewrite remove_group_done. cbn [flat_map snd].
    assert (forall l : list Track,
              (exists t, In t (l ++ flat_map (fun kv => tl (snd kv)) groups)
                         /\ t_label t = None)
              <-> (exists t, In t l /\ t_label t = None) \/
                  (exists t, In t (flat_map (fun kv => tl (snd kv)) groups)
                             /\ t_label t = None)) as Hsplit.
    { intros l. split.
      - intros (t & Hin & E). apply in_app_or in Hin.
        destruct Hin as [Hin|Hin]; [left|right]; exists t; auto.
      - intros [(t & Hin & E)|(t & Hin & E)]; exists t;
          (split; [apply in_or_app; auto|exact E]). }
    rewrite Hsplit. destruct g as [|keeper extras]; cbn [tl].
    + rewrite IH. split; [now right|].
      intros [(t & [] & _)|H]; exact H.
    + pose proof (remove_extras_raise_iff round_num keeper extras n st) as Hx.
      destruct (fold_left (remove_extra W remove_track round_num keeper) extras
                          (Done (n, st))) as [[n1 st1]|st1].
      * rewrite IH. split; [now right|].
        intros [H|H]; [|exact H].
        apply Hx in H. destruct H as (st' & E). discriminate.
      * rewrite remove_groups_raised. split.
        -- intros _. left. apply Hx. exists st1. reflexivity.
        -- intros _. exists st1. reflexivity.
Qed.

(** X28: a round dies of the label of a copy exactly when one of the
    copies it names has neither artist nor name; what it has removed and
    logged by then stays, and the loop of [main] ends with the exception
    there. *)
Theorem round_raises_iff_unlabelled_copy
    (rounds fuel round_num : nat) (st : cleaner W) (tracks : list Track) :
  get_all_tracks parse_track (favorites (world st)) fuel = Some tracks ->
  ((exists st', one_round fuel round_num st = Some (Raised st'))
   <-> (exists t, In t (extras_of tracks) /\ ~ labelled t)) /\
  (forall st',
     one_round fuel round_num st = Some (Raised st') ->
     rounds_loop (S rounds) fuel round_num st = Some (Raised st')).
Proof.
  intros Htracks. split.
  - assert ((exists t, In t (extras_of tracks) /\ ~ labelled t)
            <-> (exists t, In t (extras_of tracks) /\ t_label t = None)) as Hl.
    { split; intros (t & Hin & H); exists t; (split; [exact Hin|]).
      - destruct (t_label t) eqn:E; [|reflexivity].
        exfalso. apply H. apply labelled_t_label. congruence.
      - intros Hlab. apply labelled_t_label in Hlab. contradiction. }
    rewrite Hl. unfold remove_duplicates_round, extras_of. rewrite Htracks.
    destruct (find_duplicates tracks) as [|g groups].
    + split; [intros (st' & E); discriminate|intros (t & [] & _)].
    + rewrite <- (remove_groups_raise_iff round_num (g :: groups) 0 st).
      split; intros (st' & E); exists st'; congruence.
  - intros st' Hround. cbn [clean_loop]. rewrite Hround. reflexivity.
Qed.

End CleanerRounds.

(** The round removes the copy of "Song", then comes to a copy without
    artist and name and dies there; so does the loop. *)
Lemma round_raises_iff_unlabelled_copy_witness :
  remove_duplicates_round (list Track) Sample.parse_fields Demo.favorites
    (Demo.remove_track []) 5 1 Untitled.start = Some (Raised Untitled.left_at) /\
  (exists t, In t (extras_of Untitled.favourites) /\ ~ labelled t) /\
  clean_loop (list Track) Sample.parse_fields Demo.favorites
    (Demo.remove_track []) 9 5 1 Untitled.start = Some (Raised Untitled.left_at).
Proof.
  assert (remove_duplicates_round (list Track) Sample.parse_fields Demo.favorites
            (Demo.remove_track []) 5 1 Untitled.start
          = Some (Raised Untitled.left_at)) as Hr
    by (vm_compute; reflexivity).
  destruct (round_raises_iff_unlabelled_copy (list Track) Sample.parse_fields
              Demo.favorites (Demo.remove_track []) 8 5 1 Untitled.start
              Untitled.favourites ltac:(vm_compute; reflexivity))
    as [Hiff Hloop].
  split; [exact Hr|].
  split; [apply Hiff; eexists; exact Hr|].
  apply Hloop. exact Hr.
Defined.

Lemma round_tries_every_copy_once_witness :
  exists rs es,
    [mkRemoval 1 (Demo.track 10 "Eagles" "Hotel California (Remastered 2013)"
                             "Hotel California" "HIGH")
                 (Demo.track 11 "Eagles" "Hotel California" "Hotel California"
                             "LOSSLESS")]
      = [] ++ rs /\
    [Demo.track 13 "eagles" "Hotel California - Live" "Hell Freezes Over" "HIGH"]
      = [] ++ es /\
    1%nat = length rs /\
    Permutation (map rem_track rs ++ es) (extras_of Demo.eagles).
Proof.
  exact (round_tries_every_copy_once (list Track) Demo.parse_track Demo.favorites
           (Demo.remove_track [13]) 5 1 1
           {| world := Demo.eagles; all_removed := []; all_errors := [] |}
           {| world := List.filter (fun t => negb (id t =? 10)) Demo.eagles;
              all_removed :=
                [mkRemoval 1 (Demo.track 10 "Eagles" "Hotel California (Remastered 2013)"
                                         "Hotel California" "HIGH")
                             (Demo.track 11 "Eagles" "Hotel California" "Hotel California"
                                         "LOSSLESS")];
              all_errors :=
                [Demo.track 13 "eagles" "Hotel California - Live" "Hell Freezes Over"
                            "HIGH"] |}
           Demo.eagles
           ltac:(intros t Ht; left;
                 repeat (destruct Ht as [<-|Ht]; [discriminate|]); destruct Ht)
           ltac:(vm_compute; reflexivity) ltac:(vm_compute; reflexivity)).
Defined.

Lemma every_round_but_the_last_removes_witness :
  (1 <= 2)%nat /\
  exists rs,
    [mkRemoval 1 (Demo.track 2 "Prince" "1999" "1999" "LOSSLESS")
                 (Demo.track 1 "Prince" "Live" "One Nite Alone" "LOSSLESS")]
      = [] ++ rs /\
    (2 - 1 <= length rs)%nat.
Proof.
  exact (every_round_but_the_last_removes (list Track) Demo.parse_track
           Demo.favorites (Demo.remove_track []) 9 5 1 2
           {| world := Demo.live_and_1999; all_removed := []; all_errors := [] |}
           {| world := [Demo.track 1 "Prince" "Live" "One Nite Alone" "LOSSLESS"];
              all_removed :=
                [mkRemoval 1 (Demo.track 2 "Prince" "1999" "1999" "LOSSLESS")
                             (Demo.track 1 "Prince" "Live" "One Nite Alone" "LOSSLESS")];
              all_errors := [] |}
           ltac:(intros td t Hparse; vm_compute in Hparse; discriminate Hparse)
           ltac:(vm_compute; reflexivity)).
Defined.

(** ** More on the upgrader *)

Section UpgraderCounts.

Variable W : Type.
Variable remove_track : Z -> W -> option W.
Variable add_track : Z -> W -> option W.
Variable search : string -> W -> option (list Track).

Local Abbreviation one_track := (process_track W remove_track add_track search).
Local Abbreviation all_tracks_step := (process_tracks W remove_track add_track search).

Lemma count_calls_app (p : call -> bool) (a b : list call) :
  count_calls p (a ++ b) = (count_calls p a + count_calls p b)%nat.
Proof. unfold count_calls. now rewrite List.filter_app, length_app. Qed.

Lemma process_track_balanced (st : upgrader W) (track : Track) :
  balanced [track] st (one_track st track).
Proof.
  unfold balanced, process_track. cbn [List.filter length]. unfold is_top.
  destruct (TOP_QUALITIES (get_quality track)); cbn [length].
  - cbn [skipped_top calls improved log_entries errors]. lia.
  - destruct (search_better_version W search (remote st) track) as [better|].
    + destruct (add_track (id better) (remote st)) as [w1|].
      * destruct (remove_track (id track) w1);
          cbn [skipped_top calls improved log_entries errors];
          rewrite ?count_calls_app, ?length_app; cbn; lia.
      * cbn [skipped_top calls improved log_entries errors];
          rewrite ?count_calls_app, ?length_app; cbn; lia.
    + cbn [skipped_top calls improved log_entries errors];
        rewrite ?count_calls_app, ?length_app; cbn; lia.
Qed.

(** X7: the books of the upgrader balance: every track is either skipped
    as top tier or searched for once; every improvement has its log entry;
    every add ends as an improvement or as an error; there are no more adds
    than searches and no more removes than adds. *)
Theorem upgrader_books_balance (tracks : list Track) (st : upgrader W) :
  balanced tracks st (all_tracks_step tracks st).
Proof.
  unfold process_tracks. revert st.
  induction tracks as [|t tracks IH]; intros st; cbn [fold_left].
  - unfold balanced. cbn [List.filter length]. lia.
  - pose proof (process_track_balanced st t) as H1.
    pose proof (IH (one_track st t)) as H2.
    unfold balanced in *. cbn [List.filter length] in *.
    destruct (is_top t); cbn [length] in *; lia.
Qed.

End UpgraderCounts.

Lemma upper_chr_not_lower (c : ascii) : is_lower (upper_chr c) = false.
Proof. destruct c as [[] [] [] [] [] [] [] []]; reflexivity. Qed.

Lemma upper_has_no_lower (s : string) :
  forallb (fun c => negb (is_lower c)) (chars (upper s)) = true.
Proof.
  unfold upper, chars, text. rewrite list_ascii_of_string_of_list_ascii.
  induction (list_ascii_of_string s) as [|c l IH]; [reflexivity|].
  cbn [map forallb]. now rewrite upper_chr_not_lower, IH.
Qed.

Lemma get_quality_has_no_lower (t : Track) :
  forallb (fun c => negb (is_lower c)) (chars (get_quality t)) = true.
Proof.
  unfold get_quality. destruct (audio_quality t); [apply upper_has_no_lower|].
  reflexivity.
Qed.

(** X8: the preview of the upgrader lists the qualities from best to
    worst: the key a label is sorted by is the negated rank of the tracks it
    stands for, and a quality outside the table, shown as it is, sorts
    last with rank 0. *)
Theorem distribution_is_sorted_by_rank (t : Track) :
  distribution_key (qlabel t) = - quality_rank t.
Proof.
  unfold distribution_key, qlabel, quality_rank. f_equal.
  pose proof (get_quality_has_no_lower t) as Hup.
  set (q := get_quality t) in *.
  unfold QUALITY_LABEL, QUALITY_RANK.
  repeat match goal with
         | |- context [String.eqb q ?s] =>
             destruct (String.eqb_spec q s); [reflexivity|]
         end.
  unfold label_tier.
  repeat match goal with
         | |- context [String.eqb q ?s] =>
             destruct (String.eqb_spec q s) as [E|_];
             [rewrite E in Hup; vm_compute in Hup; discriminate|]
         end.
  reflexivity.
Qed.

(** ** More on the collector *)

Lemma or_str_nonempty (x : option string) (d : string) :
  d <> ""%string -> or_str x d <> ""%string.
Proof.
  intros Hd. unfold or_str. destruct x as [s|]; [|exact Hd].
  destruct (String.eqb_spec s ""); assumption.
Qed.

(** X9: a record [session.parse_track] chokes on is not lost: the track
    is rebuilt from the raw fields with the identifier of the record, and
    its title, artist and album are never empty, a question mark standing
    in for what is missing; a title that is present is kept. *)
Theorem fallback_keeps_the_track
    (parse_track : track_data -> option (option Track))
    (td : track_data) (i : Z) :
  parse_track td = None -> td_id td = Some i ->
  exists t n a al,
    _parse_track_safe parse_track td = Some t /\
    id t = i /\
    name t = Some n /\ artist t = Some a /\ album t = Some al /\
    n <> ""%string /\ a <> ""%string /\ al <> ""%string /\
    (forall title, td_title td = Some title -> title <> ""%string -> n = title).
Proof.
  intros Hparse Hid. unfold _parse_track_safe. rewrite Hparse, Hid.
  eexists. eexists. eexists. eexists.
  split; [reflexivity|]. cbn [id name artist album].
  split; [reflexivity|]. split; [reflexivity|].
  split; [reflexivity|]. split; [reflexivity|].
  split; [apply or_str_nonempty; discriminate|].
  split; [destruct (td_artist td); [apply or_str_nonempty|]; discriminate|].
  split; [destruct (td_album td) as [[t n]|]; [apply or_str_nonempty|]; discriminate|].
  intros title Ht Hne. rewrite Ht. unfold or_opt, or_str.
  destruct (String.eqb_spec title ""); [contradiction|].
  destruct (String.eqb_spec title ""); [contradiction|reflexivity].
Qed.

Lemma fallback_keeps_the_track_witness :
  exists t n a al,
    _parse_track_safe Demo.parse_track
      {| td_id := Some 7; td_title := Some "Song"%string; td_name := None;
         td_artist := None; td_album := None;
         td_audioQuality := Some "LOW"%string; td_audio_quality := None |}
    = Some t /\
    id t = 7 /\
    name t = Some n /\ artist t = Some a /\ album t = Some al /\
    n <> ""%string /\ a <> ""%string /\ al <> ""%string /\
    (forall title, Some "Song"%string = Some title -> title <> ""%string -> n = title).
Proof.
  exact (fallback_keeps_the_track Demo.parse_track
           {| td_id := Some 7; td_title := Some "Song"%string; td_name := None;
              td_artist := None; td_album := None;
              td_audioQuality := Some "LOW"%string; td_audio_quality := None |}
           7 eq_refl eq_refl).
Defined.

Section CollectorMore.

Variable parse_track : track_data -> option (option Track).
Variable request : Z -> response.

Local Abbreviation take_item := (collect_item parse_track).
Local Abbreviation take_page := (collect_page parse_track request).
Local Abbreviation take_all := (collect_loop parse_track request).

Lemma take_all_step (fuel : nat) (st : collector) :
  take_all (S fuel) st =
  match take_page st with
  | Break why st' => Some (why, st')
  | Continue st' => take_all fuel st'
  end.
Proof. reflexivity. Qed.

(** One entry: what it adds to the tracks and to the count of ghosts. *)
Lemma take_item_grows (st : collector) (item : option track_data) :
  (exists more, all_tracks (take_item st item) = all_tracks st ++ more /\
                (length more <= if is_ghost item then 0 else 1)%nat) /\
  skipped_unavailable (take_item st item) =
    (skipped_unavailable st + if is_ghost item then 1 else 0)%nat /\
  offset (take_item st item) = offset st /\
  consecutive_empty (take_item st item) = consecutive_empty st.
Proof.
  unfold collect_item. destruct item as [td|]; cbn [is_ghost].
  - assert ((exists more, all_tracks st = all_tracks st ++ more /\
                          (length more <= 1)%nat) /\
            skipped_unavailable st = (skipped_unavailable st + 0)%nat /\
            offset st = offset st /\
            consecutive_empty st = consecutive_empty st) as Hsame.
    { split; [exists []; rewrite app_nil_r; simpl; split; [reflexivity|lia]|].
      split; [lia|]. split; reflexivity. }
    destruct (td_id td) as [i|]; [|exact Hsame].
    destruct ((i =? 0) || bool_decide (i ∈ seen_ids st)); [exact Hsame|].
    destruct (_parse_track_safe parse_track td) as [t|]; [|exact Hsame].
    cbn [all_tracks skipped_unavailable offset consecutive_empty].
    split; [eexists; split; [reflexivity|simpl; lia]|].
    split; [lia|]. split; reflexivity.
  - cbn [all_tracks skipped_unavailable offset consecutive_empty].
    split; [exists []; rewrite app_nil_r; simpl; split; [reflexivity|lia]|].
    split; [lia|]. split; reflexivity.
Qed.

Lemma take_items_grow (items : list (option track_data)) (st : collector) :
  let st' := fold_left take_item items st in
  (exists more, all_tracks st' = all_tracks st ++ more /\
                (length more + length (List.filter is_ghost items)
                 <= length items)%nat) /\
  skipped_unavailable st' =
    (skipped_unavailable st + length (List.filter is_ghost items))%nat /\
  offset st' = offset st /\
  consecutive_empty st' = consecutive_empty st.
Proof.
  revert st. induction items as [|item items IH]; intros st; cbn [fold_left].
  - cbn [List.filter length]. split; [exists []; rewrite app_nil_r; simpl; auto|].
    split; [lia|]. split; reflexivity.
  - destruct (IH (take_item st item)) as ((m2 & E2 & L2) & S2 & O2 & C2).
    destruct (take_item_grows st item) as ((m1 & E1 & L1) & S1 & O1 & C1).
    cbv zeta. rewrite E2, S2, O2, C2, E1, S1, O1, C1.
    cbn [List.filter]. destruct (is_ghost item); cbn [length] in *.
    + split; [exists (m1 ++ m2); rewrite length_app, app_assoc; split; [reflexivity|lia]|].
      split; [lia|]. split; reflexivity.
    + split; [exists (m1 ++ m2); rewrite length_app, app_assoc; split; [reflexivity|lia]|].
      split; [lia|]. split; reflexivity.
Qed.

(** What one pass of the loop does to the state it is given. *)
Lemma take_page_outcome (st : collector) :
  let items := items_at request (offset st) in
  match take_page st with
  | Continue st' =>
      offset st' = offset st + limit /\
      (exists more, all_tracks st' = all_tracks st ++ more /\
                    (length more + length (List.filter is_ghost items)
                     <= length items)%nat) /\
      skipped_unavailable st' =
        (skipped_unavailable st + length (List.filter is_ghost items))%nat
  | Break _ st' =>
      offset st' = offset st /\
      (exists more, all_tracks st' = all_tracks st ++ more /\
                    (length more + length (List.filter is_ghost items)
                     <= length items)%nat) /\
      skipped_unavailable st' =
        (skipped_unavailable st + length (List.filter is_ghost items))%nat
  end.
Proof.
  unfold collect_page, items_at.
  assert (forall s : collector, exists more,
            all_tracks s = all_tracks s ++ more /\
            (length more + length (List.filter is_ghost []) <= length (@nil (option track_data)))%nat)
    as Hnil by (intros s; exists []; rewrite app_nil_r; simpl; auto).
  destruct (request (offset st)) as [|items].
  - cbv zeta. split; [reflexivity|]. split; [apply Hnil|simpl; lia].
  - destruct items as [|item items].
    + cbv zeta.
      destruct (2 <=? consecutive_empty (set_empty (S (consecutive_empty st)) st))%nat;
        cbn [offset all_tracks skipped_unavailable set_empty next_page];
        (split; [reflexivity|]; split; [apply Hnil|simpl; lia]).
    + pose proof (take_items_grow (item :: items) (set_empty 0 st))
        as ((m & E & L) & S1 & O1 & _).
      cbv zeta in *.
      set (st1 := fold_left take_item (item :: items) (set_empty 0 st)) in *.
      cbn [all_tracks skipped_unavailable offset set_empty] in E, S1, O1.
      destruct (MAX_TRACKS <=? Z.of_nat (length (all_tracks st1)));
        cbn [offset all_tracks skipped_unavailable next_page];
        rewrite E, S1, O1; (split; [reflexivity|]; split; [|reflexivity]);
        exists m; auto.
Qed.

(** X10: the collector only ever appends: from whatever state the loop is
    in, the tracks it ends with begin with the tracks it held, and the
    count of ghosts and the offset do not go down; so a request that raises
    at some page gives up nothing of what the earlier pages brought. *)
Theorem collection_only_grows
    (fuel : nat) (st st' : collector) (why : stop) :
  take_all fuel st = Some (why, st') ->
  (exists more, all_tracks st' = all_tracks st ++ more) /\
  (skipped_unavailable st <= skipped_unavailable st')%nat /\
  offset st <= offset st'.
Proof.
  revert st. induction fuel as [|fuel IH]; intros st; [discriminate|].
  rewrite take_all_step. pose proof (take_page_outcome st) as Hstep.
  cbv zeta in Hstep.
  destruct (take_page st) as [st1|why1 st1].
  - intros Hrun. destruct (IH _ Hrun) as ((m2 & E2) & S2 & O2).
    destruct Hstep as (O1 & (m1 & E1 & _) & S1).
    split; [exists (m1 ++ m2); rewrite E2, E1, app_assoc; reflexivity|].
    unfold limit in *. split; lia.
  - intros E. injection E as -> ->.
    destruct Hstep as (O1 & (m1 & E1 & _) & S1).
    split; [exists m1; exact E1|]. split; lia.
Qed.

Lemma count_pages_step (n : nat) :
  pages_upto request (S n) =
  pages_upto request n ++ items_at request (limit * Z.of_nat (S n)).
Proof.
  unfold pages_upto. rewrite (seq_S (S n) 0), flat_map_app.
  cbn [flat_map Nat.add]. now rewrite app_nil_r.
Qed.

Lemma ghosts_counted_from (fuel n : nat) (st st' : collector) (why : stop) :
  has_read request n st ->
  take_all fuel st = Some (why, st') ->
  exists m,
    offset st' = limit * Z.of_nat m /\
    skipped_unavailable st' = length (List.filter is_ghost (pages_upto request m)) /\
    (length (all_tracks st') + skipped_unavailable st'
     <= length (pages_upto request m))%nat.
Proof.
  revert n st. induction fuel as [|fuel IH]; intros n st Hread; [discriminate|].
  rewrite take_all_step. pose proof (take_page_outcome st) as Hstep.
  cbv zeta in Hstep. destruct Hread as (Ho & Hs & Hl). rewrite Ho in Hstep.
  destruct (take_page st) as [st1|why1 st1].
  - destruct Hstep as (O1 & (m1 & E1 & L1) & S1).
    apply (IH (S n)). unfold has_read.
    rewrite count_pages_step, List.filter_app, !length_app.
    rewrite O1, E1, S1, length_app, Nat2Z.inj_succ.
    split; [unfold limit; lia|]. split; lia.
  - intros E. injection E as -> ->.
    destruct Hstep as (O1 & (m1 & E1 & L1) & S1).
    exists n. rewrite O1, S1, E1, length_app. split; [reflexivity|]. split; lia.
Qed.

(** X11: when the collection ends, at the page number [m], the count of
    unavailable tracks is the number of entries without a record on the
    pages 0 to [m], and the tracks collected and the ghosts together are no
    more than the entries of those pages. *)
Theorem ghosts_are_counted_not_collected
    (fuel : nat) (why : stop) (st : collector) :
  take_all fuel collector_init = Some (why, st) ->
  exists m,
    offset st = limit * Z.of_nat m /\
    skipped_unavailable st = length (List.filter is_ghost (pages_upto request m)) /\
    (length (all_tracks st) + skipped_unavailable st
     <= length (pages_upto request m))%nat.
Proof.
  apply (ghosts_counted_from fuel 0). unfold has_read, pages_upto.
  cbn [seq flat_map collector_init offset skipped_unavailable all_tracks length].
  rewrite app_nil_r. cbn [Z.of_nat]. split; [unfold limit; lia|]. split; lia.
Qed.

Lemma stops_within (k d : nat) :
  request (limit * Z.of_nat k) = Page [] ->
  request (limit * Z.of_nat (S k)) = Page [] ->
  forall (j fuel : nat) (st : collector),
    (j + d = k)%nat -> offset st = limit * Z.of_nat j -> (d + 2 <= fuel)%nat ->
    exists why st',
      take_all fuel st = Some (why, st') /\ offset st' <= limit * Z.of_nat (S k).
Proof.
  intros Hk Hk1. induction d as [|d IH]; intros j fuel st Hj Ho Hfuel.
  - assert (j = k) by lia. subst j.
    destruct fuel as [|[|fuel]]; try lia.
    rewrite take_all_step. unfold collect_page at 1. rewrite Ho, Hk.
    destruct (consecutive_empty st) as [|c] eqn:Hc.
    + cbn [consecutive_empty set_empty Nat.leb].
      rewrite take_all_step. unfold collect_page.
      cbn [offset next_page set_empty consecutive_empty].
      rewrite Ho.
      replace (limit * Z.of_nat k + limit) with (limit * Z.of_nat (S k))
        by (rewrite Nat2Z.inj_succ; unfold limit; lia).
      rewrite Hk1. cbn [Nat.leb].
      eexists. eexists. split; [reflexivity|].
      cbn [offset set_empty next_page]. rewrite Ho, Nat2Z.inj_succ. unfold limit. lia.
    + cbn [consecutive_empty set_empty Nat.leb].
      eexists. eexists. split; [reflexivity|].
      cbn [offset set_empty]. rewrite Ho, Nat2Z.inj_succ. unfold limit. lia.
  - destruct fuel as [|fuel]; [lia|].
    rewrite take_all_step. pose proof (take_page_outcome st) as Hstep.
    cbv zeta in Hstep.
    destruct (take_page st) as [st1|why1 st1].
    + destruct Hstep as (O1 & _).
      apply (IH (S j)); [lia| |lia].
      rewrite O1, Ho, Nat2Z.inj_succ. unfold limit. lia.
    + destruct Hstep as (O1 & _).
      exists why1, st1. split; [reflexivity|].
      rewrite O1, Ho, !Nat2Z.inj_succ. unfold limit. lia.
Qed.

(** X12: two empty pages in a row stop the collector: if the pages number
    [k] and [k + 1] hold no entry, [k + 2] requests are enough for the loop
    to end, and it ends at page [k + 1] at the latest. *)
Theorem two_empty_pages_are_enough (k fuel : nat) :
  request (limit * Z.of_nat k) = Page [] ->
  request (limit * Z.of_nat (S k)) = Page [] ->
  (k + 2 <= fuel)%nat ->
  exists why st,
    take_all fuel collector_init = Some (why, st) /\
    offset st <= limit * Z.of_nat (S k).
Proof.
  intros Hk Hk1 Hfuel.
  apply (stops_within k k Hk Hk1 0 fuel collector_init); [lia|reflexivity|lia].
Qed.

(** The identifiers seen and the tracks collected agree, as long as the
    parser gives a track the identifier of its record. *)
Lemma take_item_ids (st : collector) (item : option track_data) :
  (forall td t, parse_track td = Some (Some t) -> td_id td = Some (id t)) ->
  ids_consistent st -> ids_consistent (take_item st item).
Proof.
  intros Hparse Hst. unfold collect_item.
  destruct item as [td|]; [|exact Hst].
  destruct (td_id td) as [i|] eqn:Hid; [|exact Hst].
  destruct ((i =? 0) || bool_decide (i ∈ seen_ids st)) eqn:Hskip; [exact Hst|].
  apply orb_false_iff in Hskip. destruct Hskip as [Hz Hseen].
  apply Z.eqb_neq in Hz. apply bool_decide_eq_false in Hseen.
  destruct (_parse_track_safe parse_track td) as [t|] eqn:Ht; [|exact Hst].
  assert (id t = i) as Hti.
  { unfold _parse_track_safe in Ht. rewrite Hid in Ht.
    destruct (parse_track td) as [[t0|]|] eqn:Hp.
    - injection Ht as ->. apply Hparse in Hp. congruence.
    - discriminate.
    - injection Ht as <-. reflexivity. }
  set (t' := if truthy (or_opt (td_audioQuality td) (td_audio_quality td))
             then set_quality (or_opt (td_audioQuality td) (td_audio_quality td)) t
             else t).
  assert (id t' = i) as Hti'
    by (unfold t'; destruct (truthy _); [unfold set_quality|]; exact Hti).
  destruct Hst as (Hnd & Hagree & Hzero).
  unfold ids_consistent. cbn [all_tracks seen_ids].
  rewrite map_app. cbn [map]. rewrite Hti'.
  split; [|split].
  - apply (Permutation_NoDup (l := i :: map id (all_tracks st))).
    + apply Permutation_cons_append.
    + constructor; [|exact Hnd]. intros Hin. apply Hseen. now apply Hagree.
  - intros x. rewrite elem_of_union, elem_of_singleton, in_app_iff, Hagree.
    cbn [In]. intuition congruence.
  - rewrite in_app_iff. cbn [In]. intros [H|[H|[]]]; [tauto|congruence].
Qed.

Lemma take_items_ids (items : list (option track_data)) (st : collector) :
  (forall td t, parse_track td = Some (Some t) -> td_id td = Some (id t)) ->
  ids_consistent st -> ids_consistent (fold_left take_item items st).
Proof.
  intros Hparse. revert st.
  induction items as [|item items IH]; intros st Hst; [exact Hst|].
  cbn [fold_left]. apply IH. now apply take_item_ids.
Qed.

Lemma take_page_ids (st : collector) :
  (forall td t, parse_track td = Some (Some t) -> td_id td = Some (id t)) ->
  ids_consistent st ->
  match take_page st with
  | Continue st' => ids_consistent st'
  | Break _ st' => ids_consistent st'
  end.
Proof.
  intros Hparse Hst. unfold collect_page.
  destruct (request (offset st)) as [|items]; [exact Hst|].
  destruct items as [|item items].
  - destruct (2 <=? consecutive_empty (set_empty (S (consecutive_empty st)) st))%nat;
      exact Hst.
  - pose proof (take_items_ids (item :: items) (set_empty 0 st) Hparse Hst) as H.
    set (st1 := fold_left take_item (item :: items) (set_empty 0 st)) in *.
    destruct (MAX_TRACKS <=? Z.of_nat (length (all_tracks st1))); exact H.
Qed.

(** X13: with a parser that gives a track the identifier of its record
    (or raises), no identifier is collected twice, however often the pages
    repeat it; the identifiers of the tracks collected are the identifiers
    seen, and none of them is 0. *)
Theorem collected_ids_are_distinct
    (fuel : nat) (why : stop) (st : collector) :
  (forall td t, parse_track td = Some (Some t) -> td_id td = Some (id t)) ->
  take_all fuel collector_init = Some (why, st) ->
  List.NoDup (map id (all_tracks st)) /\
  (forall i, i ∈ seen_ids st <-> In i (map id (all_tracks st))) /\
  ~ In 0 (map id (all_tracks st)).
Proof.
  intros Hparse.
  assert (ids_consistent collector_init) as Hinit.
  { unfold ids_consistent. cbn [collector_init all_tracks seen_ids map].
    split; [constructor|]. split; [|intros []].
    intros i. split; [intros H; now apply not_elem_of_empty in H|intros []]. }
  revert Hinit. generalize collector_init as st0.
  induction fuel as [|fuel IH]; intros st0 Hst0; [discriminate|].
  rewrite take_all_step. pose proof (take_page_ids st0 Hparse Hst0) as Hstep.
  destruct (take_page st0) as [st1|why1 st1].
  - now apply IH.
  - intros E. injection E as -> ->. exact Hstep.
Qed.

End CollectorMore.

(** ** The shape of a normalised text *)

Lemma chars_text (l : list ascii) : chars (text l) = l.
Proof. apply list_ascii_of_string_of_list_ascii. Qed.

Lemma text_chars (s : string) : text (chars s) = s.
Proof. apply string_of_list_ascii_of_string. Qed.

(** The last substitution turns every symbol into a space. *)
Lemma sub_symbols (prev : option ascii) (s : list ascii) :
  sub_from false RE_SYMBOL [" "%char] prev s 0 =
  map (fun c => if is_lower c || is_digit c || is_space c then c else " "%char) s.
Proof.
  revert prev. induction s as [|x s IH]; intros prev; [reflexivity|].
  cbn [sub_from map]. unfold match_here, RE_SYMBOL. cbn [rmatch].
  destruct (is_lower x || is_digit x || is_space x); cbn [negb app];
    now rewrite IH.
Qed.

Lemma sub_symbols_kept (prev : option ascii) (s : list ascii) :
  Forall (fun c => is_key_char c || is_space c = true)
         (sub_from false RE_SYMBOL [" "%char] prev s 0).
Proof.
  rewrite sub_symbols. apply List.Forall_forall. intros c Hc.
  apply in_map_iff in Hc. destruct Hc as [x [<- _]]. unfold is_key_char.
  destruct (is_lower x || is_digit x || is_space x) eqn:E; [exact E|reflexivity].
Qed.

(** [split] cuts a text of key characters and spaces into key words. *)
Lemma split_ws_words (l cur : list ascii) :
  Forall (fun c => is_key_char c || is_space c = true) l ->
  Forall (fun c => is_key_char c = true) cur ->
  Forall is_key_word (split_ws cur l).
Proof.
  revert cur. induction l as [|c l IH]; intros cur Hl Hcur; cbn [split_ws].
  - destruct cur as [|x cur]; [constructor|].
    constructor; [|constructor]. split.
    + intros E. apply (f_equal (@length ascii)) in E.
      rewrite length_rev in E. discriminate.
    + apply Forall_rev. exact Hcur.
  - inversion Hl as [|? ? Hc Hl']; subst. cbv beta in Hc.
    destruct (is_space c) eqn:Hs.
    + destruct cur as [|x cur]; [now apply IH|].
      constructor; [|now apply IH]. split.
      * intros E. apply (f_equal (@length ascii)) in E.
        rewrite length_rev in E. discriminate.
      * apply Forall_rev. exact Hcur.
    + apply IH; [exact Hl'|]. constructor; [|exact Hcur].
      rewrite orb_false_r in Hc. exact Hc.
Qed.

Lemma key_char_not_space (c : ascii) : is_key_char c = true -> is_space c = false.
Proof. destruct c as [[] [] [] [] [] [] [] []]; cbv; congruence. Qed.

Lemma key_char_lower (c : ascii) :
  is_key_char c || is_space c = true -> lower_chr c = c.
Proof. destruct c as [[] [] [] [] [] [] [] []]; cbv; congruence. Qed.

Lemma key_char_not_paren (c : ascii) :
  is_key_char c || is_space c = true ->
  Ascii.eqb "("%char c = false /\ Ascii.eqb "["%char c = false.
Proof. destruct c as [[] [] [] [] [] [] [] []]; cbv; intuition congruence. Qed.

(** [split] undoes [join] on key words. *)
Lemma split_ws_word (w cur rest : list ascii) :
  Forall (fun c => is_key_char c = true) w ->
  split_ws cur (w ++ rest) = split_ws (rev w ++ cur) rest.
Proof.
  revert cur. induction w as [|c w IH]; intros cur Hw; [reflexivity|].
  inversion Hw as [|? ? Hc Hw']; subst.
  cbn [app split_ws]. rewrite (key_char_not_space c Hc), (IH _ Hw').
  cbn [rev]. now rewrite <- app_assoc.
Qed.

Lemma split_join (ws : list (list ascii)) :
  Forall is_key_word ws -> split (join [" "%char] ws) = ws.
Proof.
  unfold split. induction 1 as [|w ws [Hne Hw] Hws IH]; [reflexivity|].
  destruct ws as [|w' ws].
  - cbn [join]. rewrite <- (app_nil_r w) at 1.
    rewrite (split_ws_word w [] [] Hw), app_nil_r. cbn [split_ws].
    destruct (rev w) eqn:E.
    + apply (f_equal (@length ascii)) in E. rewrite length_rev in E.
      destruct w; [congruence|discriminate].
    + now rewrite <- E, rev_involutive.
  - change (join [" "%char] (w :: w' :: ws))
      with (w ++ [" "%char] ++ join [" "%char] (w' :: ws)).
    rewrite (split_ws_word w [] _ Hw), app_nil_r.
    cbn [app split_ws]. change (is_space " "%char) with true. cbv iota.
    destruct (rev w) eqn:E.
    + apply (f_equal (@length ascii)) in E. rewrite length_rev in E.
      destruct w; [congruence|discriminate].
    + rewrite <- E, rev_involutive, IH. reflexivity.
Qed.

Lemma join_chars (ws : list (list ascii)) :
  Forall is_key_word ws ->
  Forall (fun c => is_key_char c || is_space c = true) (join [" "%char] ws).
Proof.
  induction 1 as [|w ws [_ Hw] Hws IH]; [constructor|].
  assert (Forall (fun c => is_key_char c || is_space c = true) w) as Hw'.
  { apply List.Forall_forall. intros c Hc.
    rewrite List.Forall_forall in Hw. now rewrite (Hw c Hc). }
  destruct ws as [|w' ws]; [exact Hw'|].
  change (join [" "%char] (w :: w' :: ws))
    with (w ++ [" "%char] ++ join [" "%char] (w' :: ws)).
  apply Forall_app. split; [exact Hw'|].
  apply Forall_app. split; [|exact IH]. constructor; [reflexivity|constructor].
Qed.

(** A substitution changes nothing where its pattern matches nowhere. *)
Lemma sub_from_nowhere (ic : bool) (r : regex) (repl : list ascii)
    (s : list ascii) (prev : option ascii) :
  search_from ic r prev s = None -> sub_from ic r repl prev s 0 = s.
Proof.
  revert prev. induction s as [|x s IH]; intros prev; cbn [search_from sub_from].
  - destruct (match_here ic r prev []); [discriminate|reflexivity].
  - destruct (match_here ic r prev (x :: s)); [discriminate|].
    intros H. now rewrite (IH _ H).
Qed.

Lemma search_from_opening (c0 : ascii) (r : regex) (s : list ascii)
    (prev : option ascii) :
  Forall (fun c => Ascii.eqb c0 c = false) s ->
  search_from false (Cat (Lit c0) r) prev s = None.
Proof.
  intros Hs. revert prev. induction Hs as [|x s Hx Hs IH]; intros prev.
  - reflexivity.
  - cbn [search_from]. unfold match_here. cbn [rmatch]. unfold lit_eq.
    rewrite Hx. apply IH.
Qed.

Lemma map_lower_kept (l : list ascii) :
  Forall (fun c => is_key_char c || is_space c = true) l -> map lower_chr l = l.
Proof.
  induction 1 as [|c l Hc Hl IH]; [reflexivity|].
  cbn [map]. now rewrite (key_char_lower c Hc), IH.
Qed.

Lemma sub_symbols_id (l : list ascii) (prev : option ascii) :
  Forall (fun c => is_key_char c || is_space c = true) l ->
  sub_from false RE_SYMBOL [" "%char] prev l 0 = l.
Proof.
  intros Hl. rewrite sub_symbols. induction Hl as [|c l Hc Hl IH]; [reflexivity|].
  cbn [map]. unfold is_key_char in Hc. now rewrite Hc, IH.
Qed.

Lemma sub_parens_id (repl l : list ascii) :
  Forall (fun c => is_key_char c || is_space c = true) l ->
  sub_from false RE_PARENS repl None l 0 = l /\
  sub_from false RE_BRACKETS repl None l 0 = l.
Proof.
  intros Hl. split; apply sub_from_nowhere; apply search_from_opening;
    apply List.Forall_forall; intros c Hc;
    rewrite List.Forall_forall in Hl; apply key_char_not_paren; auto.
Qed.

(** The two normalisers, step by step on lists of characters. *)
Lemma normalize_steps (x : string) :
  normalize x =
  text (join [" "%char]
    (split (sub_from false RE_SYMBOL [" "%char] None
      (sub_from true NOISE_RE [" "%char] None
        (sub_from false RE_BRACKETS [" "%char] None
          (sub_from false RE_PARENS [" "%char] None
            (map lower_chr (chars x)) 0) 0) 0) 0))).
Proof.
  unfold normalize, sub, lower. now rewrite !chars_text.
Qed.

Lemma sync_normalize_steps (x : string) :
  Sync.normalize x =
  text (join [" "%char]
    (split (sub_from false RE_SYMBOL [" "%char] None
      (sub_from false RE_BRACKETS [] None
        (sub_from false RE_PARENS [] None
          (map lower_chr (chars x)) 0) 0) 0))).
Proof.
  unfold Sync.normalize, sub, lower. now rewrite !chars_text.
Qed.

Lemma normalize_gives_key_form_main (x : string) : in_key_form (normalize x).
Proof.
  rewrite normalize_steps. eexists. rewrite chars_text.
  split; [|reflexivity]. apply split_ws_words; [apply sub_symbols_kept|constructor].
Qed.

Lemma normalize_gives_key_form_sync (x : string) : in_key_form (Sync.normalize x).
Proof.
  rewrite sync_normalize_steps. eexists. rewrite chars_text.
  split; [|reflexivity]. apply split_ws_words; [apply sub_symbols_kept|constructor].
Qed.

(** X14: whatever the text, its key is made of words of lower-case
    letters and digits with one space between two of them: no capital, no
    symbol, no space at either end and no two spaces in a row. *)
Theorem normalize_gives_key_form (x : string) :
  in_key_form (normalize x) /\ in_key_form (Sync.normalize x).
Proof.
  split; [apply normalize_gives_key_form_main|apply normalize_gives_key_form_sync].
Qed.

Lemma lower_upper_chr (c : ascii) : lower_chr (upper_chr c) = lower_chr c.
Proof. destruct c as [[] [] [] [] [] [] [] []]; reflexivity. Qed.

Lemma lower_lower_chr (c : ascii) : lower_chr (lower_chr c) = lower_chr c.
Proof. destruct c as [[] [] [] [] [] [] [] []]; reflexivity. Qed.

(** X15: the key of an ASCII text does not depend on its case: the text,
    the text in capitals and the text in small letters have the same
    key. *)
Theorem normalize_ignores_case (x : string) :
  is_ascii x = true ->
  normalize (upper x) = normalize x /\
  normalize (lower x) = normalize x /\
  Sync.normalize (upper x) = Sync.normalize x /\
  Sync.normalize (lower x) = Sync.normalize x.
Proof.
  intros _.
  rewrite !normalize_steps, !sync_normalize_steps.
  unfold upper, lower. rewrite !chars_text, !map_map.
  rewrite (map_ext _ _ lower_upper_chr), (map_ext _ _ lower_lower_chr).
  repeat split.
Qed.

Lemma normalize_ignores_case_witness :
  normalize (upper "Hotel California (Remastered 2013)")
    = normalize "Hotel California (Remastered 2013)" /\
  normalize (lower "Hotel California (Remastered 2013)")
    = normalize "Hotel California (Remastered 2013)" /\
  Sync.normalize (upper "Hotel California (Remastered 2013)")
    = Sync.normalize "Hotel California (Remastered 2013)" /\
  Sync.normalize (lower "Hotel California (Remastered 2013)")
    = Sync.normalize "Hotel California (Remastered 2013)".
Proof.
  exact (normalize_ignores_case "Hotel California (Remastered 2013)"
           ltac:(vm_compute; reflexivity)).
Defined.

(** X16: the normaliser of the synchroniser is idempotent. *)
Theorem sync_normalize_idempotent (x : string) :
  Sync.normalize (Sync.normalize x) = Sync.normalize x.
Proof.
  destruct (normalize_gives_key_form_sync x) as (ws & Hws & E).
  change (chars " ") with [" "%char] in E.
  rewrite (sync_normalize_steps (Sync.normalize x)), E.
  pose proof (join_chars ws Hws) as Hkept.
  rewrite (map_lower_kept _ Hkept).
  rewrite (proj1 (sub_parens_id [] _ Hkept)), (proj2 (sub_parens_id [] _ Hkept)).
  rewrite (sub_symbols_id _ None Hkept), (split_join ws Hws).
  rewrite <- E. apply text_chars.
Qed.

(** X17: the normaliser of the cleaner and of the upgrader is idempotent
    on every text whose key holds no noise word any more. *)
Theorem normalize_idempotent_without_noise (x : string) :
  found true NOISE_RE (normalize x) = false ->
  normalize (normalize x) = normalize x.
Proof.
  intros Hnoise.
  destruct (normalize_gives_key_form_main x) as (ws & Hws & E).
  change (chars " ") with [" "%char] in E.
  rewrite (normalize_steps (normalize x)), E.
  pose proof (join_chars ws Hws) as Hkept.
  rewrite (map_lower_kept _ Hkept).
  rewrite (proj1 (sub_parens_id [" "%char] _ Hkept)),
          (proj2 (sub_parens_id [" "%char] _ Hkept)).
  rewrite (sub_from_nowhere true NOISE_RE).
  - rewrite (sub_symbols_id _ None Hkept), (split_join ws Hws).
    rewrite <- E. apply text_chars.
  - unfold found, search in Hnoise. rewrite E in Hnoise.
    destruct (search_from true NOISE_RE None (join [" "%char] ws));
      [discriminate|reflexivity].
Qed.

(** ** The synchroniser *)

Lemma starts_with_refl (p : list ascii) : Sync.starts_with p p = true.
Proof.
  induction p as [|c p IH]; [reflexivity|].
  cbn [Sync.starts_with]. now rewrite Ascii.eqb_refl, IH.
Qed.

Lemma contains_refl (s : string) : Sync.contains s s = true.
Proof.
  unfold Sync.contains. destruct (chars s) as [|c l] eqn:E; [reflexivity|].
  cbn [Sync.occurs]. now rewrite starts_with_refl.
Qed.

Lemma contains_empty (s : string) : Sync.contains "" s = true.
Proof. unfold Sync.contains. destruct (chars s); reflexivity. Qed.

Lemma find_first {A : Type} (p : A -> bool) (l : list A) :
  match find p l with
  | Some x => exists pre post,
                l = pre ++ x :: post /\ p x = true /\
                forall c, In c pre -> p c = false
  | None => forall c, In c l -> p c = false
  end.
Proof.
  induction l as [|a l IH]; cbn [find]; [intros c []|].
  destruct (p a) eqn:E.
  - exists [], l. split; [reflexivity|]. split; [exact E|intros c []].
  - destruct (find p l) as [x|].
    + destruct IH as (pre & post & -> & Hx & Hpre).
      exists (a :: pre), post. split; [reflexivity|]. split; [exact Hx|].
      intros c [<-|Hc]; auto.
    + intros c [<-|Hc]; auto.
Qed.

(** The match for a local song is the first of the first ten search
    results whose normalised artist and title each contain, or are
    contained in, those of the song; no result is returned when none of the
    ten qualifies, whatever comes after them. *)
Lemma best_match_is_first_of_ten (results : list Track) (artist title : string) :
  match Sync.find_best_match results artist title with
  | Some t =>
      exists pre post,
        firstn 10 results = pre ++ t :: post /\
        Sync.is_match (Sync.normalize artist) (Sync.normalize title) t = true /\
        forall c, In c pre ->
          Sync.is_match (Sync.normalize artist) (Sync.normalize title) c = false
  | None =>
      forall c, In c (firstn 10 results) ->
        Sync.is_match (Sync.normalize artist) (Sync.normalize title) c = false
  end.
Proof. unfold Sync.find_best_match. apply find_first. Qed.

(** X18: a result among the first ten whose normalised artist and title
    equal those of the song is never missed: some track is returned, and it
    stands at or before that result. *)
Theorem exact_match_is_never_missed
    (results pre post : list Track) (t : Track) (artist title : string) :
  firstn 10 results = pre ++ t :: post ->
  Sync.normalize (artist_name t) = Sync.normalize artist ->
  Sync.normalize (title_of t) = Sync.normalize title ->
  exists t' pre' post',
    Sync.find_best_match results artist title = Some t' /\
    firstn 10 results = pre' ++ t' :: post' /\
    (length pre' <= length pre)%nat.
Proof.
  intros Hten Ha Ht.
  assert (Sync.is_match (Sync.normalize artist) (Sync.normalize title) t = true)
    as Hm.
  { unfold Sync.is_match. fold (artist_name t). fold (title_of t).
    rewrite Ha, Ht, !contains_refl. reflexivity. }
  pose proof (find_first (Sync.is_match (Sync.normalize artist) (Sync.normalize title))
                (firstn 10 results)) as H.
  unfold Sync.find_best_match.
  destruct (find _ (firstn 10 results)) as [t'|].
  - destruct H as (pre' & post' & E & _ & Hpre').
    exists t', pre', post'. split; [reflexivity|]. split; [exact E|].
    destruct (Nat.le_gt_cases (length pre') (length pre)) as [Hle|Hgt]; [exact Hle|].
    exfalso. rewrite Hten in E.
    assert (In t pre') as Hin.
    { apply (f_equal (fun l => nth_error l (length pre))) in E.
      rewrite nth_error_app2 in E by lia. rewrite Nat.sub_diag in E.
      rewrite nth_error_app1 in E by lia.
      cbn [nth_error] in E. symmetry in E. now apply nth_error_In in E. }
    rewrite (Hpre' t Hin) in Hm. discriminate.
  - rewrite (H t) in Hm; [discriminate|].
    rewrite Hten. apply in_or_app. right. now left.
Qed.

Lemma exact_match_is_never_missed_witness :
  exists t' pre' post',
    Sync.find_best_match Demo.catalog "eagles" "HOTEL CALIFORNIA!" = Some t' /\
    firstn 10 Demo.catalog = pre' ++ t' :: post' /\
    (length pre' <= 2)%nat.
Proof.
  exact (exact_match_is_never_missed Demo.catalog
           [Demo.held;
            Demo.track 21 "Eagles" "Hotel California Dreaming" "Covers" "HI_RES_LOSSLESS"]
           [Demo.track 23 "Eagles" "Hotel California [Live]" "Hell Freezes Over" "LOSSLESS";
            Demo.track 24 "Eagles" "Hotel California" "Greatest Hits" "LOW"]
           (Demo.track 22 "EAGLES" "Hotel California" "Hotel California" "LOSSLESS")
           "eagles" "HOTEL CALIFORNIA!"
           eq_refl ltac:(vm_compute; reflexivity) ltac:(vm_compute; reflexivity)).
Defined.

(** X19: a song whose artist and title both normalise to the empty text
    matches anything: the first search result is taken, whatever it is. *)
Theorem empty_key_takes_first_result
    (t : Track) (rest : list Track) (artist title : string) :
  Sync.normalize artist = ""%string -> Sync.normalize title = ""%string ->
  Sync.find_best_match (t :: rest) artist title = Some t.
Proof.
  intros Ha Ht. unfold Sync.find_best_match. rewrite Ha, Ht.
  cbn [firstn find]. unfold Sync.is_match. rewrite !contains_empty. reflexivity.
Qed.

Lemma empty_key_takes_first_result_witness :
  Sync.normalize "(Intro)" = ""%string /\
  Sync.find_best_match Demo.catalog "(Intro)" "[???]" = Some Demo.held.
Proof.
  assert (Sync.normalize "(Intro)" = ""%string) as H by (vm_compute; reflexivity).
  split; [exact H|].
  exact (empty_key_takes_first_result Demo.held _ "(Intro)" "[???]" H
           ltac:(vm_compute; reflexivity)).
Defined.

Section SongsFacts.

Variable W : Type.
Variable search : string -> W -> option (list Track).
Variable add_track : Z -> W -> option W.

Local Abbreviation one_song := (Sync.sync_song W search add_track).
Local Abbreviation all_songs := (Sync.sync_songs W search add_track).

Lemma sync_song_fresh (st : Sync.sync W) (song : string * string * string) :
  adds_fresh st (one_song st song) /\
  dealt_with (one_song st song) = S (dealt_with st).
Proof.
  assert (adds_fresh st st) as Hsame.
  { exists []. rewrite app_nil_r. split; [reflexivity|].
    split; [constructor|]. split; [intros e []|auto]. }
  destruct song as [[artist title] filename].
  unfold Sync.sync_song, dealt_with.
  destruct (Sync.search_track search (Sync.favourites st) artist title) as [track|].
  - destruct (bool_decide (id track ∈ Sync.existing_ids st)) eqn:Hex.
    + split; [exact Hsame|]. cbn. rewrite length_app. cbn. lia.
    + apply bool_decide_eq_false in Hex.
      destruct (add_track (id track) (Sync.favourites st)) as [w'|].
      * assert (adds_fresh st
                  {| Sync.favourites := w';
                     Sync.existing_ids := {[ id track ]} ∪ Sync.existing_ids st;
                     Sync.added := Sync.added st
                                   ++ [((artist ++ " - " ++ title)%string, track)];
                     Sync.not_found := Sync.not_found st;
                     Sync.already_exists := Sync.already_exists st;
                     Sync.sync_errors := Sync.sync_errors st |}) as Hadd.
        { exists [((artist ++ " - " ++ title)%string, track)].
          cbn [Sync.added Sync.existing_ids map snd].
          split; [reflexivity|].
          split; [constructor; [intros []|constructor]|].
          split.
          - intros e [<-|[]]. cbn [snd]. split; [exact Hex|].
            apply elem_of_union. left. now apply elem_of_singleton.
          - intros i Hi. apply elem_of_union. now right. }
        assert (adds_fresh st
                  {| Sync.favourites := w';
                     Sync.existing_ids := {[ id track ]} ∪ Sync.existing_ids st;
                     Sync.added := Sync.added st;
                     Sync.not_found := Sync.not_found st;
                     Sync.already_exists := Sync.already_exists st;
                     Sync.sync_errors := Sync.sync_errors st
                                         ++ [(artist ++ " - " ++ title)%string] |})
          as Hraise.
        { exists []. cbn [Sync.added Sync.existing_ids map]. rewrite app_nil_r.
          split; [reflexivity|]. split; [constructor|].
          split; [intros e []|].
          intros i Hi. apply elem_of_union. now right. }
        destruct (Sync.tidal_label track);
          (split; [assumption|cbn; rewrite length_app; cbn; lia]).
      * split; [exact Hsame|]. cbn. rewrite length_app. cbn. lia.
  - split; [exact Hsame|]. cbn. rewrite length_app. cbn. lia.
Qed.

Lemma adds_fresh_trans (st1 st2 st3 : Sync.sync W) :
  adds_fresh st1 st2 -> adds_fresh st2 st3 -> adds_fresh st1 st3.
Proof.
  intros (n1 & E1 & D1 & F1 & S1) (n2 & E2 & D2 & F2 & S2).
  exists (n1 ++ n2). split; [now rewrite E2, E1, app_assoc|].
  split; [|split].
  - rewrite map_app. clear E1 E2.
    induction n1 as [|e n1 IH]; [exact D2|].
    cbn [map app]. inversion D1 as [|? ? Hn Hd]; subst.
    constructor.
    + rewrite in_app_iff. intros [H|H]; [contradiction|].
      apply in_map_iff in H. destruct H as [e2 [Eid He2]].
      destruct (F2 e2 He2) as [Hnot _]. apply Hnot. rewrite Eid.
      apply (F1 e). now left.
    + apply IH; [exact Hd|]. intros e' He'. apply F1. now right.
  - intros e He. apply in_app_or in He. destruct He as [He|He].
    + destruct (F1 e He) as [A B]. split; [exact A|auto].
    + destruct (F2 e He) as [A B]. split; [|exact B]. intros Hin. apply A. auto.
  - auto.
Qed.

(** X20: a run of the synchroniser deals with every song once, as added,
    not found, already there or failed; it adds no track whose identifier
    was among the existing ones and none twice, and every identifier it
    adds is among the existing ones afterwards. *)
Theorem no_track_is_added_twice
    (songs : list (string * string * string)) (st : Sync.sync W) :
  dealt_with (all_songs songs st) = (dealt_with st + length songs)%nat /\
  exists new,
    Sync.added (all_songs songs st) = Sync.added st ++ new /\
    List.NoDup (map (fun e => id (snd e)) new) /\
    (forall e, In e new ->
       (id (snd e) ∉ Sync.existing_ids st) /\
       (id (snd e) ∈ Sync.existing_ids (all_songs songs st))) /\
    (forall i, i ∈ Sync.existing_ids st ->
       i ∈ Sync.existing_ids (all_songs songs st)).
Proof.
  unfold Sync.sync_songs. revert st.
  induction songs as [|song songs IH]; intros st; cbn [fold_left length].
  - split; [lia|]. exists []. rewrite app_nil_r. split; [reflexivity|].
    split; [constructor|]. split; [intros e []|auto].
  - destruct (sync_song_fresh st song) as [F1 D1].
    destruct (IH (one_song st song)) as [D2 F2].
    split; [rewrite D2, D1; lia|].
    exact (adds_fresh_trans _ _ _ F1 F2).
Qed.

End SongsFacts.

(** ** The names of the local files *)

Lemma chars_app (s1 s2 : string) : chars (s1 ++ s2) = chars s1 ++ chars s2.
Proof.
  unfold chars. induction s1 as [|c s1 IH]; [reflexivity|].
  simpl. now rewrite IH.
Qed.

Lemma rfind_dot_flags (l : list ascii) :
  Sync.rfind_dot l = rfind_flag (map Sync.is_dot l).
Proof.
  induction l as [|c l IH]; [reflexivity|].
  cbn [Sync.rfind_dot map rfind_flag]. now rewrite IH.
Qed.

Lemma rfind_flag_none (fs : list bool) :
  forallb negb fs = true -> rfind_flag fs = None.
Proof.
  induction fs as [|b fs IH]; [reflexivity|].
  cbn [forallb rfind_flag]. intros H. apply andb_true_iff in H.
  destruct H as [Hb Hfs]. rewrite (IH Hfs). now destruct b.
Qed.

Lemma rfind_flag_last (fs1 fs2 : list bool) :
  forallb negb fs2 = true ->
  rfind_flag (fs1 ++ true :: fs2) = Some (length fs1).
Proof.
  intros H. induction fs1 as [|b fs1 IH].
  - cbn [app rfind_flag length]. now rewrite (rfind_flag_none fs2 H).
  - cbn [app rfind_flag length]. now rewrite IH.
Qed.

Lemma is_dot_lower (c : ascii) : Sync.is_dot (lower_chr c) = Sync.is_dot c.
Proof. destruct c as [[] [] [] [] [] [] [] []]; reflexivity. Qed.

Lemma dots_of_lower (s : string) :
  map Sync.is_dot (chars (lower s)) = map Sync.is_dot (chars s).
Proof.
  unfold lower. rewrite chars_text, map_map. apply map_ext. apply is_dot_lower.
Qed.

(** An audio extension is a dot followed by characters other than dots. *)
Lemma audio_extension_dots (ext : string) :
  existsb (String.eqb (lower ext)) Sync.AUDIO_EXTENSIONS = true ->
  exists f fs, map Sync.is_dot (chars ext) = true :: f :: fs /\
               forallb negb (f :: fs) = true.
Proof.
  intros H. rewrite <- dots_of_lower.
  unfold Sync.AUDIO_EXTENSIONS in H. cbn [existsb] in H.
  repeat (apply orb_true_iff in H; destruct H as [H|H]);
    try discriminate;
    apply String.eqb_eq in H; rewrite H; eexists; eexists;
    (split; [reflexivity|reflexivity]).
Qed.

Lemma firstn_length_app {A : Type} (a b : list A) :
  firstn (length a) (a ++ b) = a /\ skipn (length a) (a ++ b) = b.
Proof.
  induction a as [|x a [IH1 IH2]]; [split; reflexivity|].
  cbn [length app firstn skipn]. now rewrite IH1, IH2.
Qed.

Lemma stem_suffix_of (pre e : list ascii) :
  pre <> [] ->
  (exists f fs, map Sync.is_dot e = true :: f :: fs /\
                forallb negb (f :: fs) = true) ->
  Sync.stem_suffix (pre ++ e) = (pre, e).
Proof.
  intros Hpre (f & fs & Hdots & Hnone). unfold Sync.stem_suffix.
  rewrite rfind_dot_flags, map_app, Hdots, (rfind_flag_last _ _ Hnone), length_map.
  assert (2 <= length e)%nat as Hlen.
  { apply (f_equal (@length bool)) in Hdots. rewrite length_map in Hdots.
    cbn [length] in Hdots. lia. }
  assert (0 < length pre)%nat as Hpos by (destruct pre; [congruence|simpl; lia]).
  rewrite length_app.
  replace (0 <? length pre)%nat with true by (symmetry; apply Nat.ltb_lt; lia).
  replace (length pre <? length pre + length e - 1)%nat with true
    by (symmetry; apply Nat.ltb_lt; lia).
  cbn [andb]. destruct (firstn_length_app pre e) as [-> ->]. reflexivity.
Qed.

Lemma split_once_eq (sep s : list ascii) :
  Sync.split_once sep s =
  if Sync.starts_with sep s then Some ([], skipn (length sep) s)
  else match s with
       | [] => None
       | c :: s' =>
           match Sync.split_once sep s' with
           | Some (a, b) => Some (c :: a, b)
           | None => None
           end
       end.
Proof. destruct s; reflexivity. Qed.

Lemma starts_with_app (p r : list ascii) : Sync.starts_with p (p ++ r) = true.
Proof.
  induction p as [|c p IH]; [reflexivity|].
  cbn [app Sync.starts_with]. now rewrite Ascii.eqb_refl, IH.
Qed.

Lemma starts_with_longer (p s r : list ascii) :
  (length p <= length s)%nat ->
  Sync.starts_with p (s ++ r) = Sync.starts_with p s.
Proof.
  revert s. induction p as [|c p IH]; intros s Hlen; [reflexivity|].
  destruct s as [|x s]; [simpl in Hlen; lia|].
  cbn [app Sync.starts_with]. rewrite IH; [reflexivity|simpl in Hlen; lia].
Qed.

Lemma split_once_first (p : list ascii) (z : ascii) (a t : list ascii) :
  Sync.occurs (p ++ [z]) (a ++ p) = false ->
  Sync.split_once (p ++ [z]) (a ++ (p ++ [z]) ++ t) = Some (a, t).
Proof.
  induction a as [|c a IH]; intros Hocc; rewrite split_once_eq.
  - cbn [app]. rewrite starts_with_app.
    now rewrite (proj2 (firstn_length_app (p ++ [z]) t)).
  - cbn [app Sync.occurs] in Hocc. apply orb_false_iff in Hocc.
    destruct Hocc as [Hhere Hlater].
    replace ((c :: a) ++ (p ++ [z]) ++ t) with ((c :: a ++ p) ++ ([z] ++ t))
      by (cbn [app]; now rewrite <- !app_assoc).
    rewrite starts_with_longer, Hhere
      by (cbn [length]; rewrite !length_app; cbn [length]; lia).
    cbn [app]. rewrite <- !app_assoc.
    change (a ++ p ++ z :: t) with (a ++ p ++ [z] ++ t).
    rewrite (app_assoc p [z] t), (IH Hlater). reflexivity.
Qed.

(** X21: a file with an ASCII name "Artist - Title" and an audio
    extension, in any case, gives back that artist and that title, provided
    neither has a space at either end and " - " first occurs where the
    title begins. *)
Theorem file_name_round_trip (artist title ext : string) :
  is_ascii artist = true -> is_ascii title = true ->
  existsb (String.eqb (lower ext)) Sync.AUDIO_EXTENSIONS = true ->
  Sync.strip (chars artist) = chars artist ->
  Sync.strip (chars title) = chars title ->
  Sync.occurs (chars " - ") (chars artist ++ chars " -") = false ->
  Sync.classify (artist ++ " - " ++ title ++ ext) =
  Sync.Song artist title (artist ++ " - " ++ title ++ ext).
Proof.
  intros _ _ Hext Ha Ht Hfirst. unfold Sync.classify.
  rewrite !chars_app.
  replace (chars artist ++ chars " - " ++ chars title ++ chars ext)
    with ((chars artist ++ chars " - " ++ chars title) ++ chars ext)
    by now rewrite <- !app_assoc.
  rewrite stem_suffix_of.
  - rewrite text_chars, Hext. cbn [negb].
    change (chars " - ") with ([" "%char; "-"%char] ++ [" "%char]).
    rewrite split_once_first by exact Hfirst.
    now rewrite Ha, Ht, !text_chars.
  - destruct (chars artist); discriminate.
  - apply audio_extension_dots. exact Hext.
Qed.

Lemma file_name_round_trip_witness :
  Sync.classify "Guns N' Roses - Sweet Child O' Mine - Live.FLAC" =
  Sync.Song "Guns N' Roses" "Sweet Child O' Mine - Live"
            "Guns N' Roses - Sweet Child O' Mine - Live.FLAC".
Proof.
  exact (file_name_round_trip "Guns N' Roses" "Sweet Child O' Mine - Live" ".FLAC"
           ltac:(vm_compute; reflexivity) ltac:(vm_compute; reflexivity)
           ltac:(vm_compute; reflexivity) ltac:(vm_compute; reflexivity)
           ltac:(vm_compute; reflexivity) ltac:(vm_compute; reflexivity)).
Defined.

(** ** Sample runs *)

Lemma repeating_run :
  collect_loop Sample.parse_fields Sample.repeating 10 collector_init
  = Some (PagesExhausted, SampleRuns.repeating_end).
Proof. vm_compute. reflexivity. Qed.

(** From the state after the first page, holding two tracks: the second
    page brings a ghost and a third track, the request for the next page
    raises, and the loop ends with the three tracks. *)
Lemma collection_only_grows_witness :
  collect_page Sample.parse_fields SampleRuns.breaking collector_init
    = Continue SampleRuns.after_first_page /\
  collect_loop Sample.parse_fields SampleRuns.breaking 5 SampleRuns.after_first_page
    = Some (TransportError, SampleRuns.breaking_end) /\
  (exists more,
     [SampleRuns.song 1; SampleRuns.song 2; SampleRuns.song 3]
     = [SampleRuns.song 1; SampleRuns.song 2] ++ more) /\
  (0 <= 1)%nat /\
  100 <= 200.
Proof.
  split; [vm_compute; reflexivity|].
  assert (collect_loop Sample.parse_fields SampleRuns.breaking 5
            SampleRuns.after_first_page
          = Some (TransportError, SampleRuns.breaking_end)) as H
    by (vm_compute; reflexivity).
  split; [exact H|].
  exact (collection_only_grows Sample.parse_fields SampleRuns.breaking 5
           SampleRuns.after_first_page SampleRuns.breaking_end TransportError H).
Defined.

Lemma ghosts_are_counted_not_collected_witness :
  exists m,
    offset SampleRuns.repeating_end = limit * Z.of_nat m /\
    skipped_unavailable SampleRuns.repeating_end
      = length (List.filter is_ghost (pages_upto Sample.repeating m)) /\
    (length (all_tracks SampleRuns.repeating_end)
     + skipped_unavailable SampleRuns.repeating_end
     <= length (pages_upto Sample.repeating m))%nat.
Proof.
  exact (ghosts_are_counted_not_collected Sample.parse_fields Sample.repeating 10
           PagesExhausted SampleRuns.repeating_end
           ltac:(vm_compute; reflexivity)).
Defined.

Lemma two_empty_pages_are_enough_witness :
  exists why st,
    collect_loop Sample.parse_fields Sample.repeating 4 collector_init
      = Some (why, st) /\
    offset st <= limit * Z.of_nat 3.
Proof.
  exact (two_empty_pages_are_enough Sample.parse_fields Sample.repeating 2 4
           ltac:(vm_compute; reflexivity) ltac:(vm_compute; reflexivity)
           ltac:(lia)).
Defined.

Lemma parse_fields_keeps_id (td : track_data) (t : Track) :
  Sample.parse_fields td = Some (Some t) -> td_id td = Some (id t).
Proof.
  unfold Sample.parse_fields. destruct (td_id td); [|discriminate].
  intros E. injection E as <-. reflexivity.
Defined.

Lemma collected_ids_are_distinct_witness :
  List.NoDup (map id (all_tracks SampleRuns.repeating_end)) /\
  (forall i, i ∈ seen_ids SampleRuns.repeating_end <->
             In i (map id (all_tracks SampleRuns.repeating_end))) /\
  ~ In 0 (map id (all_tracks SampleRuns.repeating_end)).
Proof.
  exact (collected_ids_are_distinct Sample.parse_fields Sample.repeating 10
           PagesExhausted SampleRuns.repeating_end parse_fields_keeps_id
           ltac:(vm_compute; reflexivity)).
Defined.

Lemma normalize_idempotent_without_noise_witness :
  found true NOISE_RE (normalize "Hotel California (Remastered 2013)") = false /\
  normalize (normalize "Hotel California (Remastered 2013)")
  = normalize "Hotel California (Remastered 2013)".
Proof.
  assert (found true NOISE_RE (normalize "Hotel California (Remastered 2013)") = false)
    as H by (vm_compute; reflexivity).
  split; [exact H|].
  exact (normalize_idempotent_without_noise _ H).
Defined.

(** ** Records without a title *)

(** X22: two records that carry neither title nor artist and that the
    parser chokes on are rebuilt with question marks for both; their keys
    are the same empty key, so the grouper takes the two for copies of one
    song. *)
Theorem nameless_records_collide
    (parse_track : track_data -> option (option Track))
    (td1 td2 : track_data) (i1 i2 : Z) :
  parse_track td1 = None -> parse_track td2 = None ->
  td_id td1 = Some i1 -> td_id td2 = Some i2 ->
  (td_title td1 = None /\ td_name td1 = None /\ td_artist td1 = None) ->
  (td_title td2 = None /\ td_name td2 = None /\ td_artist td2 = None) ->
  exists t1 t2,
    _parse_track_safe parse_track td1 = Some t1 /\
    _parse_track_safe parse_track td2 = Some t2 /\
    id t1 = i1 /\ id t2 = i2 /\
    find_duplicates [t1; t2] = [((""%string, ""%string), sort_by sort_key [t1; t2])].
Proof.
  intros P1 P2 I1 I2 (T1 & N1 & A1) (T2 & N2 & A2).
  unfold _parse_track_safe. rewrite P1, P2, I1, I2, T1, N1, A1, T2, N2, A2.
  eexists. eexists. split; [reflexivity|]. split; [reflexivity|].
  split; [reflexivity|]. split; [reflexivity|].
  match goal with
  | |- find_duplicates [?a; ?b] = _ =>
      assert (track_key a = (""%string, ""%string)) as K1 by (vm_compute; reflexivity);
      assert (track_key b = (""%string, ""%string)) as K2 by (vm_compute; reflexivity);
      generalize dependent a; generalize dependent b
  end.
  intros b K2 a K1. unfold find_duplicates, build_groups.
  cbn [fold_left group_append]. rewrite K1. cbn [group_append]. rewrite K2.
  reflexivity.
Qed.

Lemma nameless_records_collide_witness :
  exists t1 t2,
    _parse_track_safe Demo.parse_track
      (mkData (Some 1) None None None None (Some "LOW"%string) None) = Some t1 /\
    _parse_track_safe Demo.parse_track
      (mkData (Some 2) None None None None (Some "HIGH"%string) None) = Some t2 /\
    id t1 = 1 /\ id t2 = 2 /\
    find_duplicates [t1; t2] = [((""%string, ""%string), sort_by sort_key [t1; t2])].
Proof.
  exact (nameless_records_collide Demo.parse_track
           (mkData (Some 1) None None None None (Some "LOW"%string) None)
           (mkData (Some 2) None None None None (Some "HIGH"%string) None)
           1 2 eq_refl eq_refl eq_refl eq_refl
           (conj eq_refl (conj eq_refl eq_refl))
           (conj eq_refl (conj eq_refl eq_refl))).
Defined.

(** ** The songs of the music folder *)

Lemma classify_song_name (f a t n : string) :
  Sync.classify f = Sync.Song a t n -> n = f.
Proof.
  unfold Sync.classify. destruct (Sync.stem_suffix (chars f)) as [stem suffix].
  destruct (negb _); [discriminate|].
  destruct (Sync.split_once _ stem) as [[x y]|]; [|discriminate].
  intros E. now injection E.
Qed.

(** X23: the songs read from the music folder are the files of its artist
    folders whose names have an audio extension and the form
    "Artist - Title"; what is no folder, and the folders "Sin clasificar"
    and "__pycache__", give none; the order of the listing plays no part in
    which songs are read. *)
Theorem songs_are_the_well_named_files
    (entries : list Sync.entry) (a t n : string) :
  In (a, t, n) (Sync.get_songs_from_folder (Some entries)) <->
  exists e,
    In e entries /\ Sync.is_dir e = true /\
    Sync.entry_name e <> "Sin clasificar"%string /\
    Sync.entry_name e <> "__pycache__"%string /\
    In n (Sync.entry_files e) /\
    Sync.classify n = Sync.Song a t n.
Proof.
  unfold Sync.get_songs_from_folder. rewrite in_flat_map. split.
  - intros (e & He & Hin).
    apply (Permutation_in _ (sort_by_perm _ entries)) in He.
    exists e. unfold Sync.songs_of in Hin.
    destruct (Sync.is_dir e); [|destruct Hin]. cbn [negb] in Hin.
    destruct (String.eqb_spec (Sync.entry_name e) "Sin clasificar"); [destruct Hin|].
    destruct (String.eqb_spec (Sync.entry_name e) "__pycache__"); [destruct Hin|].
    cbn [orb] in Hin. apply in_flat_map in Hin. destruct Hin as (f & Hf & Hsong).
    apply (Permutation_in _ (sort_by_perm _ (Sync.entry_files e))) in Hf.
    destruct (Sync.classify f) as [|?|a' t' n'] eqn:Hc;
      [destruct Hsong|destruct Hsong|].
    destruct Hsong as [E|[]]. injection E as -> -> ->.
    pose proof (classify_song_name _ _ _ _ Hc) as ->.
    repeat split; auto.
  - intros (e & He & Hd & Hn1 & Hn2 & Hf & Hc). exists e. split.
    + apply (Permutation_in _ (Permutation_sym (sort_by_perm _ entries))). exact He.
    + unfold Sync.songs_of. rewrite Hd. cbn [negb].
      destruct (String.eqb_spec (Sync.entry_name e) "Sin clasificar"); [contradiction|].
      destruct (String.eqb_spec (Sync.entry_name e) "__pycache__"); [contradiction|].
      cbn [orb]. apply in_flat_map. exists n. split.
      * apply (Permutation_in _ (Permutation_sym (sort_by_perm _ (Sync.entry_files e)))).
        exact Hf.
      * rewrite Hc. now left.
Qed.

Example songs_of_the_sample_folder :
  Sync.get_songs_from_folder (Some SampleRuns.music) =
  [ ("z", "z", "z - z.ogg"); ("A", "B", "A - B.flac"); ("x", "y", "x - y.mp3") ]%string /\
  Sync.get_songs_from_folder None = [].
Proof. vm_compute. split; reflexivity. Qed.

(** ** The year of a remaster *)

Lemma year_match_here (prev : option ascii) (s : list ascii) (n : nat) :
  match_here false _RE_YEAR prev s = Some n ->
  exists a b c d rest,
    s = a :: b :: c :: d :: rest /\ n = 4%nat /\
    ((a = "1"%char /\ b = "9"%char) \/ (a = "2"%char /\ b = "0"%char)) /\
    is_digit c = true /\ is_digit d = true.
Proof.
  unfold match_here, _RE_YEAR, digit, str.
  cbn [cat_all chars list_ascii_of_string lits rmatch lit_eq].
  destruct (at_boundary prev s); [|discriminate].
  destruct s as [|a [|b [|c [|d rest]]]];
    repeat match goal with
           | |- context [Ascii.eqb ?x ?y] => destruct (Ascii.eqb_spec x y)
           end; try discriminate;
    destruct (is_digit c) eqn:Hc; try discriminate;
    destruct (is_digit d) eqn:Hd; try discriminate;
    destruct (at_boundary (Some d) rest); try discriminate;
    intros E; injection E as <-;
    exists a, b, c, d, rest; intuition congruence.
Qed.

Lemma year_search_from (prev : option ascii) (s m : list ascii) :
  search_from false _RE_YEAR prev s = Some m ->
  exists a b c d,
    m = [a; b; c; d] /\
    ((a = "1"%char /\ b = "9"%char) \/ (a = "2"%char /\ b = "0"%char)) /\
    is_digit c = true /\ is_digit d = true.
Proof.
  revert prev. induction s as [|x s IH]; intros prev; cbn [search_from].
  - destruct (match_here false _RE_YEAR prev []) as [n|] eqn:E; [|discriminate].
    apply year_match_here in E. destruct E as (a & b & c & d & rest & E & _).
    discriminate.
  - destruct (match_here false _RE_YEAR prev (x :: s)) as [n|] eqn:E.
    + apply year_match_here in E.
      destruct E as (a & b & c & d & rest & E & -> & H).
      rewrite E. intros F. injection F as <-.
      exists a, b, c, d. split; [reflexivity|exact H].
    + apply IH.
Qed.

Lemma digit_value (c : ascii) :
  is_digit c = true -> 0 <= Z.of_N (code c) - 48 <= 9.
Proof.
  unfold is_digit, in_range. rewrite andb_true_iff, !N.leb_le. lia.
Qed.

(** X24: the remaster score is -1 when the tag names no remaster, and
    exactly then; otherwise it is 0, for a remaster without a year, or a
    year from 1900 to 2099: any remaster ranks above no remaster and a
    dated one above an undated one. *)
Theorem remaster_year_range (track : Track) :
  (_remaster_year track = -1 <-> found true _RE_REMASTER (_tag track) = false) /\
  (_remaster_year track = -1 \/ _remaster_year track = 0 \/
   1900 <= _remaster_year track <= 2099).
Proof.
  unfold _remaster_year.
  destruct (found true _RE_REMASTER (_tag track)); cbn [negb].
  - assert (match search false _RE_YEAR (_tag track) with
            | Some m => int_of_digits m
            | None => 0
            end = 0 \/
            1900 <= match search false _RE_YEAR (_tag track) with
                    | Some m => int_of_digits m
                    | None => 0
                    end <= 2099) as H.
    { unfold search.
      destruct (search_from false _RE_YEAR None (chars (_tag track))) as [m|] eqn:E;
        cbn [option_map]; [|now left].
      right. apply year_search_from in E.
      destruct E as (a & b & c & d & -> & Hab & Hc & Hd).
      unfold int_of_digits. rewrite chars_text. cbn [fold_left].
      apply digit_value in Hc, Hd.
      destruct Hab as [[-> ->]|[-> ->]];
        change (Z.of_N (code "1")) with 49; change (Z.of_N (code "9")) with 57;
        change (Z.of_N (code "2")) with 50; change (Z.of_N (code "0")) with 48;
        lia. }
    split; [|right; exact H].
    split; [lia|discriminate].
  - split; [split; reflexivity|now left].
Qed.

(** ** The top tiers and the ranks *)

(** X25: the qualities the upgrader leaves alone are the two of rank 4 and
    5: a track is skipped as top tier exactly when its rank is 4 or more,
    and no rank lies outside 0 to 5. *)
Theorem top_tiers_are_the_top_ranks (track : Track) :
  (is_top track = true <-> 4 <= quality_rank track) /\
  0 <= quality_rank track <= 5.
Proof.
  unfold is_top, quality_rank, TOP_QUALITIES, QUALITY_RANK.
  set (q := get_quality track).
  destruct (String.eqb q "HI_RES_LOSSLESS"); cbn [orb];
    [split; [split; [lia|reflexivity]|lia]|].
  destruct (String.eqb q "HI_RES");
    [split; [split; [lia|reflexivity]|lia]|].
  repeat match goal with
         | |- context [String.eqb q ?s] => destruct (String.eqb q s)
         end;
    (split; [split; [discriminate|lia]|lia]).
Qed.

(** ** What a round leaves of a song *)

Lemma same_id_same_track (tracks : list Track) (a b : Track) :
  List.NoDup (map id tracks) -> In a tracks -> In b tracks -> id a = id b -> a = b.
Proof.
  induction tracks as [|t tracks IH]; intros Hnd Ha Hb E; [destruct Ha|].
  cbn [map] in Hnd. inversion Hnd as [|? ? Hnot Hnd']; subst.
  destruct Ha as [->|Ha], Hb as [->|Hb].
  - reflexivity.
  - exfalso. apply Hnot. rewrite E. now apply in_map.
  - exfalso. apply Hnot. rewrite <- E. now apply in_map.
  - now apply IH.
Qed.

Lemma in_same_key (k : group_key) (tracks : list Track) (t : Track) :
  In t (same_key k tracks) <-> In t tracks /\ track_key t = k.
Proof.
  unfold same_key. rewrite List.filter_In. split.
  - intros [H E]. apply key_eqb_eq in E. auto.
  - intros [H <-]. split; [exact H|apply key_eqb_refl].
Qed.

(** X26: with identifiers that are all different, a round never names the
    last copy of a song: for every track of the list, a track with the same
    key is among those that are left when every copy named has been
    removed. *)
Theorem every_song_keeps_a_copy (tracks : list Track) (t : Track) :
  List.NoDup (map id tracks) -> In t tracks ->
  exists kept,
    In kept (survivors tracks) /\ track_key kept = track_key t /\
    ~ In (id kept) (map id (extras_of tracks)).
Proof.
  intros Hnd Ht.
  set (k := track_key t).
  pose proof (sort_by_perm sort_key (same_key k tracks)) as Hperm.
  assert (In t (sort_by sort_key (same_key k tracks))) as Hin.
  { apply (Permutation_in _ (Permutation_sym Hperm)). apply in_same_key. auto. }
  destruct (sort_by sort_key (same_key k tracks)) as [|keeper extras] eqn:Eg;
    [destruct Hin|].
  assert (In keeper tracks /\ track_key keeper = k) as [Hk Hkey].
  { apply in_same_key. apply (Permutation_in _ Hperm). now left. }
  assert (List.NoDup (keeper :: extras)) as Hgroup.
  { apply (Permutation_NoDup (Permutation_sym Hperm)).
    unfold same_key. apply List.NoDup_filter.
    apply (NoDup_map_inv id). exact Hnd. }
  assert (~ In (id keeper) (map id (extras_of tracks))) as Hfree.
  { intros Hbad. apply in_map_iff in Hbad. destruct Hbad as (e & Eid & He).
    unfold extras_of in He. apply in_flat_map in He.
    destruct He as ([k' g'] & Hg' & He). cbn [snd] in He.
    apply find_duplicates_spec in Hg'. destruct Hg' as [_ ->].
    assert (In e (sort_by sort_key (same_key k' tracks))) as He'.
    { destruct (sort_by sort_key (same_key k' tracks)); [destruct He|now right]. }
    apply (Permutation_in _ (sort_by_perm sort_key _)) in He'.
    apply in_same_key in He'. destruct He' as [Het Hek].
    assert (e = keeper) as -> by (apply (same_id_same_track tracks); auto).
    assert (k' = k) as -> by congruence.
    rewrite Eg in He. cbn [tl] in He.
    inversion Hgroup as [|? ? Hnot _]. contradiction. }
  exists keeper. split; [|split; [exact Hkey|exact Hfree]].
  unfold survivors. apply List.filter_In. split; [exact Hk|].
  apply negb_true_iff. apply not_true_is_false. intros Hex.
  apply existsb_exists in Hex. destruct Hex as (e & He & Eid).
  apply Z.eqb_eq in Eid. apply Hfree. rewrite <- Eid. now apply in_map.
Qed.

Lemma every_song_keeps_a_copy_witness :
  exists kept,
    In kept (survivors Demo.eagles) /\
    track_key kept = track_key (Demo.track 13 "eagles" "Hotel California - Live"
                                           "Hell Freezes Over" "HIGH") /\
    ~ In (id kept) (map id (extras_of Demo.eagles)).
Proof.
  apply (every_song_keeps_a_copy Demo.eagles).
  - vm_compute. repeat (constructor; [cbn; lia|]). constructor.
  - vm_compute. tauto.
Defined.

(** ** A search result without artist and without name *)

Lemma sync_normalize_empty : Sync.normalize "" = ""%string.
Proof. vm_compute. reflexivity. Qed.

Section NamelessResult.

Variable W : Type.
Variable search : string -> W -> option (list Track).
Variable add_track : Z -> W -> option W.

(** X27: a search result that has neither artist nor name matches every
    song; when it comes first and its identifier is new, the track is added
    to the favourites and its identifier to the existing ones, and the song
    is recorded as an error and not as added. *)
Theorem nameless_result_is_added_and_logged_as_error
    (st : Sync.sync W) (song_artist song_title filename : string)
    (t : Track) (rest : list Track) (w' : W) :
  search (song_artist ++ " " ++ song_title)%string (Sync.favourites st)
    = Some (t :: rest) ->
  artist t = None -> name t = None ->
  id t ∉ Sync.existing_ids st ->
  add_track (id t) (Sync.favourites st) = Some w' ->
  Sync.find_best_match (t :: rest) song_artist song_title = Some t /\
  Sync.sync_song W search add_track st (song_artist, song_title, filename) =
  {| Sync.favourites := w';
     Sync.existing_ids := {[ id t ]} ∪ Sync.existing_ids st;
     Sync.added := Sync.added st;
     Sync.not_found := Sync.not_found st;
     Sync.already_exists := Sync.already_exists st;
     Sync.sync_errors := Sync.sync_errors st
                         ++ [(song_artist ++ " - " ++ song_title)%string] |}.
Proof.
  intros Hsearch Hartist Hname Hnew Hadd.
  assert (Sync.find_best_match (t :: rest) song_artist song_title = Some t) as Hbest.
  { unfold Sync.find_best_match. cbn [firstn find]. unfold Sync.is_match.
    rewrite Hartist, Hname. cbn [or_str]. rewrite sync_normalize_empty.
    rewrite !contains_empty, !orb_true_r. reflexivity. }
  split; [exact Hbest|].
  unfold Sync.sync_song, Sync.search_track. rewrite Hsearch, Hbest.
  rewrite bool_decide_eq_false_2 by exact Hnew.
  rewrite Hadd. unfold Sync.tidal_label. rewrite Hartist, Hname. reflexivity.
Qed.

End NamelessResult.

Lemma nameless_result_is_added_and_logged_as_error_witness :
  Sync.find_best_match [SampleService.nameless; Demo.held] "Eagles" "Desperado"
    = Some SampleService.nameless /\
  Sync.sync_song (list Z) SampleService.search SampleService.add_track
    SampleService.start ("Eagles", "Desperado", "Eagles - Desperado.mp3")%string =
  {| Sync.favourites := [7; 20];
     Sync.existing_ids := {[ 7 ]} ∪ {[ 20 ]};
     Sync.added := [];
     Sync.not_found := [];
     Sync.already_exists := [];
     Sync.sync_errors := ["Eagles - Desperado"%string] |}.
Proof.
  exact (nameless_result_is_added_and_logged_as_error (list Z)
           SampleService.search SampleService.add_track SampleService.start
           "Eagles" "Desperado" "Eagles - Desperado.mp3"
           SampleService.nameless [Demo.held] [7; 20]
           eq_refl eq_refl eq_refl ltac:(vm_compute; set_solver) eq_refl).
Defined.
